(** * Claude Code runtime integration: spawner, communicator, runtime

    A shallow embedding of the three TypeScript classes
    [ClaudeCodeProcessSpawner], [ClaudeCodeCommunicator] (with its two
    output parsers) and [ClaudeCodeRuntime], followed by the properties
    of the design document stated over that embedding.

    Conventions.
    - A JavaScript string is the list of its UTF-16 code units
      ([jstring]); [js "..."] writes a literal.
    - [undefined] is [None] of an option type; every other JavaScript
      value that can reach the modelled code is a [JsVal].
    - Mutable objects become explicit state; a method is a function from
      the state before the call to the state after it.  Code that
      suspends ([await sleep], [setTimeout]) is split at the point of
      suspension, the pending continuation being part of the state.
    - The host's [logger] only observes; its calls are recorded where
      the properties speak about them (level and message, the metadata
      argument is left out). *)

From Stdlib Require Import ZArith NArith List Ascii String Lia.
From Stdlib Require Import Floats.SpecFloat.
From Stdlib Require Import DecimalString DecimalZ DecimalPos.
From stdpp Require Import base option list gmap.

#[local] Set Warnings "-register-all".
Local Open Scope N_scope.

(* ===================================================================== *)
(** ** JavaScript strings *)
(* ===================================================================== *)

Abbreviation jstring := (list N).

(** A literal: one code unit per character of the Rocq string. *)
Definition js (s : string) : jstring :=
  (λ a, N_of_ascii a) <$> list_ascii_of_string s.

(** [s.startsWith(p)] *)
Fixpoint startsWith (s p : jstring) {struct p} : bool :=
  match p, s with
  | [], _ => true
  | _ :: _, [] => false
  | a :: p', b :: s' => (a =? b) && startsWith s' p'
  end.

(** [s.includes(p)]: [p] occurs at some position of [s]. *)
Fixpoint includes (s p : jstring) : bool :=
  startsWith s p ||
  match s with
  | [] => false
  | _ :: s' => includes s' p
  end.

(** [s.endsWith(p)] *)
Definition endsWith (s p : jstring) : bool :=
  startsWith (rev s) (rev p).

(** [s.indexOf(p)], [None] standing for -1. *)
Fixpoint indexOf (s p : jstring) : option nat :=
  if startsWith s p then Some 0%nat
  else match s with
       | [] => None
       | _ :: s' => S <$> indexOf s' p
       end.

(** [s.substr(start, len)] for non-negative arguments. *)
Definition substr (start len : nat) (s : jstring) : jstring :=
  take len (drop start s).

(** [String(n)] for an integer [n] (plain decimal notation, which is
    what JavaScript prints below 10^21). *)
Definition String_of_Z (n : Z) : jstring :=
  js (NilZero.string_of_int (Z.to_int n)).

(** The class [\s] of a JavaScript regular expression: white space and
    line terminators. *)
Definition is_space (c : N) : bool :=
  (9 <=? c) && (c <=? 13) || (c =? 32) || (c =? 160) || (c =? 0x1680)
  || (0x2000 <=? c) && (c <=? 0x200A)
  || (c =? 0x2028) || (c =? 0x2029) || (c =? 0x202F) || (c =? 0x205F)
  || (c =? 0x3000) || (c =? 0xFEFF).

(** Line terminators: the code units [.] does not match. *)
Definition is_line_terminator (c : N) : bool :=
  (c =? 10) || (c =? 13) || (c =? 0x2028) || (c =? 0x2029).

(* ===================================================================== *)
(** ** JavaScript values *)
(* ===================================================================== *)

(** The values [JSON.parse] can produce, which are also all the values
    the fields of a parsed output can hold.  Numbers are IEEE doubles;
    an object is the list of its own properties. *)
Inductive JsVal :=
| JNull
| JBool (b : bool)
| JNum (f : spec_float)
| JStr (s : jstring)
| JArr (items : list JsVal)
| JObj (props : list (jstring * JsVal)).

(** Truthiness ([ToBoolean]). *)
Definition truthy (v : JsVal) : bool :=
  match v with
  | JNull => false
  | JBool b => b
  | JNum (S754_zero _) | JNum S754_nan => false
  | JNum _ => true
  | JStr [] => false
  | JStr _ => true
  | JArr _ | JObj _ => true
  end.

(** [a || b] where [a] may be [undefined]. *)
Definition or_else (a : option JsVal) (b : JsVal) : JsVal :=
  match a with
  | Some v => if truthy v then v else b
  | None => b
  end.

(** Own-property lookup in a property list. *)
Fixpoint prop_lookup (k : jstring) (props : list (jstring * JsVal))
  : option JsVal :=
  match props with
  | [] => None
  | (k', v) :: rest => if decide (k' = k) then Some v else prop_lookup k rest
  end.

(** Result of evaluating [data.k] for one of the keys the code reads
    ([type], [result], [message]), none of which the built-in prototypes
    define: [None] is the [TypeError] of reading a property of [null],
    [Some None] is [undefined]. *)
Definition get_prop (data : JsVal) (k : jstring) : option (option JsVal) :=
  match data with
  | JNull => None
  | JObj props => Some (prop_lookup k props)
  | _ => Some None
  end.

(** [v === 'lit'] for a possibly undefined [v]. *)
Definition strict_eq_str (v : option JsVal) (lit : jstring) : bool :=
  match v with
  | Some (JStr s) => bool_decide (s = lit)
  | _ => false
  end.

(* ===================================================================== *)
(** ** Parsed output and the parser interface *)
(* ===================================================================== *)

Inductive OutputType := Status | Result | Error | Prompt | Raw.

#[global] Instance OutputType_eq_dec : EqDecision OutputType.
Proof. solve_decision. Defined.

(** [interface ParsedOutput]; the optional fields are options. *)
Record ParsedOutput := {
  type : OutputType;
  content : JsVal;
  data : option JsVal;
  isComplete : option bool;
  error : option JsVal;
}.

(** [interface OutputParser]: [parse] may update the parser object. *)
Class OutputParser (P : Type) := {
  parse : P → jstring → P * ParsedOutput;
}.

(* --------------------------------------------------------------------- *)
(** *** DefaultOutputParser (text mode) *)
(* --------------------------------------------------------------------- *)

Module DefaultOutputParser.

Record t := { buffer : jstring }.

(** [new DefaultOutputParser()] *)
Definition new : t := {| buffer := [] |}.

(** The tail [(.+?)(?:\n|$)] of the pattern, after at least one code
    unit has been taken into the group: the lazy quantifier first
    tries to stop, and takes one more code unit only when neither a
    line feed nor the end of the input follows. *)
Fixpoint dot_lazy (group s : jstring) : option jstring :=
  match s with
  | [] => Some group
  | c :: s' =>
      if c =? 10 then Some group
      else if is_line_terminator c then None
      else dot_lazy (group ++ [c]) s'
  end.

(** [(.+?)(?:\n|$)] *)
Definition dot_plus_lazy (s : jstring) : option jstring :=
  match s with
  | [] => None
  | c :: s' => if is_line_terminator c then None else dot_lazy [c] s'
  end.

(** [\s*(.+?)(?:\n|$)]: the greedy star first takes one more space and
    gives it back when the rest of the pattern fails. *)
Fixpoint ws_greedy (s : jstring) : option jstring :=
  match s with
  | c :: s' =>
      if is_space c then
        match ws_greedy s' with
        | Some g => Some g
        | None => dot_plus_lazy s
        end
      else dot_plus_lazy s
  | [] => dot_plus_lazy s
  end.

(** The whole pattern anchored at the head of [s]. *)
Definition match_here (s : jstring) : option jstring :=
  if startsWith s (js "Error:") then ws_greedy (drop 6 s) else None.

(** [text.match(/Error:\s*(.+?)(?:\n|$)/)], reduced to its group 1:
    the leftmost position where the pattern matches. *)
Fixpoint errorMatch (text : jstring) : option jstring :=
  match match_here text with
  | Some g => Some g
  | None => match text with
            | [] => None
            | _ :: text' => errorMatch text'
            end
  end.

Definition extractError (text : jstring) : jstring :=
  match errorMatch text with
  | Some g => g
  | None => text
  end.

Definition parse (p : t) (output : jstring) : t * ParsedOutput :=
  let buffer := buffer p ++ output in
  let p' := {| buffer := buffer |} in
  if includes buffer (js "Task completed") || includes buffer (js "Done")
  then (p', {| type := Result; content := JStr buffer; data := None;
               isComplete := Some true; error := None |})
  else if includes buffer (js "Error:") || includes buffer (js "Failed")
  then (p', {| type := Error; content := JStr buffer; data := None;
               isComplete := None;
               error := Some (JStr (extractError buffer)) |})
  else if endsWith buffer (js "?") || includes buffer (js "Please provide")
  then (p', {| type := Prompt; content := JStr buffer; data := None;
               isComplete := None; error := None |})
  else (p', {| type := Raw; content := JStr output; data := None;
               isComplete := None; error := None |}).

Definition reset (p : t) : t := {| buffer := [] |}.

(** Feeding a sequence of chunks to one parser object: the parser
    after the last chunk and the classification of every chunk. *)
Fixpoint feed (p : t) (chunks : list jstring) : t * list ParsedOutput :=
  match chunks with
  | [] => (p, [])
  | c :: rest =>
      let '(p1, o) := parse p c in
      let '(p2, os) := feed p1 rest in
      (p2, o :: os)
  end.

End DefaultOutputParser.

#[global] Instance DefaultOutputParser_parser
  : OutputParser DefaultOutputParser.t :=
  {| parse := DefaultOutputParser.parse |}.

(* --------------------------------------------------------------------- *)
(** *** JsonOutputParser (structured mode) *)
(* --------------------------------------------------------------------- *)

Module JsonOutputParser.

(** The parser object has no fields. *)
Definition t := unit.

Section WithJSON.

(** The two built-ins the parser calls.  [JSON_parse] is [None] when
    [JSON.parse] throws its [SyntaxError]; [JSON_stringify d] is
    [JSON.stringify(d, null, 2)], which returns a string for every
    value [JSON.parse] produces. *)
Variable JSON_parse : jstring → option JsVal.
Variable JSON_stringify : JsVal → jstring.

(** The body of the [try] block, [None] when it throws. *)
Definition try_block (output : jstring) : option ParsedOutput :=
  data ← JSON_parse output;
  ty ← get_prop data (js "type");
  if strict_eq_str ty (js "completion") then
    result ← get_prop data (js "result");
    Some {| type := Result; content := or_else result (JStr []);
            data := Some data; isComplete := Some true; error := None |}
  else if strict_eq_str ty (js "error") then
    message ← get_prop data (js "message");
    Some {| type := Error; content := or_else message (JStr []);
            data := Some data; isComplete := None; error := message |}
  else
    Some {| type := Status; content := JStr (JSON_stringify data);
            data := Some data; isComplete := None; error := None |}.

(** [parse]: the [catch] clause turns every exception of the [try]
    block into a raw classification. *)
Definition parse (p : t) (output : jstring) : t * ParsedOutput :=
  match try_block output with
  | Some o => (p, o)
  | None => (p, {| type := Raw; content := JStr output; data := None;
                   isComplete := None; error := None |})
  end.

End WithJSON.

End JsonOutputParser.

Definition JsonOutputParser_parser
  (JSON_parse : jstring → option JsVal) (JSON_stringify : JsVal → jstring)
  : OutputParser JsonOutputParser.t :=
  {| parse := JsonOutputParser.parse JSON_parse JSON_stringify |}.

(* ===================================================================== *)
(** ** Errors and outcomes *)
(* ===================================================================== *)

(** [new Error(arg)]: the error object is identified by the value its
    constructor received. *)
Inductive JsError := MkError (arg : JsVal).

(** A call either returns or throws. *)
Inductive Outcome (A : Type) :=
| Ok (a : A)
| Throw (e : JsError).
Arguments Ok {A} a.
Arguments Throw {A} e.

Inductive LogLevel := debug | info | warn | error_level.

(* ===================================================================== *)
(** ** types/runtime.ts *)
(* ===================================================================== *)

Inductive RuntimeType := default_runtime | claudeCode_runtime.

Definition RuntimeType_str (r : option RuntimeType) : jstring :=
  match r with
  | Some default_runtime => js "default"
  | Some claudeCode_runtime => js "claudeCode"
  | None => js "undefined"
  end.

Inductive ClaudeCodePermissionMode :=
| bypassPermissions | acceptEdits | delegate | plan | dontAsk.

Definition PermissionMode_str (m : ClaudeCodePermissionMode) : jstring :=
  match m with
  | bypassPermissions => js "bypassPermissions"
  | acceptEdits => js "acceptEdits"
  | delegate => js "delegate"
  | plan => js "plan"
  | dontAsk => js "dontAsk"
  end.

Inductive ClaudeCodeModel :=
| opus | sonnet | haiku
| claude_opus_4_6 | claude_sonnet_4_5 | claude_haiku_4_5.

Definition Model_str (m : ClaudeCodeModel) : jstring :=
  match m with
  | opus => js "opus"
  | sonnet => js "sonnet"
  | haiku => js "haiku"
  | claude_opus_4_6 => js "anthropic/claude-opus-4-6"
  | claude_sonnet_4_5 => js "anthropic/claude-sonnet-4-5"
  | claude_haiku_4_5 => js "anthropic/claude-haiku-4-5"
  end.

Inductive OutputFormat := text_format | json_format | stream_json_format.

Definition OutputFormat_str (f : OutputFormat) : jstring :=
  match f with
  | text_format => js "text"
  | json_format => js "json"
  | stream_json_format => js "stream-json"
  end.

Module ClaudeCodeConfig.
Record t := {
  binaryPath : option jstring;
  permissionMode : option ClaudeCodePermissionMode;
  sessionPersistence : option bool;
  plugins : option (list jstring);
  mcpServers : option (list jstring);
  agentTeams : option bool;
  model : option ClaudeCodeModel;
  workdir : option jstring;
  env : option (gmap jstring jstring);
}.

(** The object [{}] of [this.agent.claudeCode || {}]. *)
Definition empty : t :=
  {| binaryPath := None; permissionMode := None;
     sessionPersistence := None; plugins := None; mcpServers := None;
     agentTeams := None; model := None; workdir := None; env := None |}.

End ClaudeCodeConfig.

Module AgentConfig.
Record t := {
  id : jstring;
  name : jstring;
  runtime : option RuntimeType;
  model : option jstring;
  workspace : jstring;
  agentDir : jstring;
  claudeCode : option ClaudeCodeConfig.t;
  identity : option (jstring * option jstring);
}.

End AgentConfig.

Module ClaudeCodeSpawnOptions.
Record t := {
  task : jstring;
  resumeSessionId : option jstring;
  continue : option bool;
  permissionMode : option ClaudeCodePermissionMode;
  model : option ClaudeCodeModel;
  enableTeams : option bool;
  teammates : option Z;
  outputFormat : option OutputFormat;
}.

End ClaudeCodeSpawnOptions.

Inductive SessionState := starting | running | idle | error_state | stopped.

Module ClaudeCodeSession.
Record t := {
  sessionId : jstring;
  agentId : jstring;
  pid : Z;
  workdir : jstring;
  task : jstring;
  startedAt : Z;
  state : SessionState;
  lastActivity : Z;
  error : option jstring;
  outputBuffer : list jstring;
}.

Definition set_lastActivity (now : Z) (s : t) : t :=
  {| sessionId := sessionId s; agentId := agentId s; pid := pid s;
     workdir := workdir s; task := task s; startedAt := startedAt s;
     state := state s; lastActivity := now; error := error s;
     outputBuffer := outputBuffer s |}.

Definition set_state (st : SessionState) (s : t) : t :=
  {| sessionId := sessionId s; agentId := agentId s; pid := pid s;
     workdir := workdir s; task := task s; startedAt := startedAt s;
     state := st; lastActivity := lastActivity s; error := error s;
     outputBuffer := outputBuffer s |}.

Definition set_outputBuffer (b : list jstring) (s : t) : t :=
  {| sessionId := sessionId s; agentId := agentId s; pid := pid s;
     workdir := workdir s; task := task s; startedAt := startedAt s;
     state := state s; lastActivity := lastActivity s; error := error s;
     outputBuffer := b |}.

End ClaudeCodeSession.

Inductive ClaudeCodeEvent :=
| started_event (sessionId : jstring) (pid : Z)
| output_event (sessionId : jstring) (data : jstring)
| error_event (sessionId : jstring) (error : jstring)
| completed_event (sessionId : jstring) (result : option jstring)
| stopped_event (sessionId : jstring) (exitCode : option Z).

(** Truthiness of an optional string, an optional boolean. *)
Definition truthy_str (s : option jstring) : bool :=
  match s with
  | Some (_ :: _) => true
  | _ => false
  end.

Definition truthy_bool (b : option bool) : bool :=
  match b with
  | Some true => true
  | _ => false
  end.

(* ===================================================================== *)
(** ** ClaudeCodeProcessSpawner *)
(* ===================================================================== *)

Module ClaudeCodeProcessSpawner.

(** Every [spawn] creates one pseudo-terminal and one session object;
    both are shared by the registry entry, by the closures registered
    on the pseudo-terminal and by a suspended [stop].  A reference
    [ref] names the pair; the session objects live in a heap so that
    all holders of a reference see the same object. *)
Abbreviation ref := nat.

(** What the spawner does to a pseudo-terminal. *)
Inductive PtyOp :=
| pty_write (data : jstring)
| pty_kill (signal : jstring).

(** The call [nodePtySpawn(file, args, {cwd, env, ...})]. *)
Record PtySpawn := {
  file : jstring;
  args : list jstring;
  cwd : jstring;
  env : gmap jstring jstring;
}.

(** A suspended [await this.sleep(ms)] and what runs after it. *)
Inductive Sleeper :=
| spawn_settle (wake : Z) (sessionId task : jstring) (pid : Z) (r : ref)
| stop_grace (wake : Z) (sessionId : jstring) (r : ref).

Record t := {
  agent : AgentConfig.t;
  activeSessions : gmap jstring ref;
  sessions : gmap ref ClaudeCodeSession.t;
  next_ref : ref;
  pty_spawns : list (ref * PtySpawn);
  pty_ops : list (ref * PtyOp);
  emitted : list ClaudeCodeEvent;
  logs : list (LogLevel * jstring);
  sleepers : list Sleeper;
}.

(** [new ClaudeCodeProcessSpawner({agent, logger})] *)
Definition new (agent : AgentConfig.t) : t :=
  {| agent := agent; activeSessions := ∅; sessions := ∅; next_ref := 0%nat;
     pty_spawns := []; pty_ops := []; emitted := []; logs := [];
     sleepers := [] |}.

(** *** Elementary effects *)

Definition logger (lvl : LogLevel) (msg : jstring) (st : t) : t :=
  {| agent := agent st; activeSessions := activeSessions st;
     sessions := sessions st; next_ref := next_ref st;
     pty_spawns := pty_spawns st; pty_ops := pty_ops st;
     emitted := emitted st; logs := logs st ++ [(lvl, msg)];
     sleepers := sleepers st |}.

Definition emit (ev : ClaudeCodeEvent) (st : t) : t :=
  {| agent := agent st; activeSessions := activeSessions st;
     sessions := sessions st; next_ref := next_ref st;
     pty_spawns := pty_spawns st; pty_ops := pty_ops st;
     emitted := emitted st ++ [ev]; logs := logs st;
     sleepers := sleepers st |}.

Definition pty_do (r : ref) (op : PtyOp) (st : t) : t :=
  {| agent := agent st; activeSessions := activeSessions st;
     sessions := sessions st; next_ref := next_ref st;
     pty_spawns := pty_spawns st; pty_ops := pty_ops st ++ [(r, op)];
     emitted := emitted st; logs := logs st; sleepers := sleepers st |}.

Definition set_activeSessions (m : gmap jstring ref) (st : t) : t :=
  {| agent := agent st; activeSessions := m;
     sessions := sessions st; next_ref := next_ref st;
     pty_spawns := pty_spawns st; pty_ops := pty_ops st;
     emitted := emitted st; logs := logs st; sleepers := sleepers st |}.

(** Assignment to a field of the session object [r]. *)
Definition update_session (r : ref)
    (f : ClaudeCodeSession.t → ClaudeCodeSession.t) (st : t) : t :=
  {| agent := agent st; activeSessions := activeSessions st;
     sessions := alter f r (sessions st); next_ref := next_ref st;
     pty_spawns := pty_spawns st; pty_ops := pty_ops st;
     emitted := emitted st; logs := logs st; sleepers := sleepers st |}.

Definition set_sleepers (l : list Sleeper) (st : t) : t :=
  {| agent := agent st; activeSessions := activeSessions st;
     sessions := sessions st; next_ref := next_ref st;
     pty_spawns := pty_spawns st; pty_ops := pty_ops st;
     emitted := emitted st; logs := logs st; sleepers := l |}.

(** Allocation of the pseudo-terminal and the session object. *)
Definition allocate (call : PtySpawn) (s : ClaudeCodeSession.t) (st : t)
  : t :=
  {| agent := agent st; activeSessions := activeSessions st;
     sessions := <[next_ref st := s]> (sessions st);
     next_ref := S (next_ref st);
     pty_spawns := pty_spawns st ++ [(next_ref st, call)];
     pty_ops := pty_ops st; emitted := emitted st; logs := logs st;
     sleepers := sleepers st |}.

(** *** Private methods *)

Definition claudeConfig (st : t) : ClaudeCodeConfig.t :=
  default ClaudeCodeConfig.empty (AgentConfig.claudeCode (agent st)).

(** [generateSessionId]: [now] is [Date.now()] and [random36] is
    [Math.random().toString(36)]. *)
Definition generateSessionId (agent_id : jstring) (now : Z)
    (random36 : jstring) : jstring :=
  js "cc-" ++ agent_id ++ js "-" ++ String_of_Z now ++ js "-"
    ++ substr 2 9 random36.

Definition buildCommandArgs (st : t) (options : ClaudeCodeSpawnOptions.t)
  : list jstring :=
  let args0 :=
    match ClaudeCodeSpawnOptions.resumeSessionId options with
    | Some (c :: id') => [js "--resume"; c :: id']
    | _ =>
        if truthy_bool (ClaudeCodeSpawnOptions.continue options)
        then [js "--continue"] else []
    end in
  let permissionMode :=
    match ClaudeCodeSpawnOptions.permissionMode options with
    | Some m => m
    | None =>
        match ClaudeCodeConfig.permissionMode (claudeConfig st) with
        | Some m => m
        | None => bypassPermissions
        end
    end in
  let args1 :=
    args0 ++ [js "--permission-mode"; PermissionMode_str permissionMode] in
  let model :=
    match ClaudeCodeSpawnOptions.model options with
    | Some m => Some m
    | None => ClaudeCodeConfig.model (claudeConfig st)
    end in
  let args2 :=
    match model with
    | Some m => args1 ++ [js "--model"; Model_str m]
    | None => args1
    end in
  match ClaudeCodeSpawnOptions.outputFormat options with
  | Some f => args2 ++ [js "--output-format"; OutputFormat_str f]
  | None => args2
  end.

Definition not_found (sessionId : jstring) : JsError :=
  MkError (JStr (js "Session " ++ sessionId ++ js " not found")).

Definition sendTask (sessionId task : jstring) (st : t) : Outcome t :=
  match activeSessions st !! sessionId with
  | None => Throw (not_found sessionId)
  | Some r =>
      Ok (logger debug (js "Task sent to Claude Code")
            (pty_do r (pty_write (task ++ [10])) st))
  end.

(** *** The callbacks of [setupPtyHandlers] for the pair [r] *)

Definition push_bounded (buf : list jstring) (data : jstring)
  : list jstring :=
  let buf' := buf ++ [data] in
  if decide (100 < length buf')%nat then drop 1 buf' else buf'.

Definition onData_session (now : Z) (data : jstring)
    (s : ClaudeCodeSession.t) : ClaudeCodeSession.t :=
  let s1 := ClaudeCodeSession.set_lastActivity now s in
  let s2 := ClaudeCodeSession.set_outputBuffer
              (push_bounded (ClaudeCodeSession.outputBuffer s1) data) s1 in
  match ClaudeCodeSession.state s2 with
  | starting =>
      if includes data (js "Claude Code")
      then ClaudeCodeSession.set_state running s2 else s2
  | _ => s2
  end.

Definition onData (r : ref) (data : jstring) (now : Z) (st : t) : t :=
  match sessions st !! r with
  | None => st
  | Some s =>
      logger debug (js "PTY output")
        (emit (output_event (ClaudeCodeSession.sessionId s) data)
           (update_session r (onData_session now data) st))
  end.

Definition onExit (r : ref) (exitCode : Z) (st : t) : t :=
  match sessions st !! r with
  | None => st
  | Some s =>
      let sid := ClaudeCodeSession.sessionId s in
      let st1 := logger info (js "Claude Code process exited") st in
      let st2 := update_session r (ClaudeCodeSession.set_state stopped) st1 in
      let st3 := set_activeSessions (delete sid (activeSessions st2)) st2 in
      emit (stopped_event sid (Some exitCode)) st3
  end.

(** *** Public methods *)

(** [restart] is a forced [stop] followed by [spawn], and [cleanup] a
    forced [stop] of every registered session; they add no step of
    their own and are given after this module, in [SpawnerLifecycle],
    with the read [getAllSessions]. *)

(** What [spawn] reads from its environment: the clock, the random
    number generator, the process environment and the outcome of
    [nodePtySpawn] (the process id, unless it throws). *)
Record SpawnEnv := {
  now : Z;
  random36 : jstring;
  process_env : gmap jstring jstring;
  pty_pid : Outcome Z;
}.

(** The promise returned by [spawn], as far as one step settles it; it
    resolves with the session object itself, not with a copy. *)
Inductive SpawnStatus :=
| spawn_resolved (r : ref)
| spawn_rejected (e : JsError)
| spawn_sleeping.

Definition spawn (e : SpawnEnv) (options : ClaudeCodeSpawnOptions.t)
    (st : t) : t * SpawnStatus :=
  let sessionId := generateSessionId (AgentConfig.id (agent st)) (now e)
                     (random36 e) in
  let cfg := claudeConfig st in
  let st1 := logger info (js "Spawning Claude Code session") st in
  let args := buildCommandArgs st options in
  let binaryPath :=
    if truthy_str (ClaudeCodeConfig.binaryPath cfg)
    then default [] (ClaudeCodeConfig.binaryPath cfg)
    else js "/opt/homebrew/bin/claude" in
  let workspace := AgentConfig.workspace (agent st) in
  let workdir :=
    if truthy_bool (ClaudeCodeSpawnOptions.continue options)
    then (if truthy_str (ClaudeCodeConfig.workdir cfg)
          then default [] (ClaudeCodeConfig.workdir cfg) else workspace)
    else workspace in
  let env0 : gmap jstring jstring :=
    default ∅ (ClaudeCodeConfig.env cfg) ∪ process_env e in
  let env1 :=
    if truthy_bool (ClaudeCodeConfig.agentTeams cfg)
       || truthy_bool (ClaudeCodeSpawnOptions.enableTeams options)
    then <[js "CLAUDE_CODE_EXPERIMENTAL_AGENT_TEAMS" := js "1"]> env0
    else env0 in
  match pty_pid e with
  | Throw err => (st1, spawn_rejected err)
  | Ok pid =>
      let r := next_ref st1 in
      let session :=
        {| ClaudeCodeSession.sessionId := sessionId;
           ClaudeCodeSession.agentId := AgentConfig.id (agent st);
           ClaudeCodeSession.pid := pid;
           ClaudeCodeSession.workdir := workdir;
           ClaudeCodeSession.task := ClaudeCodeSpawnOptions.task options;
           ClaudeCodeSession.startedAt := now e;
           ClaudeCodeSession.state := starting;
           ClaudeCodeSession.lastActivity := now e;
           ClaudeCodeSession.error := None;
           ClaudeCodeSession.outputBuffer := [] |} in
      let st2 :=
        allocate {| file := binaryPath; args := args; cwd := workdir;
                    env := env1 |} session st1 in
      let st3 :=
        set_activeSessions (<[sessionId := r]> (activeSessions st2)) st2 in
      if negb (truthy_str (ClaudeCodeSpawnOptions.resumeSessionId options))
         && negb (truthy_bool (ClaudeCodeSpawnOptions.continue options))
      then
        (set_sleepers
           (sleepers st3 ++
            [spawn_settle (now e + 1000) sessionId
               (ClaudeCodeSpawnOptions.task options) pid r]) st3,
         spawn_sleeping)
      else
        (emit (started_event sessionId pid) st3, spawn_resolved r)
  end.

(** [spawn] after its [await this.sleep(1000)]. *)
Definition spawn_resume (sessionId task : jstring) (pid : Z) (r : ref)
    (st : t) : t * SpawnStatus :=
  match sendTask sessionId task st with
  | Throw err => (st, spawn_rejected err)
  | Ok st1 => (emit (started_event sessionId pid) st1, spawn_resolved r)
  end.

Definition write (sessionId input : jstring) (now : Z) (st : t)
  : Outcome t :=
  match activeSessions st !! sessionId with
  | None => Throw (not_found sessionId)
  | Some r =>
      let st1 := logger debug (js "Writing to session") st in
      let st2 := pty_do r (pty_write input) st1 in
      Ok (update_session r (ClaudeCodeSession.set_lastActivity now) st2)
  end.

(** The end of [stop], common to both branches. *)
Definition stop_finish (sessionId : jstring) (r : ref) (st : t) : t :=
  let st1 := update_session r (ClaudeCodeSession.set_state stopped) st in
  let st2 := set_activeSessions (delete sessionId (activeSessions st1)) st1 in
  emit (stopped_event sessionId None) st2.

(** [stop], up to its return or its [await this.sleep(3000)]. *)
Definition stop (sessionId : jstring) (force : bool) (now : Z) (st : t)
  : t :=
  match activeSessions st !! sessionId with
  | None => logger warn (js "Attempted to stop non-existent session") st
  | Some r =>
      let st1 := logger info (js "Stopping Claude Code session") st in
      if force then
        stop_finish sessionId r (pty_do r (pty_kill (js "SIGKILL")) st1)
      else
        let st2 := pty_do r (pty_write [3]) st1 in
        set_sleepers (sleepers st2 ++ [stop_grace (now + 3000) sessionId r])
          st2
  end.

(** [stop] after the grace window. *)
Definition stop_resume (sessionId : jstring) (r : ref) (st : t) : t :=
  let st1 :=
    match activeSessions st !! sessionId with
    | Some _ => pty_do r (pty_kill (js "SIGTERM")) st
    | None => st
    end in
  stop_finish sessionId r st1.

Definition getSession (sessionId : jstring) (st : t)
  : option ClaudeCodeSession.t :=
  r ← activeSessions st !! sessionId; sessions st !! r.

(** *** Executions *)

Definition wake_time (s : Sleeper) : Z :=
  match s with
  | spawn_settle w _ _ _ _ => w
  | stop_grace w _ _ => w
  end.

(** The timer of the [i]-th suspended call fires. *)
Definition wake (i : nat) (now : Z) (st : t) : t :=
  match sleepers st !! i with
  | None => st
  | Some s =>
      if decide (wake_time s ≤ now)%Z then
        let st1 := set_sleepers (delete i (sleepers st)) st in
        match s with
        | spawn_settle _ sid task pid r =>
            fst (spawn_resume sid task pid r st1)
        | stop_grace _ sid r => stop_resume sid r st1
        end
      else st
  end.

(** One thing that can happen to a spawner: a call of the host or a
    callback of the platform. *)
Inductive Action :=
| call_spawn (e : SpawnEnv) (options : ClaudeCodeSpawnOptions.t)
| call_write (sessionId input : jstring) (now : Z)
| call_stop (sessionId : jstring) (force : bool) (now : Z)
| timer_fires (i : nat) (now : Z)
| pty_data (r : ref) (data : jstring) (now : Z)
| pty_exit (r : ref) (exitCode : Z).

Definition step (st : t) (a : Action) : t :=
  match a with
  | call_spawn e options => fst (spawn e options st)
  | call_write sid input now =>
      match write sid input now st with
      | Ok st' => st'
      | Throw _ => st
      end
  | call_stop sid force now => stop sid force now st
  | timer_fires i now => wake i now st
  | pty_data r data now => onData r data now st
  | pty_exit r code => onExit r code st
  end.

Definition run (st : t) (actions : list Action) : t :=
  foldl step st actions.

End ClaudeCodeProcessSpawner.

(* ===================================================================== *)
(** ** ClaudeCodeCommunicator *)
(* ===================================================================== *)

Module ClaudeCodeCommunicator.

(** A call of [resolve] or of [reject] on a promise. *)
Inductive Settlement :=
| resolve (o : ParsedOutput)
| reject (e : JsError).

(** The functions stored in [outputHandlers]: the arrow function that
    the [k]-th call of [waitForCompletion] creates (it captures the
    session id, its timer and its promise), or a function of the host,
    of which only the calls are recorded. *)
Inductive Handler :=
| wait_handler (k : nat) (sessionId : jstring)
| host_handler (h : nat).

(** A pending [setTimeout] of [waitForCompletion]. *)
Record Timer := { deadline : Z; timer_session : jstring }.

(** Events the communicator emits.  (Node's [emit('error', ...)] throws
    when no listener is registered for it; the model records the
    emission, and the spawner of this repository never emits [error] or
    [completed].) *)
Inductive Emitted :=
| parsed_output (sessionId : jstring) (output : ParsedOutput)
| error_emitted (sessionId : jstring) (error : jstring)
| completed_emitted (sessionId : jstring).

Section WithParser.

Context {P : Type} `{OutputParser P}.

(** The timers and the promises are indexed by the number [k] of the
    call of [waitForCompletion] that created them; [promises] keeps,
    for each promise, the calls of [resolve] and [reject] it
    received, oldest first (the first one settles it). *)
Record t := {
  parser : P;
  outputHandlers : gmap jstring Handler;
  timers : gmap nat Timer;
  promises : gmap nat (list Settlement);
  next_waiter : nat;
  clock : Z;
  emitted : list Emitted;
  host_calls : list (nat * ParsedOutput);
}.

(** The constructor; [clock] is the time of the event loop in
    milliseconds, counted from the construction. *)
Definition new (outputParser : P) : t :=
  {| parser := outputParser; outputHandlers := ∅; timers := ∅;
     promises := ∅; next_waiter := 0%nat; clock := 0; emitted := [];
     host_calls := [] |}.

Definition set_parser (p : P) (c : t) : t :=
  {| parser := p; outputHandlers := outputHandlers c;
     timers := timers c; promises := promises c;
     next_waiter := next_waiter c; clock := clock c;
     emitted := emitted c; host_calls := host_calls c |}.

Definition set_outputHandlers (m : gmap jstring Handler) (c : t) : t :=
  {| parser := parser c; outputHandlers := m;
     timers := timers c; promises := promises c;
     next_waiter := next_waiter c; clock := clock c;
     emitted := emitted c; host_calls := host_calls c |}.

Definition set_timers (m : gmap nat Timer) (c : t) : t :=
  {| parser := parser c; outputHandlers := outputHandlers c;
     timers := m; promises := promises c;
     next_waiter := next_waiter c; clock := clock c;
     emitted := emitted c; host_calls := host_calls c |}.

Definition set_clock (now : Z) (c : t) : t :=
  {| parser := parser c; outputHandlers := outputHandlers c;
     timers := timers c; promises := promises c;
     next_waiter := next_waiter c; clock := now;
     emitted := emitted c; host_calls := host_calls c |}.

Definition emit (ev : Emitted) (c : t) : t :=
  {| parser := parser c; outputHandlers := outputHandlers c;
     timers := timers c; promises := promises c;
     next_waiter := next_waiter c; clock := clock c;
     emitted := emitted c ++ [ev]; host_calls := host_calls c |}.

Definition record_host_call (h : nat) (o : ParsedOutput) (c : t) : t :=
  {| parser := parser c; outputHandlers := outputHandlers c;
     timers := timers c; promises := promises c;
     next_waiter := next_waiter c; clock := clock c;
     emitted := emitted c; host_calls := host_calls c ++ [(h, o)] |}.

(** [resolve(...)] or [reject(...)] of the promise [k]. *)
Definition settle (k : nat) (s : Settlement) (c : t) : t :=
  {| parser := parser c; outputHandlers := outputHandlers c;
     timers := timers c; promises := alter (λ l, l ++ [s]) k (promises c);
     next_waiter := next_waiter c; clock := clock c;
     emitted := emitted c; host_calls := host_calls c |}.

(** The calls of [resolve] and [reject] the promise [k] received. *)
Definition settlements (c : t) (k : nat) : list Settlement :=
  default [] (promises c !! k).

(** [onOutput], [offOutput], [cleanup] *)
Definition onOutput (sessionId : jstring) (handler : Handler) (c : t)
  : t :=
  set_outputHandlers (<[sessionId := handler]> (outputHandlers c)) c.

Definition offOutput (sessionId : jstring) (c : t) : t :=
  set_outputHandlers (delete sessionId (outputHandlers c)) c.

Definition cleanup (c : t) : t := set_outputHandlers ∅ c.

Definition clearTimeout (k : nat) (c : t) : t :=
  set_timers (delete k (timers c)) c.

(** The delay [setTimeout] applies: Node.js replaces a delay below 1
    or above 2^31-1 by 1. *)
Definition setTimeout_delay (ms : Z) : Z :=
  if decide (1 ≤ ms ≤ 2147483647)%Z then ms else 1%Z.

Definition timeout_error (sessionId : jstring) : JsError :=
  MkError (JStr (js "Timeout waiting for completion: " ++ sessionId)).

(** [waitForCompletion]: returns the number of the promise. *)
Definition waitForCompletion (sessionId : jstring) (timeoutMs : option Z)
    (c : t) : t * nat :=
  let k := next_waiter c in
  let ms := default 300000%Z timeoutMs in
  let c1 :=
    {| parser := parser c; outputHandlers := outputHandlers c;
       timers := <[k := {| deadline := clock c + setTimeout_delay ms;
                           timer_session := sessionId |}]> (timers c);
       promises := <[k := []]> (promises c);
       next_waiter := S k; clock := clock c;
       emitted := emitted c; host_calls := host_calls c |} in
  (onOutput sessionId (wait_handler k sessionId) c1, k).

(** The callback given to [setTimeout]. *)
Definition on_timeout (k : nat) (sessionId : jstring) (c : t) : t :=
  settle k (reject (timeout_error sessionId)) (offOutput sessionId c).

(** The condition under which the handler of [waitForCompletion]
    acts on an output. *)
Definition terminal (o : ParsedOutput) : bool :=
  truthy_bool (isComplete o) || bool_decide (type o = Error).

(** A call [handler(output)]. *)
Definition call_handler (handler : Handler) (o : ParsedOutput) (c : t)
  : t :=
  match handler with
  | host_handler h => record_host_call h o c
  | wait_handler k sessionId =>
      if terminal o then
        let c1 := offOutput sessionId (clearTimeout k c) in
        if bool_decide (type o = Error)
        then settle k
               (reject (MkError (or_else (error o)
                                   (JStr (js "Task failed"))))) c1
        else settle k (resolve o) c1
      else c
  end.

(** The listeners of [setupSpawnerHandlers]. *)
Definition on_spawner_event (ev : ClaudeCodeEvent) (c : t) : t :=
  match ev with
  | output_event sessionId data =>
      let '(p, parsed) := parse (parser c) data in
      let c1 := emit (parsed_output sessionId parsed) (set_parser p c) in
      match outputHandlers c1 !! sessionId with
      | Some handler => call_handler handler parsed c1
      | None => c1
      end
  | error_event sessionId err => emit (error_emitted sessionId err) c
  | completed_event sessionId _ =>
      offOutput sessionId (emit (completed_emitted sessionId) c)
  | _ => c
  end.

(** *** Time *)

(** The timers [0 .. n-1] that are due fire, in the order of their
    creation. *)
Fixpoint fire_due (n : nat) (c : t) : t :=
  match n with
  | O => c
  | S k =>
      let c1 := fire_due k c in
      match timers c1 !! k with
      | Some tm =>
          if decide (deadline tm ≤ clock c1)%Z
          then on_timeout k (timer_session tm) (clearTimeout k c1)
          else c1
      | None => c1
      end
  end.

(** One millisecond passes. *)
Definition tick (c : t) : t :=
  fire_due (next_waiter c) (set_clock (clock c + 1) c).

(** *** Executions *)

Inductive Action :=
| call_onOutput (sessionId : jstring) (h : nat)
| call_offOutput (sessionId : jstring)
| call_waitForCompletion (sessionId : jstring) (timeoutMs : option Z)
| call_cleanup
| spawner_emits (ev : ClaudeCodeEvent)
| millisecond.

Definition step (c : t) (a : Action) : t :=
  match a with
  | call_onOutput sessionId h => onOutput sessionId (host_handler h) c
  | call_offOutput sessionId => offOutput sessionId c
  | call_waitForCompletion sessionId ms =>
      fst (waitForCompletion sessionId ms c)
  | call_cleanup => cleanup c
  | spawner_emits ev => on_spawner_event ev c
  | millisecond => tick c
  end.

Definition run (c : t) (actions : list Action) : t :=
  foldl step c actions.

End WithParser.

Arguments t P : clear implicits.

End ClaudeCodeCommunicator.

(* ===================================================================== *)
(** ** ClaudeCodeRuntime *)
(* ===================================================================== *)

Module ClaudeCodeRuntime.

Record t := {
  agent : AgentConfig.t;
  spawner : ClaudeCodeProcessSpawner.t;
  communicator : ClaudeCodeCommunicator.t DefaultOutputParser.t;
  isInitialized : bool;
  logs : list (LogLevel * jstring);
}.

Definition missing_id : JsError :=
  MkError (JStr (js "Agent configuration missing required field: id")).

Definition missing_workspace : JsError :=
  MkError
    (JStr (js "Agent configuration missing required field: workspace")).

Definition invalid_runtime (r : option RuntimeType) : JsError :=
  MkError (JStr (js "Invalid runtime type: " ++ RuntimeType_str r
                   ++ js ". Expected 'claudeCode'.")).

(** [validateAgentConfig]: the log entries it adds, unless it throws. *)
Definition validateAgentConfig (agent : AgentConfig.t)
  : Outcome (list (LogLevel * jstring)) :=
  match AgentConfig.id agent with
  | [] => Throw missing_id
  | _ :: _ =>
      match AgentConfig.workspace agent with
      | [] => Throw missing_workspace
      | _ :: _ =>
          match AgentConfig.runtime agent with
          | Some claudeCode_runtime =>
              Ok [(debug, js "Agent configuration validated")]
          | r => Throw (invalid_runtime r)
          end
      end
  end.

(** [new ClaudeCodeRuntime({agent})] *)
Definition new (agent : AgentConfig.t) : Outcome t :=
  match validateAgentConfig agent with
  | Throw e => Throw e
  | Ok logs0 =>
      Ok {| agent := agent;
            spawner := ClaudeCodeProcessSpawner.new agent;
            communicator :=
              ClaudeCodeCommunicator.new DefaultOutputParser.new;
            isInitialized := true;
            logs := logs0 ++ [(info, js "Claude Code Runtime initialized")]
         |}
  end.

Definition not_initialized : JsError :=
  MkError (JStr (js "Claude Code Runtime is not initialized")).

Definition ensureInitialized (rt : t) : Outcome unit :=
  if isInitialized rt then Ok () else Throw not_initialized.

End ClaudeCodeRuntime.

(* ===================================================================== *)
(** ** ClaudeCodeProcessSpawner: restart and cleanup *)
(* ===================================================================== *)

Module SpawnerLifecycle.

(** [restart], up to its [await this.stop(sessionId, true)]: the check
    of the registry, the task read from the session object and the
    forced [stop], which does not sleep.  It returns the task for the
    second part.  (A registry entry always has its session object; the
    model throws when it has none.) *)
Definition restart (sessionId : jstring) (now : Z)
    (st : ClaudeCodeProcessSpawner.t)
  : Outcome (ClaudeCodeProcessSpawner.t * jstring) :=
  match ClaudeCodeProcessSpawner.getSession sessionId st with
  | None => Throw (ClaudeCodeProcessSpawner.not_found sessionId)
  | Some session =>
      let st1 :=
        ClaudeCodeProcessSpawner.logger info
          (js "Restarting Claude Code session") st in
      Ok (ClaudeCodeProcessSpawner.stop sessionId true now st1,
          ClaudeCodeSession.task session)
  end.

(** The options [{task, continue: false}]. *)
Definition restart_options (task : jstring) : ClaudeCodeSpawnOptions.t :=
  {| ClaudeCodeSpawnOptions.task := task;
     ClaudeCodeSpawnOptions.resumeSessionId := None;
     ClaudeCodeSpawnOptions.continue := Some false;
     ClaudeCodeSpawnOptions.permissionMode := None;
     ClaudeCodeSpawnOptions.model := None;
     ClaudeCodeSpawnOptions.enableTeams := None;
     ClaudeCodeSpawnOptions.teammates := None;
     ClaudeCodeSpawnOptions.outputFormat := None |}.

(** [restart] after the [await]: the call of [spawn]. *)
Definition restart_resume (task : jstring)
    (e : ClaudeCodeProcessSpawner.SpawnEnv) (st : ClaudeCodeProcessSpawner.t)
  : ClaudeCodeProcessSpawner.t * ClaudeCodeProcessSpawner.SpawnStatus :=
  ClaudeCodeProcessSpawner.spawn e (restart_options task) st.

(** Both parts, when nothing runs between them.  (Only continuations
    of promises can: the forced [stop] has returned a settled promise,
    so no timer and no callback of the platform comes in between.) *)
Definition restart_awaited (sessionId : jstring)
    (e : ClaudeCodeProcessSpawner.SpawnEnv) (st : ClaudeCodeProcessSpawner.t)
  : ClaudeCodeProcessSpawner.t * ClaudeCodeProcessSpawner.SpawnStatus :=
  match restart sessionId (ClaudeCodeProcessSpawner.now e) st with
  | Throw err => (st, ClaudeCodeProcessSpawner.spawn_rejected err)
  | Ok (st1, task) => restart_resume task e st1
  end.

(** [keys] is [Array.from(this.activeSessions.keys())]: every
    registered id once. *)
Definition enumerates (keys : list jstring)
    (st : ClaudeCodeProcessSpawner.t) : Prop :=
  NoDup keys
  ∧ ∀ sessionId,
      sessionId ∈ keys
      ↔ is_Some (ClaudeCodeProcessSpawner.activeSessions st !! sessionId).

(** [cleanup]: a forced [stop] for each key, in the order of the keys;
    none of them sleeps, so all of them have run when [map] returns. *)
Definition cleanup (keys : list jstring) (now : Z)
    (st : ClaudeCodeProcessSpawner.t) : ClaudeCodeProcessSpawner.t :=
  foldl (λ st' sessionId, ClaudeCodeProcessSpawner.stop sessionId true now st')
    (ClaudeCodeProcessSpawner.logger info
       (js "Cleaning up all Claude Code sessions") st)
    keys.

(** [getAllSessions]: the session objects of the keys. *)
Definition getAllSessions (keys : list jstring)
    (st : ClaudeCodeProcessSpawner.t) : list ClaudeCodeSession.t :=
  omap (λ sessionId, ClaudeCodeProcessSpawner.getSession sessionId st) keys.

End SpawnerLifecycle.

(* ===================================================================== *)
(** ** ClaudeCodeCommunicator: messages to the process *)
(* ===================================================================== *)

Module CommunicatorOutbound.

(** [formatMessage] *)
Definition formatMessage (message : jstring) : jstring :=
  if endsWith message [10] then message else message ++ [10].

(** The four methods that write to the process act on the spawner
    only, by one call of its [write] (their own calls of the logger are
    not recorded); an exception of [write] rejects the promise they
    return. *)
Definition sendMessage (sessionId message : jstring) (now : Z)
    (sp : ClaudeCodeProcessSpawner.t) : Outcome ClaudeCodeProcessSpawner.t :=
  ClaudeCodeProcessSpawner.write sessionId (formatMessage message) now sp.

(** [args ? `${command} ${args}` : command] *)
Definition fullCommand (command : jstring) (args : option jstring)
  : jstring :=
  match args with
  | Some (c :: a) => command ++ js " " ++ c :: a
  | _ => command
  end.

Definition sendCommand (sessionId command : jstring) (args : option jstring)
    (now : Z) (sp : ClaudeCodeProcessSpawner.t)
  : Outcome ClaudeCodeProcessSpawner.t :=
  ClaudeCodeProcessSpawner.write sessionId (fullCommand command args ++ [10])
    now sp.

Definition respondToPrompt (sessionId response : jstring) (now : Z)
    (sp : ClaudeCodeProcessSpawner.t) : Outcome ClaudeCodeProcessSpawner.t :=
  ClaudeCodeProcessSpawner.write sessionId (response ++ [10]) now sp.

Definition interrupt (sessionId : jstring) (now : Z)
    (sp : ClaudeCodeProcessSpawner.t) : Outcome ClaudeCodeProcessSpawner.t :=
  ClaudeCodeProcessSpawner.write sessionId [3] now sp.

End CommunicatorOutbound.

(* ===================================================================== *)
(** ** ClaudeCodeRuntime: the methods *)
(* ===================================================================== *)

(** The methods act on the spawner and on the communicator of the
    runtime.  Their calls of the logger are not recorded: the logger
    only observes.  A method that goes on after an [await] is given in
    two parts, as [spawn] and [stop] are. *)

Module RuntimeMethods.

(** The events the spawner emitted during one of its operations. *)
Definition new_events (old new : ClaudeCodeProcessSpawner.t)
  : list ClaudeCodeEvent :=
  drop (length (ClaudeCodeProcessSpawner.emitted old))
    (ClaudeCodeProcessSpawner.emitted new).

(** The runtime after an operation of its spawner: the listeners of
    the communicator receive the events the operation emitted.  (They
    do not act on the spawner, so it makes no difference that they run
    after the operation instead of inside it.  The listeners of the
    runtime pass the events on to the host.) *)
Definition after_spawner (sp' : ClaudeCodeProcessSpawner.t)
    (rt : ClaudeCodeRuntime.t) : ClaudeCodeRuntime.t :=
  {| ClaudeCodeRuntime.agent := ClaudeCodeRuntime.agent rt;
     ClaudeCodeRuntime.spawner := sp';
     ClaudeCodeRuntime.communicator :=
       foldl (λ c ev, ClaudeCodeCommunicator.on_spawner_event ev c)
         (ClaudeCodeRuntime.communicator rt)
         (new_events (ClaudeCodeRuntime.spawner rt) sp');
     ClaudeCodeRuntime.isInitialized := ClaudeCodeRuntime.isInitialized rt;
     ClaudeCodeRuntime.logs := ClaudeCodeRuntime.logs rt |}.

Definition set_communicator
    (c : ClaudeCodeCommunicator.t DefaultOutputParser.t)
    (rt : ClaudeCodeRuntime.t) : ClaudeCodeRuntime.t :=
  {| ClaudeCodeRuntime.agent := ClaudeCodeRuntime.agent rt;
     ClaudeCodeRuntime.spawner := ClaudeCodeRuntime.spawner rt;
     ClaudeCodeRuntime.communicator := c;
     ClaudeCodeRuntime.isInitialized := ClaudeCodeRuntime.isInitialized rt;
     ClaudeCodeRuntime.logs := ClaudeCodeRuntime.logs rt |}.

Definition set_isInitialized (b : bool) (rt : ClaudeCodeRuntime.t)
  : ClaudeCodeRuntime.t :=
  {| ClaudeCodeRuntime.agent := ClaudeCodeRuntime.agent rt;
     ClaudeCodeRuntime.spawner := ClaudeCodeRuntime.spawner rt;
     ClaudeCodeRuntime.communicator := ClaudeCodeRuntime.communicator rt;
     ClaudeCodeRuntime.isInitialized := b;
     ClaudeCodeRuntime.logs := ClaudeCodeRuntime.logs rt |}.

(** [startSession]: the promise of [spawn], or the rejection of
    [ensureInitialized]. *)
Definition startSession (e : ClaudeCodeProcessSpawner.SpawnEnv)
    (options : ClaudeCodeSpawnOptions.t) (rt : ClaudeCodeRuntime.t)
  : ClaudeCodeRuntime.t * ClaudeCodeProcessSpawner.SpawnStatus :=
  match ClaudeCodeRuntime.ensureInitialized rt with
  | Throw err => (rt, ClaudeCodeProcessSpawner.spawn_rejected err)
  | Ok _ =>
      let '(sp', status) :=
        ClaudeCodeProcessSpawner.spawn e options
          (ClaudeCodeRuntime.spawner rt) in
      (after_spawner sp' rt, status)
  end.

(** [task || 'Continue'] *)
Definition task_or_Continue (task : option jstring) : jstring :=
  match task with
  | Some (c :: t) => c :: t
  | _ => js "Continue"
  end.

(** The options [{task, resumeSessionId}] and [{task, continue: true}]. *)
Definition resume_options (sessionId : jstring) (task : option jstring)
  : ClaudeCodeSpawnOptions.t :=
  {| ClaudeCodeSpawnOptions.task := task_or_Continue task;
     ClaudeCodeSpawnOptions.resumeSessionId := Some sessionId;
     ClaudeCodeSpawnOptions.continue := None;
     ClaudeCodeSpawnOptions.permissionMode := None;
     ClaudeCodeSpawnOptions.model := None;
     ClaudeCodeSpawnOptions.enableTeams := None;
     ClaudeCodeSpawnOptions.teammates := None;
     ClaudeCodeSpawnOptions.outputFormat := None |}.

Definition continue_last_options (task : option jstring)
  : ClaudeCodeSpawnOptions.t :=
  {| ClaudeCodeSpawnOptions.task := task_or_Continue task;
     ClaudeCodeSpawnOptions.resumeSessionId := None;
     ClaudeCodeSpawnOptions.continue := Some true;
     ClaudeCodeSpawnOptions.permissionMode := None;
     ClaudeCodeSpawnOptions.model := None;
     ClaudeCodeSpawnOptions.enableTeams := None;
     ClaudeCodeSpawnOptions.teammates := None;
     ClaudeCodeSpawnOptions.outputFormat := None |}.

Definition resumeSession (sessionId : jstring) (task : option jstring)
    (e : ClaudeCodeProcessSpawner.SpawnEnv) (rt : ClaudeCodeRuntime.t)
  : ClaudeCodeRuntime.t * ClaudeCodeProcessSpawner.SpawnStatus :=
  match ClaudeCodeRuntime.ensureInitialized rt with
  | Throw err => (rt, ClaudeCodeProcessSpawner.spawn_rejected err)
  | Ok _ => startSession e (resume_options sessionId task) rt
  end.

Definition continueLastSession (task : option jstring)
    (e : ClaudeCodeProcessSpawner.SpawnEnv) (rt : ClaudeCodeRuntime.t)
  : ClaudeCodeRuntime.t * ClaudeCodeProcessSpawner.SpawnStatus :=
  match ClaudeCodeRuntime.ensureInitialized rt with
  | Throw err => (rt, ClaudeCodeProcessSpawner.spawn_rejected err)
  | Ok _ => startSession e (continue_last_options task) rt
  end.

(** [restartSession], up to the [await] inside the spawner's
    [restart], and after it. *)
Definition restartSession (sessionId : jstring) (now : Z)
    (rt : ClaudeCodeRuntime.t) : Outcome (ClaudeCodeRuntime.t * jstring) :=
  match ClaudeCodeRuntime.ensureInitialized rt with
  | Throw err => Throw err
  | Ok _ =>
      match SpawnerLifecycle.restart sessionId now
              (ClaudeCodeRuntime.spawner rt) with
      | Throw err => Throw err
      | Ok (sp', task) => Ok (after_spawner sp' rt, task)
      end
  end.

Definition restartSession_resume (task : jstring)
    (e : ClaudeCodeProcessSpawner.SpawnEnv) (rt : ClaudeCodeRuntime.t)
  : ClaudeCodeRuntime.t * ClaudeCodeProcessSpawner.SpawnStatus :=
  let '(sp', status) :=
    SpawnerLifecycle.restart_resume task e (ClaudeCodeRuntime.spawner rt) in
  (after_spawner sp' rt, status).

(** [stopSession], up to its [await this.spawner.stop(...)]. *)
Definition stopSession (sessionId : jstring) (force : bool) (now : Z)
    (rt : ClaudeCodeRuntime.t) : Outcome ClaudeCodeRuntime.t :=
  match ClaudeCodeRuntime.ensureInitialized rt with
  | Throw err => Throw err
  | Ok _ =>
      Ok (after_spawner
            (ClaudeCodeProcessSpawner.stop sessionId force now
               (ClaudeCodeRuntime.spawner rt)) rt)
  end.

(** [stopSession] after the [await], that is, once [stop] has
    returned: [this.communicator.offOutput(sessionId)]. *)
Definition stopSession_resume (sessionId : jstring)
    (rt : ClaudeCodeRuntime.t) : ClaudeCodeRuntime.t :=
  set_communicator
    (ClaudeCodeCommunicator.offOutput sessionId
       (ClaudeCodeRuntime.communicator rt)) rt.

(** The methods that pass a text to the communicator. *)
Definition with_write
    (w : ClaudeCodeProcessSpawner.t → Outcome ClaudeCodeProcessSpawner.t)
    (rt : ClaudeCodeRuntime.t) : Outcome ClaudeCodeRuntime.t :=
  match ClaudeCodeRuntime.ensureInitialized rt with
  | Throw err => Throw err
  | Ok _ =>
      match w (ClaudeCodeRuntime.spawner rt) with
      | Throw err => Throw err
      | Ok sp' => Ok (after_spawner sp' rt)
      end
  end.

Definition sendMessage (sessionId message : jstring) (now : Z)
    (rt : ClaudeCodeRuntime.t) : Outcome ClaudeCodeRuntime.t :=
  with_write (CommunicatorOutbound.sendMessage sessionId message now) rt.

Definition sendCommand (sessionId command : jstring) (args : option jstring)
    (now : Z) (rt : ClaudeCodeRuntime.t) : Outcome ClaudeCodeRuntime.t :=
  with_write (CommunicatorOutbound.sendCommand sessionId command args now) rt.

Definition interruptSession (sessionId : jstring) (now : Z)
    (rt : ClaudeCodeRuntime.t) : Outcome ClaudeCodeRuntime.t :=
  with_write (CommunicatorOutbound.interrupt sessionId now) rt.

(** [waitForCompletion]: the number of the promise. *)
Definition waitForCompletion (sessionId : jstring) (timeoutMs : option Z)
    (rt : ClaudeCodeRuntime.t) : Outcome (ClaudeCodeRuntime.t * nat) :=
  match ClaudeCodeRuntime.ensureInitialized rt with
  | Throw err => Throw err
  | Ok _ =>
      let '(c, k) :=
        ClaudeCodeCommunicator.waitForCompletion sessionId timeoutMs
          (ClaudeCodeRuntime.communicator rt) in
      Ok (set_communicator c rt, k)
  end.

Definition getSession (sessionId : jstring) (rt : ClaudeCodeRuntime.t)
  : Outcome (option ClaudeCodeSession.t) :=
  match ClaudeCodeRuntime.ensureInitialized rt with
  | Throw err => Throw err
  | Ok _ =>
      Ok (ClaudeCodeProcessSpawner.getSession sessionId
            (ClaudeCodeRuntime.spawner rt))
  end.

Definition getAllSessions (keys : list jstring) (rt : ClaudeCodeRuntime.t)
  : Outcome (list ClaudeCodeSession.t) :=
  match ClaudeCodeRuntime.ensureInitialized rt with
  | Throw err => Throw err
  | Ok _ =>
      Ok (SpawnerLifecycle.getAllSessions keys (ClaudeCodeRuntime.spawner rt))
  end.

(** [shutdown], up to its [await this.spawner.cleanup()]; [keys] are
    the keys of the registry, as for [cleanup].  It does not call
    [ensureInitialized]. *)
Definition shutdown (keys : list jstring) (now : Z)
    (rt : ClaudeCodeRuntime.t) : ClaudeCodeRuntime.t :=
  after_spawner
    (SpawnerLifecycle.cleanup keys now (ClaudeCodeRuntime.spawner rt)) rt.

(** [shutdown] after the [await]; nothing of it throws. *)
Definition shutdown_resume (rt : ClaudeCodeRuntime.t) : ClaudeCodeRuntime.t :=
  set_isInitialized false
    (set_communicator
       (ClaudeCodeCommunicator.cleanup (ClaudeCodeRuntime.communicator rt))
       rt).

(** The callbacks of the platform: a timer of the spawner, the output
    and the exit of a process, and the passing of a millisecond for the
    timers of the communicator. *)
Definition wake (i : nat) (now : Z) (rt : ClaudeCodeRuntime.t)
  : ClaudeCodeRuntime.t :=
  after_spawner
    (ClaudeCodeProcessSpawner.wake i now (ClaudeCodeRuntime.spawner rt)) rt.

Definition pty_data (r : nat) (data : jstring) (now : Z)
    (rt : ClaudeCodeRuntime.t) : ClaudeCodeRuntime.t :=
  after_spawner
    (ClaudeCodeProcessSpawner.onData r data now (ClaudeCodeRuntime.spawner rt))
    rt.

Definition pty_exit (r : nat) (exitCode : Z) (rt : ClaudeCodeRuntime.t)
  : ClaudeCodeRuntime.t :=
  after_spawner
    (ClaudeCodeProcessSpawner.onExit r exitCode (ClaudeCodeRuntime.spawner rt))
    rt.

Definition millisecond (rt : ClaudeCodeRuntime.t) : ClaudeCodeRuntime.t :=
  set_communicator
    (ClaudeCodeCommunicator.tick (ClaudeCodeRuntime.communicator rt)) rt.

(** *** Executions *)

(** One thing that can happen to a runtime: a call of the host, the
    second part of a call, or a callback of the platform.  The second
    parts are actions of their own, so that an execution may put
    anything between a call and its continuation.  In an execution of
    the program the keys of [call_shutdown] are those of the registry
    and the task of [restartSession_resumes] is the one its first part
    returned; what holds for all lists of actions holds for these. *)
Inductive Action :=
| call_startSession (e : ClaudeCodeProcessSpawner.SpawnEnv)
    (options : ClaudeCodeSpawnOptions.t)
| call_resumeSession (sessionId : jstring) (task : option jstring)
    (e : ClaudeCodeProcessSpawner.SpawnEnv)
| call_continueLastSession (task : option jstring)
    (e : ClaudeCodeProcessSpawner.SpawnEnv)
| call_restartSession (sessionId : jstring) (now : Z)
| restartSession_resumes (task : jstring)
    (e : ClaudeCodeProcessSpawner.SpawnEnv)
| call_stopSession (sessionId : jstring) (force : bool) (now : Z)
| stopSession_resumes (sessionId : jstring)
| call_sendMessage (sessionId message : jstring) (now : Z)
| call_sendCommand (sessionId command : jstring) (args : option jstring)
    (now : Z)
| call_interruptSession (sessionId : jstring) (now : Z)
| call_waitForCompletion (sessionId : jstring) (timeoutMs : option Z)
| call_shutdown (keys : list jstring) (now : Z)
| shutdown_resumes
| spawner_timer_fires (i : nat) (now : Z)
| pty_emits (r : nat) (data : jstring) (now : Z)
| pty_exits (r : nat) (exitCode : Z)
| one_millisecond.

(** The state after a call that may throw: unchanged when it throws. *)
Definition state_after {A} (get : A → ClaudeCodeRuntime.t)
    (rt : ClaudeCodeRuntime.t) (o : Outcome A) : ClaudeCodeRuntime.t :=
  match o with
  | Ok a => get a
  | Throw _ => rt
  end.

Definition step (rt : ClaudeCodeRuntime.t) (a : Action)
  : ClaudeCodeRuntime.t :=
  match a with
  | call_startSession e options => fst (startSession e options rt)
  | call_resumeSession sid task e => fst (resumeSession sid task e rt)
  | call_continueLastSession task e => fst (continueLastSession task e rt)
  | call_restartSession sid now =>
      state_after fst rt (restartSession sid now rt)
  | restartSession_resumes task e => fst (restartSession_resume task e rt)
  | call_stopSession sid force now =>
      state_after id rt (stopSession sid force now rt)
  | stopSession_resumes sid => stopSession_resume sid rt
  | call_sendMessage sid message now =>
      state_after id rt (sendMessage sid message now rt)
  | call_sendCommand sid command args now =>
      state_after id rt (sendCommand sid command args now rt)
  | call_interruptSession sid now =>
      state_after id rt (interruptSession sid now rt)
  | call_waitForCompletion sid ms =>
      state_after fst rt (waitForCompletion sid ms rt)
  | call_shutdown keys now => shutdown keys now rt
  | shutdown_resumes => shutdown_resume rt
  | spawner_timer_fires i now => wake i now rt
  | pty_emits r data now => pty_data r data now rt
  | pty_exits r code => pty_exit r code rt
  | one_millisecond => millisecond rt
  end.

Definition run (rt : ClaudeCodeRuntime.t) (actions : list Action)
  : ClaudeCodeRuntime.t :=
  foldl step rt actions.

End RuntimeMethods.

(* ===================================================================== *)
(** * Vocabulary of the properties *)
(* ===================================================================== *)

(** The definitions the statements below are written with: the inputs
    of the examples, and the predicates on states and executions. *)

(** The agent configuration of the unit tests. *)
Definition test_agent : AgentConfig.t :=
  {| AgentConfig.id := js "test-agent";
     AgentConfig.name := js "Test Agent";
     AgentConfig.runtime := Some claudeCode_runtime;
     AgentConfig.model := Some (js "anthropic/claude-sonnet-4-5");
     AgentConfig.workspace := js "/tmp/test-workspace";
     AgentConfig.agentDir := js "/tmp/test-agent";
     AgentConfig.claudeCode :=
       Some {| ClaudeCodeConfig.binaryPath :=
                 Some (js "/opt/homebrew/bin/claude");
               ClaudeCodeConfig.permissionMode := Some bypassPermissions;
               ClaudeCodeConfig.sessionPersistence := Some true;
               ClaudeCodeConfig.plugins := None;
               ClaudeCodeConfig.mcpServers := None;
               ClaudeCodeConfig.agentTeams := None;
               ClaudeCodeConfig.model := None;
               ClaudeCodeConfig.workdir := None;
               ClaudeCodeConfig.env := None |};
     AgentConfig.identity := None |}.

(** Spawn options with only a task. *)
Definition task_only (task : jstring) : ClaudeCodeSpawnOptions.t :=
  {| ClaudeCodeSpawnOptions.task := task;
     ClaudeCodeSpawnOptions.resumeSessionId := None;
     ClaudeCodeSpawnOptions.continue := None;
     ClaudeCodeSpawnOptions.permissionMode := None;
     ClaudeCodeSpawnOptions.model := None;
     ClaudeCodeSpawnOptions.enableTeams := None;
     ClaudeCodeSpawnOptions.teammates := None;
     ClaudeCodeSpawnOptions.outputFormat := None |}.

Section Runtime_constructor_vocabulary.
Import ClaudeCodeRuntime.

(** The three errors of [validateAgentConfig]. *)
Definition is_config_error (e : JsError) : Prop :=
  e = missing_id ∨ e = missing_workspace ∨ ∃ r, e = invalid_runtime r.

End Runtime_constructor_vocabulary.

Section Spawner_arguments_vocabulary.
Import ClaudeCodeProcessSpawner.
Import ClaudeCodeSpawnOptions.

(** The permission mode in force: the option, else the configuration,
    else the default. *)
Definition effective_mode (st : ClaudeCodeProcessSpawner.t)
    (o : ClaudeCodeSpawnOptions.t) : ClaudeCodePermissionMode :=
  default (default bypassPermissions
             (ClaudeCodeConfig.permissionMode (claudeConfig st)))
          (permissionMode o).

(** The model in force: the option, else the configuration. *)
Definition effective_model (st : ClaudeCodeProcessSpawner.t)
    (o : ClaudeCodeSpawnOptions.t) : option ClaudeCodeModel :=
  match model o with
  | Some m => Some m
  | None => ClaudeCodeConfig.model (claudeConfig st)
  end.

(** The optional flags. *)
Definition model_flags (m : option ClaudeCodeModel) : list jstring :=
  match m with Some m => [js "--model"; Model_str m] | None => [] end.

Definition format_flags (f : option OutputFormat) : list jstring :=
  match f with
  | Some f => [js "--output-format"; OutputFormat_str f]
  | None => []
  end.

(** What follows the resume or continue flag. *)
Definition common_flags (st : ClaudeCodeProcessSpawner.t)
    (o : ClaudeCodeSpawnOptions.t) : list jstring :=
  [js "--permission-mode"; PermissionMode_str (effective_mode st o)]
    ++ model_flags (effective_model st o)
    ++ format_flags (outputFormat o).

(** Options that name a session to resume and also set the continue
    flag. *)
Definition resume_and_continue : ClaudeCodeSpawnOptions.t :=
  {| task := js "Continue";
     resumeSessionId := Some (js "cc-wolverine-123");
     continue := Some true;
     permissionMode := Some plan;
     model := None;
     enableTeams := None;
     teammates := None;
     outputFormat := Some json_format |}.

(** An agent whose configuration names a model, spawned with options
    that do not. *)
Definition agent_with_model : AgentConfig.t :=
  {| AgentConfig.id := js "wolverine";
     AgentConfig.name := js "Wolverine";
     AgentConfig.runtime := Some claudeCode_runtime;
     AgentConfig.model := None;
     AgentConfig.workspace := js "/tmp/wolverine";
     AgentConfig.agentDir := js "/tmp/wolverine/agent";
     AgentConfig.claudeCode :=
       Some {| ClaudeCodeConfig.binaryPath := None;
               ClaudeCodeConfig.permissionMode := None;
               ClaudeCodeConfig.sessionPersistence := None;
               ClaudeCodeConfig.plugins := None;
               ClaudeCodeConfig.mcpServers := None;
               ClaudeCodeConfig.agentTeams := None;
               ClaudeCodeConfig.model := Some sonnet;
               ClaudeCodeConfig.workdir := None;
               ClaudeCodeConfig.env := None |};
     AgentConfig.identity := None |}.

End Spawner_arguments_vocabulary.

Section Spawner_registry_vocabulary.
Import ClaudeCodeProcessSpawner.
Implicit Types (st : ClaudeCodeProcessSpawner.t).

(** The environment of a spawn at time [t] whose pseudo-terminal gets
    the process id [pid]. *)
Definition spawn_env (t : Z) (rnd : jstring) (pid : Z) : SpawnEnv :=
  {| now := t; random36 := rnd; process_env := ∅; pty_pid := Ok pid |}.

(** Options that continue the last session (no settle delay). *)
Definition continue_options (task : jstring) : ClaudeCodeSpawnOptions.t :=
  {| ClaudeCodeSpawnOptions.task := task;
     ClaudeCodeSpawnOptions.resumeSessionId := None;
     ClaudeCodeSpawnOptions.continue := Some true;
     ClaudeCodeSpawnOptions.permissionMode := None;
     ClaudeCodeSpawnOptions.model := None;
     ClaudeCodeSpawnOptions.enableTeams := None;
     ClaudeCodeSpawnOptions.teammates := None;
     ClaudeCodeSpawnOptions.outputFormat := None |}.

(** A spawner with one session, and the id of that session. *)
Definition one_session : ClaudeCodeProcessSpawner.t :=
  fst (spawn (spawn_env 1700000000000 (js "0.4fzyo82mvyr") 4242)
         (continue_options (js "Continue")) (new test_agent)).

Definition one_session_id : jstring :=
  js "cc-test-agent-1700000000000-4fzyo82mv".

(** Every registry entry refers to a session object of the heap. *)
Definition registry_allocated st : Prop :=
  ∀ sid r, activeSessions st !! sid = Some r → is_Some (sessions st !! r).

End Spawner_registry_vocabulary.

Section Structured_parser_vocabulary.
Import JsonOutputParser.

(** The raw classification of a chunk. *)
Definition raw_output (output : jstring) : ParsedOutput :=
  {| type := Raw; content := JStr output; data := None;
     isComplete := None; error := None |}.

End Structured_parser_vocabulary.

(** A string between double quotes. *)
Definition quoted (s : jstring) : jstring := [34] ++ s ++ [34].

(** The text of a record tagged [error] with the message [boom], and of
    one with the empty message. *)
Definition error_record_text : jstring :=
  js "{" ++ quoted (js "type") ++ js ":" ++ quoted (js "error") ++ js ","
    ++ quoted (js "message") ++ js ":" ++ quoted (js "boom") ++ js "}".

Definition empty_message_record_text : jstring :=
  js "{" ++ quoted (js "type") ++ js ":" ++ quoted (js "error") ++ js ","
    ++ quoted (js "message") ++ js ":" ++ quoted [] ++ js "}".

(** A decoder that knows three inputs, and a printer, for the examples. *)
Definition toy_JSON_parse (s : jstring) : option JsVal :=
  if bool_decide (s = error_record_text)
  then Some (JObj [(js "type", JStr (js "error"));
                   (js "message", JStr (js "boom"))])
  else if bool_decide (s = empty_message_record_text)
  then Some (JObj [(js "type", JStr (js "error"));
                   (js "message", JStr [])])
  else if bool_decide (s = js "null") then Some JNull
  else None.

Definition toy_JSON_stringify (d : JsVal) : jstring := js "...".

Section Heuristic_parser_vocabulary.
Import DefaultOutputParser.

(** The three tests of [parse], on a buffer. *)
Definition completion_marker (b : jstring) : bool :=
  includes b (js "Task completed") || includes b (js "Done").

Definition error_marker (b : jstring) : bool :=
  includes b (js "Error:") || includes b (js "Failed").

Definition prompt_phrasing (b : jstring) : bool :=
  endsWith b (js "?") || includes b (js "Please provide").

End Heuristic_parser_vocabulary.

Section Shared_buffer_vocabulary.
Import ClaudeCodeCommunicator.

(** The text an action adds to the output stream: the data of an
    output event, whatever its session. *)
Definition output_data (a : Action) : jstring :=
  match a with
  | spawner_emits (output_event _ data) => data
  | _ => []
  end.

End Shared_buffer_vocabulary.

Section Output_buffer_vocabulary.
Import ClaudeCodeProcessSpawner.
Implicit Types (st : ClaudeCodeProcessSpawner.t) (s : ClaudeCodeSession.t).

(** The last hundred elements of a list. *)
Definition last100 {A} (l : list A) : list A := drop (length l - 100) l.

(** How a session object is changed by an operation: its buffer is
    kept, or one chunk is pushed. *)
Definition buffer_kept_or_pushed (s s' : ClaudeCodeSession.t) : Prop :=
  ClaudeCodeSession.outputBuffer s' = ClaudeCodeSession.outputBuffer s
  ∨ ∃ data, ClaudeCodeSession.outputBuffer s' =
              push_bounded (ClaudeCodeSession.outputBuffer s) data.

(** No session object holds more than 100 chunks. *)
Definition buffers_bounded st : Prop :=
  ∀ r s, sessions st !! r = Some s →
         (length (ClaudeCodeSession.outputBuffer s) ≤ 100)%nat.

(** The output callbacks of one pseudo-terminal, with their times. *)
Definition output_callbacks (r : ref) (chunks : list (jstring * Z))
  : list Action :=
  (λ d, pty_data r d.1 d.2) <$> chunks.

(** 101 chunks, numbered from 0, arriving one per millisecond. *)
Definition numbered_chunks : list (jstring * Z) :=
  (λ i, (String_of_Z i, i)) <$> seqZ 0 101.

End Output_buffer_vocabulary.

Section Session_ids_vocabulary.
Import ClaudeCodeProcessSpawner.

(** The digits of [Number.prototype.toString(36)]. *)
Definition base36_digit (c : N) : bool :=
  (48 <=? c) && (c <=? 57) || (97 <=? c) && (c <=? 122).

(** The calls of [spawn] as actions. *)
Definition spawn_calls (calls : list (SpawnEnv * ClaudeCodeSpawnOptions.t))
  : list Action :=
  (λ c, call_spawn c.1 c.2) <$> calls.

(** [nodePtySpawn] returns. *)
Definition pty_spawn_succeeds (e : SpawnEnv) : Prop :=
  ∃ pid, pty_pid e = Ok pid.

(** The ids of the session objects that [n] calls of [spawn] create,
    read from the heap after the last call. *)
Definition created_ids (st st' : ClaudeCodeProcessSpawner.t) (n : nat)
  : list (option jstring) :=
  (λ r, ClaudeCodeSession.sessionId <$> sessions st' !! r)
    <$> seq (next_ref st) n.

(** Two calls at different milliseconds, with the same random draw. *)
Definition calls_one_ms_apart
  : list (SpawnEnv * ClaudeCodeSpawnOptions.t) :=
  [(spawn_env 1700000000000 (js "0.4fzyo82mvyr") 4242,
    continue_options (js "Continue"));
   (spawn_env 1700000000001 (js "0.4fzyo82mvyr") 4243,
    continue_options (js "Continue"))].

(** Two calls in the same millisecond that draw the same random number
    (continuing a session, [spawn] does not sleep). *)
Definition calls_same_ms : list (SpawnEnv * ClaudeCodeSpawnOptions.t) :=
  [(spawn_env 1700000000000 (js "0.4fzyo82mvyr") 4242,
    continue_options (js "Continue"));
   (spawn_env 1700000000000 (js "0.4fzyo82mvyr") 4243,
    continue_options (js "Continue"))].

End Session_ids_vocabulary.

Section Stop_and_exit_vocabulary.
Import ClaudeCodeProcessSpawner.

(** The [stopped] events among the events emitted for a session. *)
Definition stopped_events (sessionId : jstring)
    (events : list ClaudeCodeEvent) : list ClaudeCodeEvent :=
  List.filter (λ ev, match ev with
                     | stopped_event s _ => bool_decide (s = sessionId)
                     | _ => false
                     end) events.

(** The session of [one_session] is stopped without force one second
    after its start; its process exits with code 130 during the grace
    window; the grace window ends. *)
Definition exit_during_grace_window : list Action :=
  [call_stop one_session_id false 1700000001000;
   pty_exit 0 130;
   timer_fires 0 1700000004000].

(** The session is stopped with force; the exit callback of the killed
    process runs afterwards. *)
Definition exit_after_forced_stop : list Action :=
  [call_stop one_session_id true 1700000001000;
   pty_exit 0 137].

End Stop_and_exit_vocabulary.

Section Completion_wait_vocabulary.
Import ClaudeCodeCommunicator.
Context {P : Type} `{OutputParser P}.
Implicit Types (c : t P) (k : nat) (sid : jstring) (D : Z).

(** An action that neither registers nor removes the handler of the
    session [sid] from outside. *)
Definition leaves_alone (sid : jstring) (a : Action) : Prop :=
  match a with
  | call_onOutput s _ | call_offOutput s | call_waitForCompletion s _ =>
      s ≠ sid
  | call_cleanup => False
  | spawner_emits (completed_event s _) => s ≠ sid
  | _ => True
  end.

(** The parsed outputs delivered for the session [sid] during an
    execution from [c], in order. *)
Fixpoint outputs_for (sid : jstring) (c : t P) (actions : list Action)
  : list ParsedOutput :=
  match actions with
  | [] => []
  | a :: rest =>
      match a with
      | spawner_emits (output_event s data) =>
          if decide (s = sid) then [snd (parse (parser c) data)] else []
      | _ => []
      end ++ outputs_for sid (step c a) rest
  end.

(** The milliseconds that pass during an execution. *)
Fixpoint elapsed (actions : list Action) : Z :=
  match actions with
  | [] => 0
  | millisecond :: rest => 1 + elapsed rest
  | _ :: rest => elapsed rest
  end.

(** The numbers of the waiters in the tables are below the next number,
    and a waiter's handler is registered under the waiter's session. *)
Record well_formed (c : t P) : Prop := {
  wf_handlers : ∀ s k sid,
    outputHandlers c !! s = Some (wait_handler k sid) →
    sid = s ∧ (k < next_waiter c)%nat;
  wf_timers : ∀ k tm, timers c !! k = Some tm → (k < next_waiter c)%nat;
}.

(** The waiter [k] waits for the session [sid] until [D], and nothing
    else in the tables concerns that session. *)
Record waiting (k : nat) (sid : jstring) (D : Z) (c : t P) : Prop := {
  w_fresh : (k < next_waiter c)%nat;
  w_handler : outputHandlers c !! sid = Some (wait_handler k sid);
  w_timer : timers c !! k = Some {| deadline := D; timer_session := sid |};
  w_promise : promises c !! k = Some [];
  w_timers : ∀ k' tm,
    timers c !! k' = Some tm → k' ≠ k →
    timer_session tm ≠ sid ∧ (k' < next_waiter c)%nat;
  w_handlers : ∀ s k' sid',
    outputHandlers c !! s = Some (wait_handler k' sid') → s ≠ sid →
    k' ≠ k ∧ sid' ≠ sid ∧ (k' < next_waiter c)%nat;
}.

(** Nothing in the tables refers to the waiter [k] any more. *)
Record retired (k : nat) (c : t P) : Prop := {
  r_fresh : (k < next_waiter c)%nat;
  r_timer : timers c !! k = None;
  r_handlers : ∀ s sid, outputHandlers c !! s ≠ Some (wait_handler k sid);
}.

(** The action delivers no terminal output to the session [sid]. *)
Definition not_terminal_for (sid : jstring) (c : t P) (a : Action) : Prop :=
  match a with
  | spawner_emits (output_event s data) =>
      s = sid → terminal (snd (parse (parser c) data)) = false
  | _ => True
  end.

(** The time an action takes. *)
Definition tick_of (a : Action) : Z :=
  match a with millisecond => 1 | _ => 0 end.

(** How the handler of [waitForCompletion] settles on a terminal
    output. *)
Definition settlement_of (o : ParsedOutput) : Settlement :=
  if bool_decide (type o = Error)
  then reject (MkError (or_else (error o) (JStr (js "Task failed"))))
  else resolve o.

(** The state right after the waiter [k] has settled with [s]. *)
Definition settled_with (k : nat) (sid : jstring) (s : Settlement)
    (c : t P) : Prop :=
  retired k c ∧ promises c !! k = Some [s]
  ∧ outputHandlers c !! sid = None.

End Completion_wait_vocabulary.

(* --------------------------------------------------------------------- *)
(** ** Vocabulary of the further properties *)
(* --------------------------------------------------------------------- *)

Section Heuristic_messages_vocabulary.

(** The order in which the classifications of the heuristic parser
    follow each other. *)
Definition rank (ty : OutputType) : nat :=
  match ty with
  | Result => 2
  | Error => 1
  | _ => 0
  end.

(** The rank of the classification a buffer gives. *)
Definition buffer_rank (b : jstring) : nat :=
  if completion_marker b then 2
  else if error_marker b then 1 else 0.

(** A text without line terminator. *)
Definition single_line (m : jstring) : Prop :=
  Forall (λ c, is_line_terminator c = false) m.

(** [m] occurs in [b]. *)
Definition occurs_in (m b : jstring) : Prop :=
  ∃ pre post, b = pre ++ m ++ post.

End Heuristic_messages_vocabulary.

Section Orphaned_waiter_vocabulary.
Import ClaudeCodeCommunicator.
Context {P : Type} `{OutputParser P}.
Implicit Types (c : t P) (k : nat) (sid : jstring) (D : Z).

(** The timer of the waiter [k] is pending, its promise has received
    nothing, and its handler is not registered any more. *)
Record orphaned (k : nat) (sid : jstring) (D : Z) (c : t P) : Prop := {
  o_fresh : (k < next_waiter c)%nat;
  o_timer : timers c !! k = Some {| deadline := D; timer_session := sid |};
  o_promise : promises c !! k = Some [];
  o_handlers : ∀ s sid', outputHandlers c !! s ≠ Some (wait_handler k sid');
}.

(** What holds of the tables of a communicator in every state it
    reaches.  A pending timer belongs to a wait that was created, it is
    not due yet, and the promise of its wait has received nothing.  A
    handler of a wait is registered under the session of the wait only,
    and the timer of that wait is pending. *)
Record tables_sound (c : t P) : Prop := {
  ts_fresh : ∀ k tm, timers c !! k = Some tm → (k < next_waiter c)%nat;
  ts_future : ∀ k tm, timers c !! k = Some tm → (clock c < deadline tm)%Z;
  ts_promise : ∀ k tm, timers c !! k = Some tm → promises c !! k = Some [];
  ts_handler : ∀ s k sid,
    outputHandlers c !! s = Some (wait_handler k sid) →
    s = sid
    ∧ ∃ D, timers c !! k = Some {| deadline := D; timer_session := sid |};
}.

(** An action that removes or replaces the handler of the session
    [sid]. *)
Definition displaces (sid : jstring) (a : Action) : Prop :=
  match a with
  | call_onOutput s _ | call_offOutput s | call_waitForCompletion s _ =>
      s = sid
  | call_cleanup => True
  | spawner_emits (completed_event s _) => s = sid
  | _ => False
  end.

(** The output events of an execution: session and data. *)
Definition output_events (actions : list Action)
  : list (jstring * jstring) :=
  omap (λ a, match a with
             | spawner_emits (output_event s d) => Some (s, d)
             | _ => None
             end) actions.

(** The [parsed-output] events among the events of the communicator. *)
Definition parsed_outputs (events : list Emitted)
  : list (jstring * ParsedOutput) :=
  omap (λ ev, match ev with
              | parsed_output s o => Some (s, o)
              | _ => None
              end) events.

End Orphaned_waiter_vocabulary.

Section Spawner_invariant_vocabulary.
Import ClaudeCodeProcessSpawner.
Implicit Types (st : ClaudeCodeProcessSpawner.t) (s : ClaudeCodeSession.t).

(** A session that has not been stopped. *)
Definition live (s : ClaudeCodeSession.t) : Prop :=
  ClaudeCodeSession.state s = starting ∨ ClaudeCodeSession.state s = running.

(** The states a session object can go through: it stays as it is, it
    goes from [starting] to [running], or it is stopped. *)
Definition state_follows (a b : SessionState) : Prop :=
  b = a ∨ (a = starting ∧ b = running) ∨ b = stopped.

(** A later version of the same session object. *)
Record evolves (s s' : ClaudeCodeSession.t) : Prop := {
  ev_sessionId : ClaudeCodeSession.sessionId s' = ClaudeCodeSession.sessionId s;
  ev_agentId : ClaudeCodeSession.agentId s' = ClaudeCodeSession.agentId s;
  ev_pid : ClaudeCodeSession.pid s' = ClaudeCodeSession.pid s;
  ev_workdir : ClaudeCodeSession.workdir s' = ClaudeCodeSession.workdir s;
  ev_task : ClaudeCodeSession.task s' = ClaudeCodeSession.task s;
  ev_startedAt :
    ClaudeCodeSession.startedAt s' = ClaudeCodeSession.startedAt s;
  ev_error : ClaudeCodeSession.error s' = ClaudeCodeSession.error s;
  ev_state :
    state_follows (ClaudeCodeSession.state s) (ClaudeCodeSession.state s');
}.

(** Every session object of [st] is still in the heap of [st'], as a
    later version of itself. *)
Definition heap_evolves st st' : Prop :=
  (next_ref st ≤ next_ref st')%nat
  ∧ ∀ r s, (r < next_ref st)%nat → sessions st !! r = Some s →
      ∃ s', sessions st' !! r = Some s' ∧ evolves s s'.

(** The registry, the heap and the suspended calls fit together: a
    registered id refers to a live session object with that id; the
    session objects are those allocated so far, they belong to the
    agent, carry no error and are live or stopped; a suspended [stop]
    holds the session object of its id. *)
Record coherent st : Prop := {
  co_registry : ∀ sid r, activeSessions st !! sid = Some r →
    ∃ s, sessions st !! r = Some s
         ∧ ClaudeCodeSession.sessionId s = sid ∧ live s;
  co_heap : ∀ r s, sessions st !! r = Some s →
    (r < next_ref st)%nat
    ∧ ClaudeCodeSession.agentId s = AgentConfig.id (agent st)
    ∧ ClaudeCodeSession.error s = None
    ∧ (live s ∨ ClaudeCodeSession.state s = stopped);
  co_sleepers : ∀ w sid r, stop_grace w sid r ∈ sleepers st →
    ∃ s, sessions st !! r = Some s ∧ ClaudeCodeSession.sessionId s = sid;
}.

(** The texts written to the pseudo-terminal [r]. *)
Definition writes_to (r : ref) (ops : list (ref * PtyOp)) : list jstring :=
  omap (λ op, match op with
              | (r', pty_write data) =>
                  if decide (r' = r) then Some data else None
              | _ => None
              end) ops.

(** The signals sent to the pseudo-terminal [r]. *)
Definition kills_of (r : ref) (ops : list (ref * PtyOp)) : list jstring :=
  omap (λ op, match op with
              | (r', pty_kill signal) =>
                  if decide (r' = r) then Some signal else None
              | _ => None
              end) ops.

End Spawner_invariant_vocabulary.

Section Spawner_transition_vocabulary.
Import ClaudeCodeProcessSpawner.
Implicit Types (st : ClaudeCodeProcessSpawner.t).

(** What every operation of the spawner guarantees, from a state [st]
    to its result [st']: the agent is the same, coherence is kept, the
    session objects evolve, and a stopped session's pseudo-terminal
    receives no further input. *)
Record transition st st' : Prop := {
  tr_agent : agent st' = agent st;
  tr_coherent : coherent st → coherent st';
  tr_heap : heap_evolves st st';
  tr_writes : coherent st → ∀ r s,
    sessions st !! r = Some s → ClaudeCodeSession.state s = stopped →
    writes_to r (pty_ops st') = writes_to r (pty_ops st);
}.

End Spawner_transition_vocabulary.

Section Spawner_operations_vocabulary.
Import ClaudeCodeProcessSpawner.
Implicit Types (st : ClaudeCodeProcessSpawner.t)
  (o : ClaudeCodeSpawnOptions.t).

(** The variable that enables agent teams. *)
Definition teams_variable : jstring :=
  js "CLAUDE_CODE_EXPERIMENTAL_AGENT_TEAMS".

(** The value the configuration of the agent gives to a variable. *)
Definition config_env st (k : jstring) : option jstring :=
  ClaudeCodeConfig.env (claudeConfig st) ≫= (λ m, m !! k).

(** Agent teams are enabled by the configuration or by the options. *)
Definition teams_enabled st o : bool :=
  truthy_bool (ClaudeCodeConfig.agentTeams (claudeConfig st))
  || truthy_bool (ClaudeCodeSpawnOptions.enableTeams o).

(** The options start a new conversation: [spawn] will send the task
    after its settle delay. *)
Definition starts_afresh o : bool :=
  negb (truthy_str (ClaudeCodeSpawnOptions.resumeSessionId o))
  && negb (truthy_bool (ClaudeCodeSpawnOptions.continue o)).


Definition with_teammates (n : option Z) o : ClaudeCodeSpawnOptions.t :=
  {| ClaudeCodeSpawnOptions.task := ClaudeCodeSpawnOptions.task o;
     ClaudeCodeSpawnOptions.resumeSessionId :=
       ClaudeCodeSpawnOptions.resumeSessionId o;
     ClaudeCodeSpawnOptions.continue := ClaudeCodeSpawnOptions.continue o;
     ClaudeCodeSpawnOptions.permissionMode :=
       ClaudeCodeSpawnOptions.permissionMode o;
     ClaudeCodeSpawnOptions.model := ClaudeCodeSpawnOptions.model o;
     ClaudeCodeSpawnOptions.enableTeams :=
       ClaudeCodeSpawnOptions.enableTeams o;
     ClaudeCodeSpawnOptions.teammates := n;
     ClaudeCodeSpawnOptions.outputFormat :=
       ClaudeCodeSpawnOptions.outputFormat o |}.

(** The session object [spawn] creates. *)
Definition new_session (e : SpawnEnv) o st (pid : Z)
  : ClaudeCodeSession.t :=
  {| ClaudeCodeSession.sessionId :=
       generateSessionId (AgentConfig.id (agent st)) (now e) (random36 e);
     ClaudeCodeSession.agentId := AgentConfig.id (agent st);
     ClaudeCodeSession.pid := pid;
     ClaudeCodeSession.workdir :=
       if truthy_bool (ClaudeCodeSpawnOptions.continue o)
       then (if truthy_str (ClaudeCodeConfig.workdir (claudeConfig st))
             then default [] (ClaudeCodeConfig.workdir (claudeConfig st))
             else AgentConfig.workspace (agent st))
       else AgentConfig.workspace (agent st);
     ClaudeCodeSession.task := ClaudeCodeSpawnOptions.task o;
     ClaudeCodeSession.startedAt := now e;
     ClaudeCodeSession.state := starting;
     ClaudeCodeSession.lastActivity := now e;
     ClaudeCodeSession.error := None;
     ClaudeCodeSession.outputBuffer := [] |}.

(** The spawner with another agent configuration. *)
Definition with_agent (a : AgentConfig.t) st : ClaudeCodeProcessSpawner.t :=
  {| agent := a; activeSessions := activeSessions st;
     sessions := sessions st; next_ref := next_ref st;
     pty_spawns := pty_spawns st; pty_ops := pty_ops st;
     emitted := emitted st; logs := logs st; sleepers := sleepers st |}.

(** What the spawner reads from an agent configuration. *)
Definition configuration_read (a : AgentConfig.t) :=
  let cfg := default ClaudeCodeConfig.empty (AgentConfig.claudeCode a) in
  (AgentConfig.id a, AgentConfig.workspace a,
   ClaudeCodeConfig.binaryPath cfg, ClaudeCodeConfig.permissionMode cfg,
   ClaudeCodeConfig.agentTeams cfg, ClaudeCodeConfig.model cfg,
   ClaudeCodeConfig.workdir cfg, ClaudeCodeConfig.env cfg).

(** An agent with plugins and servers configured, and the same agent
    without them. *)
Definition agent_with_plugins : AgentConfig.t :=
  {| AgentConfig.id := js "wolverine";
     AgentConfig.name := js "Wolverine";
     AgentConfig.runtime := Some claudeCode_runtime;
     AgentConfig.model := Some (js "anthropic/claude-sonnet-4-5");
     AgentConfig.workspace := js "/tmp/wolverine";
     AgentConfig.agentDir := js "/tmp/wolverine/agent";
     AgentConfig.claudeCode :=
       Some {| ClaudeCodeConfig.binaryPath := None;
               ClaudeCodeConfig.permissionMode := Some bypassPermissions;
               ClaudeCodeConfig.sessionPersistence := Some true;
               ClaudeCodeConfig.plugins :=
                 Some [js "ralph-wiggum"; js "claude-mem"; js "github"];
               ClaudeCodeConfig.mcpServers := Some [js "filesystem"];
               ClaudeCodeConfig.agentTeams := Some true;
               ClaudeCodeConfig.model := Some sonnet;
               ClaudeCodeConfig.workdir := None;
               ClaudeCodeConfig.env := None |};
     AgentConfig.identity := Some (js "Wolverine", None) |}.

Definition agent_without_plugins : AgentConfig.t :=
  {| AgentConfig.id := js "wolverine";
     AgentConfig.name := js "Wolverine";
     AgentConfig.runtime := Some claudeCode_runtime;
     AgentConfig.model := None;
     AgentConfig.workspace := js "/tmp/wolverine";
     AgentConfig.agentDir := js "/tmp/wolverine/agent";
     AgentConfig.claudeCode :=
       Some {| ClaudeCodeConfig.binaryPath := None;
               ClaudeCodeConfig.permissionMode := Some bypassPermissions;
               ClaudeCodeConfig.sessionPersistence := None;
               ClaudeCodeConfig.plugins := None;
               ClaudeCodeConfig.mcpServers := None;
               ClaudeCodeConfig.agentTeams := Some true;
               ClaudeCodeConfig.model := Some sonnet;
               ClaudeCodeConfig.workdir := None;
               ClaudeCodeConfig.env := None |};
     AgentConfig.identity := None |}.

End Spawner_operations_vocabulary.

Section Spawner_environment_vocabulary.

(** An agent whose configuration sets two environment variables and a
    working directory, and the environment of a process that sets two. *)
Definition agent_with_env : AgentConfig.t :=
  {| AgentConfig.id := js "wolverine";
     AgentConfig.name := js "Wolverine";
     AgentConfig.runtime := Some claudeCode_runtime;
     AgentConfig.model := None;
     AgentConfig.workspace := js "/tmp/wolverine";
     AgentConfig.agentDir := js "/tmp/wolverine/agent";
     AgentConfig.claudeCode :=
       Some {| ClaudeCodeConfig.binaryPath := None;
               ClaudeCodeConfig.permissionMode := None;
               ClaudeCodeConfig.sessionPersistence := None;
               ClaudeCodeConfig.plugins := None;
               ClaudeCodeConfig.mcpServers := None;
               ClaudeCodeConfig.agentTeams := Some true;
               ClaudeCodeConfig.model := None;
               ClaudeCodeConfig.workdir := Some (js "/tmp/elsewhere");
               ClaudeCodeConfig.env :=
                 Some (<[js "PATH" := js "/agent/bin"]>
                         (<[teams_variable := js "0"]> ∅)) |};
     AgentConfig.identity := None |}.

Definition env_of_process : ClaudeCodeProcessSpawner.SpawnEnv :=
  {| ClaudeCodeProcessSpawner.now := 1700000000000;
     ClaudeCodeProcessSpawner.random36 := js "0.4fzyo82mvyr";
     ClaudeCodeProcessSpawner.process_env :=
       <[js "PATH" := js "/usr/bin"]> (<[js "HOME" := js "/root"]> ∅);
     ClaudeCodeProcessSpawner.pty_pid := Ok 4242%Z |}.

End Spawner_environment_vocabulary.

Section Spawner_lifecycle_vocabulary.
Import ClaudeCodeProcessSpawner.
Implicit Types (st : ClaudeCodeProcessSpawner.t).

(** The pseudo-terminals of the keys that are registered, in the order
    of the keys. *)
Definition refs_of (keys : list jstring) st : list ref :=
  omap (λ sid, activeSessions st !! sid) keys.

(** The result of an operation that writes [input] to the
    pseudo-terminal [r] and does nothing else that can be observed. *)
Definition writes_once st (r : ref) (input : jstring) (t : Z)
    (result : Outcome ClaudeCodeProcessSpawner.t) : Prop :=
  ∃ st', result = Ok st'
         ∧ pty_ops st' = pty_ops st ++ [(r, pty_write input)]
         ∧ emitted st' = emitted st
         ∧ activeSessions st' = activeSessions st
         ∧ sessions st' =
             alter (ClaudeCodeSession.set_lastActivity t) r (sessions st)
         ∧ sleepers st' = sleepers st.

(** A spawner with two sessions. *)
Definition two_sessions : ClaudeCodeProcessSpawner.t :=
  fst (spawn (spawn_env 1700000000001 (js "0.9zzkq1x7c2") 4243)
         (continue_options (js "Continue")) one_session).

Definition second_session_id : jstring :=
  js "cc-test-agent-1700000000001-9zzkq1x7c".

End Spawner_lifecycle_vocabulary.

Section Runtime_vocabulary.
Import RuntimeMethods.
Implicit Types (rt : ClaudeCodeRuntime.t).

(** What a step of the runtime is for its communicator: the events of
    the spawner it listens to, or a call of one of its methods, or a
    millisecond. *)
Definition communicator_actions rt (a : Action)
  : list ClaudeCodeCommunicator.Action :=
  match a with
  | call_waitForCompletion sid ms =>
      if ClaudeCodeRuntime.isInitialized rt
      then [ClaudeCodeCommunicator.call_waitForCompletion sid ms] else []
  | stopSession_resumes sid => [ClaudeCodeCommunicator.call_offOutput sid]
  | shutdown_resumes => [ClaudeCodeCommunicator.call_cleanup]
  | one_millisecond => [ClaudeCodeCommunicator.millisecond]
  | _ =>
      ClaudeCodeCommunicator.spawner_emits
        <$> new_events (ClaudeCodeRuntime.spawner rt)
              (ClaudeCodeRuntime.spawner (step rt a))
  end.

Fixpoint communicator_trace rt (actions : list Action)
  : list ClaudeCodeCommunicator.Action :=
  match actions with
  | [] => []
  | a :: rest =>
      communicator_actions rt a ++ communicator_trace (step rt a) rest
  end.

(** The milliseconds that pass during an execution of the runtime. *)
Fixpoint milliseconds (actions : list Action) : Z :=
  match actions with
  | [] => 0
  | one_millisecond :: rest => 1 + milliseconds rest
  | _ :: rest => milliseconds rest
  end.

(** A call of the host that goes through [ensureInitialized]. *)
Definition guarded_call (a : Action) : Prop :=
  match a with
  | call_startSession _ _ | call_resumeSession _ _ _
  | call_continueLastSession _ _ | call_restartSession _ _
  | call_stopSession _ _ _ | call_sendMessage _ _ _
  | call_sendCommand _ _ _ _ | call_interruptSession _ _
  | call_waitForCompletion _ _ => True
  | _ => False
  end.

(** The runtime the constructor returns for the agent of the unit
    tests; then with one session, started by continuing the last one,
    and a wait for its completion. *)
Definition test_runtime : ClaudeCodeRuntime.t :=
  {| ClaudeCodeRuntime.agent := test_agent;
     ClaudeCodeRuntime.spawner := ClaudeCodeProcessSpawner.new test_agent;
     ClaudeCodeRuntime.communicator :=
       ClaudeCodeCommunicator.new DefaultOutputParser.new;
     ClaudeCodeRuntime.isInitialized := true;
     ClaudeCodeRuntime.logs :=
       [(debug, js "Agent configuration validated");
        (info, js "Claude Code Runtime initialized")] |}.

Definition runtime_with_wait : ClaudeCodeRuntime.t :=
  run test_runtime
    [call_continueLastSession None
       (spawn_env 1700000000000 (js "0.4fzyo82mvyr") 4242);
     call_waitForCompletion one_session_id (Some 50%Z)].

(** The same session with two waits for its completion, the second
    one called a millisecond after the first. *)
Definition two_waits : list Action :=
  [call_continueLastSession None
     (spawn_env 1700000000000 (js "0.4fzyo82mvyr") 4242);
   call_waitForCompletion one_session_id (Some 50%Z);
   one_millisecond;
   call_waitForCompletion one_session_id (Some 80%Z)].

End Runtime_vocabulary.

Section Session_state_vocabulary.

(** The banner that makes a starting session a running one, and
    whether one of the chunks contains it. *)
Definition banner : jstring := js "Claude Code".

Definition banner_seen (chunks : list (jstring * Z)) : bool :=
  existsb (λ d, includes d.1 banner) chunks.

(** The state of a session after output callbacks with these chunks. *)
Definition state_after_output (state : SessionState)
    (chunks : list (jstring * Z)) : SessionState :=
  match state with
  | starting => if banner_seen chunks then running else starting
  | _ => state
  end.

End Session_state_vocabulary.

(* ===================================================================== *)
(** * Properties *)
(* ===================================================================== *)

(** Goals about concrete strings and lists of strings are decided by
    evaluation. *)
Ltac decide_by_computation :=
  lazymatch goal with
  | |- ¬ _ =>
      let H := fresh in
      intros H; apply (bool_decide_eq_true_2 _) in H;
      vm_compute in H; discriminate H
  | |- _ => apply (bool_decide_eq_true_1 _); vm_compute; reflexivity
  end.

(* --------------------------------------------------------------------- *)
(** ** The constructor of the runtime *)
(* --------------------------------------------------------------------- *)

Section Runtime_constructor.
Import ClaudeCodeRuntime.

(** C7. The constructor throws one of the configuration errors exactly
    when the agent id is empty, the workspace is empty or the runtime
    discriminator is not ['claudeCode'] (an absent discriminator
    included); otherwise it returns an initialized instance for that
    agent. *)
Theorem constructor_validates (agent : AgentConfig.t) :
  ((∃ e, new agent = Throw e ∧ is_config_error e) ↔
     (AgentConfig.id agent = [] ∨ AgentConfig.workspace agent = []
      ∨ AgentConfig.runtime agent ≠ Some claudeCode_runtime))
  ∧ (AgentConfig.id agent ≠ [] → AgentConfig.workspace agent ≠ [] →
     AgentConfig.runtime agent = Some claudeCode_runtime →
     ∃ rt, new agent = Ok rt ∧ isInitialized rt = true
           ∧ ClaudeCodeRuntime.agent rt = agent
           ∧ ensureInitialized rt = Ok ()).
Proof.
  unfold new, validateAgentConfig.
  destruct (AgentConfig.id agent) as [|a i] eqn:Hi;
    [| destruct (AgentConfig.workspace agent) as [|b w] eqn:Hw;
       [| destruct (AgentConfig.runtime agent) as [[|]|] eqn:Hr ] ];
    (split; [split; [intros (e & He & _) | intros Hor] | intros H1 H2 H3]);
    try congruence; try discriminate;
    try (eexists; split; [reflexivity | unfold is_config_error; eauto]; fail);
    try by auto.
  destruct Hor as [? | [? | ?]]; congruence.
Qed.

Lemma constructor_validates_witness :
  ∃ rt, new test_agent = Ok rt ∧ isInitialized rt = true
        ∧ ClaudeCodeRuntime.agent rt = test_agent
        ∧ ensureInitialized rt = Ok ().
Proof.
  apply (proj2 (constructor_validates test_agent)); [done | done |].
  reflexivity.
Defined.

End Runtime_constructor.

(* --------------------------------------------------------------------- *)
(** ** The argument list of the process *)
(* --------------------------------------------------------------------- *)

Section Spawner_arguments.
Import ClaudeCodeProcessSpawner.
Import ClaudeCodeSpawnOptions.

Lemma flags_after_resume mode m f :
  let rest := [js "--permission-mode"; PermissionMode_str mode]
                ++ model_flags m ++ format_flags f in
  (js "--resume" ∉ rest) ∧ (js "--continue" ∉ rest)
  ∧ (js "--model" ∈ rest ↔ is_Some m)
  ∧ (js "--output-format" ∈ rest ↔ is_Some f).
Proof.
  destruct mode, m as [[]|], f as [[]|]; cbv zeta;
    (split; [decide_by_computation | split; [decide_by_computation | split]]);
    (split; [intros Hin | intros Hs]);
    try (eexists; reflexivity); try decide_by_computation;
    try (exfalso; revert Hin; decide_by_computation);
    try (destruct Hs as [? Hs]; discriminate Hs).
Qed.

Lemma effective_model_is_Some st o :
  is_Some (effective_model st o) ↔
    is_Some (model o) ∨ is_Some (ClaudeCodeConfig.model (claudeConfig st)).
Proof.
  unfold effective_model. destruct (model o) as [m|].
  - split; [intros _; left; eauto | intros _; eauto].
  - split; [intros ?; by right | intros [[? ?]|?]; [discriminate | done]].
Qed.

(** C6, as the code has it.  The argument list is the resume or
    continue flag followed by the common flags: [--resume id] when the
    resume id is a non-empty string, whatever the continue flag;
    otherwise [--continue] when the continue flag is set; otherwise
    nothing.  The common flags never contain [--resume] or
    [--continue]; they start with [--permission-mode] and the mode of
    the option, else of the configuration, else [bypassPermissions];
    they contain [--model] exactly when the option or, failing that,
    the configuration names a model, and [--output-format] exactly
    when the option is present. *)
Theorem buildCommandArgs_flags (st : ClaudeCodeProcessSpawner.t)
    (o : ClaudeCodeSpawnOptions.t) :
  let args := buildCommandArgs st o in
  let rest := common_flags st o in
  (∀ id, resumeSessionId o = Some id → id ≠ [] →
     args = [js "--resume"; id] ++ rest)
  ∧ (truthy_str (resumeSessionId o) = false →
     truthy_bool (continue o) = true → args = [js "--continue"] ++ rest)
  ∧ (truthy_str (resumeSessionId o) = false →
     truthy_bool (continue o) = false → args = rest)
  ∧ (js "--resume" ∉ rest) ∧ (js "--continue" ∉ rest)
  ∧ (∃ tail, rest = [js "--permission-mode";
                     PermissionMode_str (effective_mode st o)] ++ tail)
  ∧ (js "--model" ∈ rest ↔
       is_Some (model o)
       ∨ is_Some (ClaudeCodeConfig.model (claudeConfig st)))
  ∧ (js "--output-format" ∈ rest ↔ is_Some (outputFormat o)).
Proof.
  cbv zeta.
  assert (Hparts : buildCommandArgs st o =
            (if truthy_str (resumeSessionId o)
             then [js "--resume"; default [] (resumeSessionId o)]
             else if truthy_bool (continue o) then [js "--continue"] else [])
            ++ common_flags st o).
  { unfold buildCommandArgs, common_flags, effective_mode, effective_model,
      model_flags, format_flags.
    destruct (resumeSessionId o) as [[|c i]|]; cbn [truthy_str default];
      destruct (truthy_bool (continue o));
      destruct (permissionMode o);
      destruct (ClaudeCodeConfig.permissionMode (claudeConfig st));
      destruct (model o);
      destruct (ClaudeCodeConfig.model (claudeConfig st));
      destruct (outputFormat o); cbn [default];
      rewrite <- ?app_assoc; reflexivity. }
  destruct (flags_after_resume (effective_mode st o) (effective_model st o)
              (outputFormat o)) as (Hr & Hc & Hm & Hf).
  repeat split; try assumption.
  - intros id Hid Hne. rewrite Hparts, Hid.
    destruct id; [done | reflexivity].
  - intros Hid Hco. by rewrite Hparts, Hid, Hco.
  - intros Hid Hco. by rewrite Hparts, Hid, Hco.
  - eexists. reflexivity.
  - intros Hin. apply effective_model_is_Some, Hm, Hin.
  - intros Hs. apply Hm, effective_model_is_Some, Hs.
  - apply Hf.
  - apply Hf.
Qed.

Lemma buildCommandArgs_flags_witness :
  buildCommandArgs (new test_agent) resume_and_continue =
    [js "--resume"; js "cc-wolverine-123"; js "--permission-mode";
     js "plan"; js "--output-format"; js "json"].
Proof.
  rewrite (proj1 (buildCommandArgs_flags (new test_agent)
                    resume_and_continue) (js "cc-wolverine-123"));
    [reflexivity | reflexivity | discriminate].
Defined.

(** C6 as stated fails: without a model override in the options the
    argument list still carries [--model], taken from the
    configuration. *)
Lemma model_flag_without_override :
  model (task_only (js "hello")) = None
  ∧ buildCommandArgs (new agent_with_model) (task_only (js "hello")) =
      [js "--permission-mode"; js "bypassPermissions";
       js "--model"; js "sonnet"].
Proof. split; reflexivity. Qed.

End Spawner_arguments.

(* --------------------------------------------------------------------- *)
(** ** Writing to and stopping a session *)
(* --------------------------------------------------------------------- *)

Section Spawner_registry.
Import ClaudeCodeProcessSpawner.
Implicit Types (st : ClaudeCodeProcessSpawner.t).

Lemma update_session_allocated st r f :
  registry_allocated st → registry_allocated (update_session r f st).
Proof.
  intros Hreg sid r' Hl. cbn in *. apply lookup_alter_is_Some. by apply (Hreg sid).
Qed.

Lemma delete_allocated st sid :
  registry_allocated st →
  registry_allocated (set_activeSessions (delete sid (activeSessions st)) st).
Proof.
  intros Hreg sid' r Hl. cbn in *. apply lookup_delete_Some in Hl as [_ Hl].
  by apply (Hreg sid').
Qed.

Lemma step_registry_allocated st a :
  registry_allocated st → registry_allocated (step st a).
Proof.
  intros Hreg.
  destruct a as [e o | sid input t | sid force t | i t | r0 data t | r0 code];
    cbn [step].
  - unfold spawn. destruct (pty_pid e) as [pid | err]; cbn [fst]; [| done].
    destruct (negb _ && negb _); intros sid r Hl; cbn in *;
      (apply lookup_insert_Some in Hl as [[_ <-] | [_ Hl]];
       [rewrite lookup_insert_eq; eauto
        | apply lookup_insert_is_Some'; right; by apply (Hreg sid)]).
  - unfold write. destruct (activeSessions st !! sid) as [r1|]; [| done].
    by apply update_session_allocated.
  - unfold stop. destruct (activeSessions st !! sid) as [r1|]; [| done].
    destruct force; [| done]. unfold stop_finish.
    intros sid' r Hl. cbn in *. apply lookup_delete_Some in Hl as [_ Hl].
    apply lookup_alter_is_Some. by apply (Hreg sid').
  - unfold wake. destruct (sleepers st !! i) as [sl|]; [| done].
    destruct (decide _); [| done].
    destruct sl as [w sid task pid r1 | w sid r1].
    + unfold spawn_resume, sendTask. cbn.
      destruct (activeSessions st !! sid); cbn; done.
    + unfold stop_resume, stop_finish. cbn.
      destruct (activeSessions st !! sid); intros sid' r Hl; cbn in *;
        apply lookup_delete_Some in Hl as [_ Hl];
        apply lookup_alter_is_Some; by apply (Hreg sid').
  - unfold onData. destruct (sessions st !! r0) as [s0|]; [| done].
    intros sid' r Hl. cbn in *. apply lookup_alter_is_Some. by apply (Hreg sid').
  - unfold onExit. destruct (sessions st !! r0) as [s0|]; [| done].
    intros sid' r Hl. cbn in *. apply lookup_delete_Some in Hl as [_ Hl].
    apply lookup_alter_is_Some. by apply (Hreg sid').
Qed.

Lemma run_registry_allocated actions : ∀ st,
  registry_allocated st → registry_allocated (run st actions).
Proof.
  induction actions as [|a rest IH]; intros st Hreg; [done |].
  apply (IH (step st a)). by apply step_registry_allocated.
Qed.

(** C4. In every state the spawner can reach: for an id absent from the
    registry, [write] throws the not-found error and changes nothing,
    and [stop] returns with the registry, the session objects, the
    pseudo-terminals, the emitted events and the suspended calls
    unchanged (it only logs a warning).  For a registered id, [write]
    passes the text to the pseudo-terminal of the session and sets the
    last-activity time of the session object to the current time. *)
Theorem write_and_stop_by_registry (agent : AgentConfig.t)
    (actions : list Action) (sessionId : jstring) :
  let st := run (new agent) actions in
  (activeSessions st !! sessionId = None →
     (∀ input t,
        write sessionId input t st = Throw (not_found sessionId)
        ∧ step st (call_write sessionId input t) = st)
     ∧ (∀ force t,
          let st' := stop sessionId force t st in
          activeSessions st' = activeSessions st
          ∧ sessions st' = sessions st
          ∧ pty_ops st' = pty_ops st
          ∧ emitted st' = emitted st
          ∧ sleepers st' = sleepers st
          ∧ logs st' =
              logs st
              ++ [(warn, js "Attempted to stop non-existent session")]))
  ∧ (∀ r, activeSessions st !! sessionId = Some r →
       ∀ input t,
         ∃ s st', sessions st !! r = Some s
                  ∧ write sessionId input t st = Ok st'
                  ∧ pty_ops st' = pty_ops st ++ [(r, pty_write input)]
                  ∧ activeSessions st' = activeSessions st
                  ∧ emitted st' = emitted st
                  ∧ getSession sessionId st' =
                      Some (ClaudeCodeSession.set_lastActivity t s)
                  ∧ ClaudeCodeSession.lastActivity <$> getSession sessionId st'
                      = Some t
                  ∧ ∀ r', r' ≠ r → sessions st' !! r' = sessions st !! r').
Proof.
  cbv zeta. set (st := run (new agent) actions).
  assert (Hreg : registry_allocated st).
  { apply run_registry_allocated. intros sid r Hl. cbn in Hl.
    by rewrite lookup_empty in Hl. }
  split.
  - intros Habsent. split.
    + intros input t. unfold step, write. by rewrite Habsent.
    + intros force t. unfold stop. rewrite Habsent. by cbn.
  - intros r Hr input t. destruct (Hreg _ _ Hr) as [s Hs].
    exists s. unfold write. rewrite Hr.
    eexists. split; [exact Hs |]. split; [reflexivity |].
    assert (Hget : getSession sessionId
              (update_session r (ClaudeCodeSession.set_lastActivity t)
                 (pty_do r (pty_write input)
                    (logger debug (js "Writing to session") st)))
            = Some (ClaudeCodeSession.set_lastActivity t s)).
    { unfold getSession; cbn. rewrite Hr; cbn.
      rewrite lookup_alter_eq, Hs. reflexivity. }
    repeat split; try reflexivity; try assumption.
    + by rewrite Hget.
    + intros r' Hne. cbn. by rewrite lookup_alter_ne.
Qed.

Lemma write_and_stop_by_registry_witness :
  ∃ st', write one_session_id (js "hello") 1700000000500 one_session
           = Ok st'
         ∧ pty_ops st' = [(0%nat, pty_write (js "hello"))]
         ∧ ClaudeCodeSession.lastActivity <$> getSession one_session_id st'
             = Some 1700000000500%Z.
Proof.
  destruct (proj2 (write_and_stop_by_registry test_agent
                     [call_spawn
                        (spawn_env 1700000000000 (js "0.4fzyo82mvyr") 4242)
                        (continue_options (js "Continue"))]
                     one_session_id)
              0%nat ltac:(vm_compute; reflexivity)
              (js "hello") 1700000000500%Z)
    as (s & st' & _ & Hw & Hops & _ & _ & _ & Hla & _).
  exists st'. split; [exact Hw | split; [| exact Hla]].
  rewrite Hops. reflexivity.
Defined.

End Spawner_registry.

(* --------------------------------------------------------------------- *)
(** ** The structured parser *)
(* --------------------------------------------------------------------- *)

Section Structured_parser.
Import JsonOutputParser.

Variable JSON_parse : jstring → option JsVal.
Variable JSON_stringify : JsVal → jstring.

Local Abbreviation parse_json :=
  (JsonOutputParser.parse JSON_parse JSON_stringify).

(** C5. [parse] returns a classification for every input (the model
    has no way to throw: the [catch] clause covers the whole body).
    Input that [JSON.parse] rejects is classified raw, with the input
    as content.  A decoded record (an object) whose [type] is
    ['completion'] gives a result with [isComplete] true; one whose
    [type] is ['error'] gives an error whose [error] field is the
    [message] of the record (undefined when the record has none);
    every other record gives a status.  The same holds for every
    decoded value other than [null]; the value [null] is classified
    raw. *)
Theorem structured_parser_total (p : JsonOutputParser.t)
    (output : jstring) :
  let o := snd (parse_json p output) in
  fst (parse_json p output) = p
  ∧ (JSON_parse output = None → o = raw_output output)
  ∧ (JSON_parse output = Some JNull → o = raw_output output)
  ∧ (∀ d tag, JSON_parse output = Some d → get_prop d (js "type") = Some tag →
       data o = Some d
       ∧ (tag = Some (JStr (js "completion")) →
          type o = Result ∧ isComplete o = Some true)
       ∧ (tag = Some (JStr (js "error")) →
          type o = Error
          ∧ get_prop d (js "message") = Some (error o)
          ∧ isComplete o = None)
       ∧ (tag ≠ Some (JStr (js "completion")) →
          tag ≠ Some (JStr (js "error")) →
          type o = Status ∧ content o = JStr (JSON_stringify d)
          ∧ isComplete o = None ∧ error o = None))
  ∧ (∀ props, JSON_parse output = Some (JObj props) →
       get_prop (JObj props) (js "type")
         = Some (prop_lookup (js "type") props)).
Proof.
  cbv zeta. unfold parse_json, JsonOutputParser.parse, try_block.
  split; [by destruct (_ ≫= _) |].
  split; [intros ->; reflexivity |].
  split; [intros ->; reflexivity |].
  split; [| reflexivity].
  intros d tag -> Htag. cbn [mbind option_bind]. rewrite Htag.
  cbn [mbind option_bind].
  assert (Hmsg : ∃ m, get_prop d (js "message") = Some m
                      ∧ get_prop d (js "result") = Some
                          (match d with
                           | JObj props => prop_lookup (js "result") props
                           | _ => None end)).
  { destruct d; try discriminate Htag; eexists; split; reflexivity. }
  destruct Hmsg as (m & Hm & Hres). rewrite Hm, Hres.
  cbn [mbind option_bind].
  unfold strict_eq_str.
  destruct tag as [[| | | s | |]|]; cbn [snd data];
    try (repeat split; try reflexivity; try discriminate; fail).
  destruct (bool_decide (s = js "completion")) eqn:Hc.
  { apply bool_decide_eq_true in Hc. subst s. cbn [snd data type isComplete].
    repeat split; try reflexivity; try discriminate; congruence. }
  apply bool_decide_eq_false in Hc.
  destruct (bool_decide (s = js "error")) eqn:He.
  { apply bool_decide_eq_true in He. subst s.
    cbn [snd data type isComplete error].
    repeat split; try reflexivity; try congruence. }
  apply bool_decide_eq_false in He.
  cbn [snd data type isComplete error content].
  repeat split; try reflexivity; try congruence.
Qed.

End Structured_parser.

Lemma structured_parser_total_witness :
  let o := snd (JsonOutputParser.parse toy_JSON_parse toy_JSON_stringify ()
                  error_record_text) in
  type o = Error ∧ error o = Some (JStr (js "boom"))
  ∧ snd (JsonOutputParser.parse toy_JSON_parse toy_JSON_stringify ()
           (js "not json")) = raw_output (js "not json").
Proof.
  cbv zeta.
  pose proof (structured_parser_total toy_JSON_parse toy_JSON_stringify ()
                error_record_text) as (_ & _ & _ & Hrec & _).
  destruct (Hrec (JObj [(js "type", JStr (js "error"));
                        (js "message", JStr (js "boom"))])
              (Some (JStr (js "error")))
              ltac:(vm_compute; reflexivity) ltac:(vm_compute; reflexivity))
    as (_ & _ & Herr & _).
  destruct (Herr eq_refl) as (Hty & Hmsg & _).
  split; [exact Hty |].
  split.
  { remember (error _) as e eqn:He in *. clear He.
    vm_compute in Hmsg. injection Hmsg as <-. reflexivity. }
  apply (proj1 (proj2 (structured_parser_total toy_JSON_parse
                         toy_JSON_stringify () (js "not json")))).
  vm_compute; reflexivity.
Defined.

(* --------------------------------------------------------------------- *)
(** ** Strings *)
(* --------------------------------------------------------------------- *)

Section Strings.

Lemma startsWith_app (s x p : jstring) :
  startsWith s p = true → startsWith (s ++ x) p = true.
Proof.
  revert s; induction p as [|a p IH]; intros [|b s]; cbn; try done.
  intros [Hab Hs]%andb_true_iff. by rewrite Hab, (IH _ Hs).
Qed.

Lemma includes_app (s x p : jstring) :
  includes s p = true → includes (s ++ x) p = true.
Proof.
  induction s as [|b s IH].
  - cbn [includes]. rewrite orb_false_r. destruct p; [|done].
    intros _. by destruct x.
  - change (includes (b :: s) p)
      with (startsWith (b :: s) p || includes s p).
    change (includes ((b :: s) ++ x) p)
      with (startsWith ((b :: s) ++ x) p || includes (s ++ x) p).
    intros [H | H]%orb_true_iff; apply orb_true_iff.
    + left. by apply startsWith_app.
    + right. by apply IH.
Qed.

Lemma startsWith_prefix (s p q : jstring) :
  startsWith s (p ++ q) = true → startsWith s p = true.
Proof.
  revert s; induction p as [|a p IH]; intros [|b s]; cbn; try done.
  intros [Hab Hs]%andb_true_iff. by rewrite Hab, (IH _ Hs).
Qed.

Lemma includes_prefix (s p q : jstring) :
  includes s (p ++ q) = true → includes s p = true.
Proof.
  induction s as [|b s IH].
  - cbn [includes]. rewrite !orb_false_r. apply startsWith_prefix.
  - change (includes (b :: s) (p ++ q))
      with (startsWith (b :: s) (p ++ q) || includes s (p ++ q)).
    change (includes (b :: s) p)
      with (startsWith (b :: s) p || includes s p).
    intros [H | H]%orb_true_iff; apply orb_true_iff.
    + left. by apply startsWith_prefix in H.
    + right. by apply IH.
Qed.

End Strings.

(* --------------------------------------------------------------------- *)
(** ** The heuristic parser *)
(* --------------------------------------------------------------------- *)

Section Heuristic_parser.
Import DefaultOutputParser.

Lemma parse_buffer p output :
  buffer (fst (parse p output)) = buffer p ++ output.
Proof.
  unfold parse. by repeat (destruct (_ || _)).
Qed.

Lemma parse_precedence p output :
  let b := buffer p ++ output in
  let o := snd (parse p output) in
  (completion_marker b = true →
     type o = Result ∧ isComplete o = Some true ∧ content o = JStr b)
  ∧ (completion_marker b = false → error_marker b = true →
     type o = Error ∧ isComplete o = None
     ∧ error o = Some (JStr (extractError b)))
  ∧ (completion_marker b = false → error_marker b = false →
     prompt_phrasing b = true → type o = Prompt ∧ isComplete o = None)
  ∧ (completion_marker b = false → error_marker b = false →
     prompt_phrasing b = false →
     type o = Raw ∧ isComplete o = None ∧ content o = JStr output).
Proof.
  cbv zeta. unfold parse, completion_marker, error_marker, prompt_phrasing.
  destruct (includes (buffer p ++ output) (js "Task completed")
            || includes (buffer p ++ output) (js "Done"));
    [by repeat split |].
  destruct (includes (buffer p ++ output) (js "Error:")
            || includes (buffer p ++ output) (js "Failed"));
    [by repeat split |].
  destruct (endsWith (buffer p ++ output) (js "?")
            || includes (buffer p ++ output) (js "Please provide"));
    by repeat split.
Qed.

Lemma feed_cons p c rest :
  feed p (c :: rest) =
    (fst (feed (fst (parse p c)) rest),
     snd (parse p c) :: snd (feed (fst (parse p c)) rest)).
Proof.
  cbn [feed]. destruct (parse p c) as [p1 o].
  cbn [fst snd]. by destruct (feed p1 rest).
Qed.

Lemma feed_length chunks : ∀ p, length (snd (feed p chunks)) = length chunks.
Proof.
  induction chunks as [|c rest IH]; intros p; [done |].
  rewrite feed_cons. cbn. by rewrite IH.
Qed.

Lemma feed_last chunks : ∀ p o,
  last (snd (feed p chunks)) = Some o →
  ∃ p' c, o = snd (parse p' c)
          ∧ buffer p' ++ c = buffer p ++ concat chunks.
Proof.
  induction chunks as [|c rest IH]; intros p o; [done |].
  rewrite feed_cons. cbn [snd]. rewrite last_cons.
  destruct (last (snd (feed (fst (parse p c)) rest))) as [o'|] eqn:Hl.
  - intros [= ->]. destruct (IH _ _ Hl) as (p' & c' & -> & Hb).
    exists p', c'. split; [done |].
    rewrite Hb, parse_buffer. cbn. by rewrite app_assoc.
  - intros [= <-]. apply last_None in Hl.
    assert (rest = []) as ->.
    { apply length_zero_iff_nil. rewrite <- (feed_length rest (fst (parse p c))).
      by rewrite Hl. }
    exists p, c. split; [done |]. cbn. by rewrite app_nil_r.
Qed.

Lemma errorMatch_unfold text :
  errorMatch text =
    match match_here text with
    | Some g => Some g
    | None => match text with [] => None | _ :: text' => errorMatch text' end
    end.
Proof. by destruct text. Qed.

Lemma errorMatch_first pre : ∀ rest g,
  indexOf (pre ++ rest) (js "Error:") = Some (length pre) →
  match_here rest = Some g →
  errorMatch (pre ++ rest) = Some g.
Proof.
  induction pre as [|a pre IH]; intros rest g Hidx Hm.
  - rewrite errorMatch_unfold. cbn [app]. by rewrite Hm.
  - rewrite errorMatch_unfold.
    change ((a :: pre) ++ rest) with (a :: (pre ++ rest)) in *.
    unfold match_here at 1.
    cbn [indexOf] in Hidx.
    destruct (startsWith (a :: pre ++ rest) (js "Error:")); [done |].
    apply IH; [| done].
    destruct (indexOf (pre ++ rest) (js "Error:")); [| done].
    cbn in Hidx. congruence.
Qed.

Lemma match_here_disk_full post :
  post = [] ∨ head post = Some 10 →
  match_here (js "Error: disk full" ++ post) = Some (js "disk full").
Proof.
  intros [-> | Hh]; [vm_compute; reflexivity |].
  destruct post as [|c post]; [done |]. injection Hh as ->.
  vm_compute; reflexivity.
Qed.

(** C2, as the code has it.  The classification of a chunk is decided
    on the accumulated buffer, in a fixed order: a completion marker
    ([Task completed] or [Done]) gives a result with [isComplete] true;
    otherwise an error marker ([Error:] or [Failed]) gives an error;
    otherwise a trailing question mark or [Please provide] gives a
    prompt; otherwise the chunk is raw.  For a fresh parser fed a
    sequence of chunks, and the classification of the last one: when the
    concatenation contains [Task completed] it is a result with
    [isComplete] true; when it contains [Error: disk full] and no
    completion marker it is an error whose message is the text the
    pattern extracts from the concatenation, and that text is
    [disk full] when this occurrence of [Error:] is the first one and
    [Error: disk full] is followed by a line feed or by the end of the
    buffer. *)
Theorem heuristic_parser_classification :
  (∀ p output,
     let b := buffer p ++ output in
     let o := snd (parse p output) in
     buffer (fst (parse p output)) = b
     ∧ (completion_marker b = true →
        type o = Result ∧ isComplete o = Some true ∧ content o = JStr b)
     ∧ (completion_marker b = false → error_marker b = true →
        type o = Error ∧ isComplete o = None
        ∧ error o = Some (JStr (extractError b)))
     ∧ (completion_marker b = false → error_marker b = false →
        prompt_phrasing b = true → type o = Prompt ∧ isComplete o = None)
     ∧ (completion_marker b = false → error_marker b = false →
        prompt_phrasing b = false →
        type o = Raw ∧ isComplete o = None ∧ content o = JStr output))
  ∧ (∀ chunks o,
       last (snd (feed new chunks)) = Some o →
       let b := concat chunks in
       (includes b (js "Task completed") = true →
        type o = Result ∧ isComplete o = Some true)
       ∧ (includes b (js "Error: disk full") = true →
          completion_marker b = false →
          type o = Error
          ∧ error o = Some (JStr (extractError b))
          ∧ ∀ pre post,
              b = pre ++ js "Error: disk full" ++ post →
              indexOf b (js "Error:") = Some (length pre) →
              post = [] ∨ head post = Some 10 →
              error o = Some (JStr (js "disk full")))).
Proof.
  split.
  - intros p output. cbv zeta. split; [apply parse_buffer |].
    apply parse_precedence.
  - intros chunks o Hlast. cbv zeta.
    destruct (feed_last _ _ _ Hlast) as (p & c & -> & Hb).
    cbn [buffer new app] in Hb.
    destruct (parse_precedence p c) as (Hres & Herr & _).
    rewrite Hb in Hres, Herr. split.
    + intros Hin. destruct Hres as (? & ? & _); [| done].
      unfold completion_marker. by rewrite Hin.
    + intros Hin Hnc.
      assert (Hem : error_marker (concat chunks) = true).
      { unfold error_marker.
        change (js "Error: disk full") with (js "Error:" ++ js " disk full")
          in Hin.
        by rewrite (includes_prefix _ _ _ Hin). }
      destruct (Herr Hnc Hem) as (Hty & _ & Hmsg).
      split; [done |]. split; [done |].
      intros pre post Hsplit Hidx Hpost. rewrite Hmsg.
      unfold extractError. rewrite Hsplit in Hidx |- *.
      by rewrite (errorMatch_first pre _ _ Hidx
                    (match_here_disk_full post Hpost)).
Qed.

Lemma heuristic_parser_classification_witness :
  ∃ o, last (snd (feed new [js "Error: di"; js "sk full"])) = Some o
       ∧ type o = Error ∧ error o = Some (JStr (js "disk full")).
Proof.
  eexists. split; [reflexivity |].
  destruct (proj2 heuristic_parser_classification
              [js "Error: di"; js "sk full"] _ eq_refl) as (_ & Herr).
  destruct (Herr ltac:(vm_compute; reflexivity) ltac:(vm_compute; reflexivity))
    as (Hty & _ & Hmsg).
  split; [exact Hty |].
  apply (Hmsg [] []); [reflexivity | vm_compute; reflexivity | by left].
Defined.

(** C2 as stated fails: a buffer that contains [Error: disk full] and
    no completion marker, whose extracted message is not [disk full]. *)
Lemma extracted_message_runs_to_end_of_line :
  let b := js "Error: disk full today" in
  let o := snd (parse new b) in
  includes b (js "Error: disk full") = true
  ∧ completion_marker b = false
  ∧ type o = Error
  ∧ error o = Some (JStr (js "disk full today"))
  ∧ error o ≠ Some (JStr (js "disk full")).
Proof. cbv zeta. repeat split; try (vm_compute; reflexivity). vm_compute. discriminate. Qed.

End Heuristic_parser.

(* --------------------------------------------------------------------- *)
(** ** The communicator: what its operations leave alone *)
(* --------------------------------------------------------------------- *)

Section Communicator_frame.
Import ClaudeCodeCommunicator.
Context {P : Type} `{OutputParser P}.
Implicit Types (c : t P) (k : nat) (sid : jstring).

(** What a call of a handler leaves alone. *)
Lemma call_handler_frame h o c :
  parser (call_handler h o c) = parser c
  ∧ emitted (call_handler h o c) = emitted c
  ∧ next_waiter (call_handler h o c) = next_waiter c
  ∧ clock (call_handler h o c) = clock c.
Proof.
  unfold call_handler. destruct h as [k s | h]; [| done].
  destruct (terminal o); [| done]. by destruct (bool_decide _).
Qed.

Lemma fire_due_frame n c :
  parser (fire_due n c) = parser c
  ∧ emitted (fire_due n c) = emitted c
  ∧ next_waiter (fire_due n c) = next_waiter c
  ∧ clock (fire_due n c) = clock c.
Proof.
  induction n as [|n IH]; [done |]. cbn [fire_due].
  destruct (timers (fire_due n c) !! n) as [tm|]; [| done].
  by destruct (decide _).
Qed.

(** The parser after one step. *)
Lemma step_parser c a :
  parser (step c a) =
    match a with
    | spawner_emits (output_event _ data) => fst (parse (parser c) data)
    | _ => parser c
    end.
Proof.
  destruct a as [s h | s | s ms | | ev |]; try done.
  - destruct ev as [| s data | | |]; try done. cbn [step on_spawner_event].
    destruct (parse (parser c) data) as [p o]. cbn [fst].
    destruct (outputHandlers _ !! s) as [h|]; [| done].
    by rewrite (proj1 (call_handler_frame _ _ _)).
  - unfold step, tick. by rewrite (proj1 (fire_due_frame _ _)).
Qed.

(** What an output event emits. *)
Lemma output_event_emitted c s data :
  emitted (step c (spawner_emits (output_event s data))) =
    emitted c ++ [parsed_output s (snd (parse (parser c) data))].
Proof.
  cbn [step on_spawner_event].
  destruct (parse (parser c) data) as [p o]. cbn [snd].
  destruct (outputHandlers _ !! s) as [h|]; [| done].
  by rewrite (proj1 (proj2 (call_handler_frame _ _ _))).
Qed.

End Communicator_frame.

(* --------------------------------------------------------------------- *)
(** ** One parser for all sessions *)
(* --------------------------------------------------------------------- *)

Section Shared_buffer.
Import ClaudeCodeCommunicator.

Lemma run_buffer actions : ∀ c : ClaudeCodeCommunicator.t DefaultOutputParser.t,
  DefaultOutputParser.buffer (parser (run c actions)) =
    DefaultOutputParser.buffer (parser c) ++ concat (output_data <$> actions).
Proof.
  induction actions as [|a rest IH]; intros c.
  - cbn. by rewrite app_nil_r.
  - cbn [run foldl fmap list_fmap concat]. fold (run (step c a) rest).
    rewrite IH, step_parser, app_assoc. f_equal.
    destruct a as [| | | | [] |]; cbn [output_data]; rewrite ?app_nil_r; try done.
    apply parse_buffer.
Qed.

Lemma completion_marker_app b x :
  completion_marker b = true → completion_marker (b ++ x) = true.
Proof.
  unfold completion_marker.
  intros [Hc | Hc]%orb_true_iff; apply orb_true_iff;
    [left | right]; by apply includes_app.
Qed.

(** C10. The communicator gives every output event, whatever its
    session, to its one parser, and no action of the communicator
    empties the buffer of that parser: after any execution the buffer is
    the buffer before it followed by the data of all the output events,
    in order.  Hence, once the buffer contains a completion marker,
    every later output event of every session is classified as a result
    with [isComplete] true, whatever its data. *)
Theorem heuristic_buffer_shared
    (c : ClaudeCodeCommunicator.t DefaultOutputParser.t)
    (actions : list Action) :
  let c' := run c actions in
  DefaultOutputParser.buffer (parser c') = DefaultOutputParser.buffer (parser c) ++ concat (output_data <$> actions)
  ∧ (completion_marker (DefaultOutputParser.buffer (parser c)) = true →
     ∀ sessionId data,
       ∃ o, emitted (step c' (spawner_emits (output_event sessionId data)))
              = emitted c' ++ [parsed_output sessionId o]
            ∧ type o = Result ∧ isComplete o = Some true).
Proof.
  cbv zeta. split; [apply run_buffer |].
  intros Hc sessionId data. eexists. split; [apply output_event_emitted |].
  change (@parse _ DefaultOutputParser_parser)
    with DefaultOutputParser.parse.
  destruct (parse_precedence (parser (run c actions)) data) as (Hres & _).
  destruct Hres as (? & ? & _); [| done].
  rewrite run_buffer. by do 2 apply completion_marker_app.
Qed.

(** Two sessions on one communicator: the chunk [hello] of session [b]
    is a result after session [a] printed [Done], and raw without it. *)
Lemma heuristic_buffer_shared_witness :
  let c0 := ClaudeCodeCommunicator.new DefaultOutputParser.new in
  let a_done := spawner_emits (output_event (js "a") (js "Done")) in
  let b_hello := spawner_emits (output_event (js "b") (js "hello")) in
  (∃ o, emitted (step (run (step c0 a_done) []) b_hello)
          = emitted (run (step c0 a_done) []) ++ [parsed_output (js "b") o]
        ∧ type o = Result ∧ isComplete o = Some true)
  ∧ emitted (step c0 b_hello)
      = [parsed_output (js "b")
           {| type := Raw; content := JStr (js "hello"); data := None;
              isComplete := None; error := None |}].
Proof.
  cbv zeta. split; [| reflexivity].
  apply (proj2 (heuristic_buffer_shared
                  (step (ClaudeCodeCommunicator.new DefaultOutputParser.new)
                     (spawner_emits (output_event (js "a") (js "Done"))))
                  [])).
  vm_compute; reflexivity.
Defined.

End Shared_buffer.

(* --------------------------------------------------------------------- *)
(** ** The output buffer of a session *)
(* --------------------------------------------------------------------- *)

Section Output_buffer.
Import ClaudeCodeProcessSpawner.
Implicit Types (st : ClaudeCodeProcessSpawner.t) (s : ClaudeCodeSession.t).

Lemma push_bounded_last100 (buf : list jstring) (data : jstring) :
  (length buf ≤ 100)%nat → push_bounded buf data = last100 (buf ++ [data]).
Proof.
  intros Hlen. unfold push_bounded, last100. rewrite length_app. cbn [length].
  destruct (decide _) as [Hgt | Hle].
  - by replace (length buf + 1 - 100)%nat with 1%nat by lia.
  - by replace (length buf + 1 - 100)%nat with 0%nat by lia.
Qed.

Lemma last100_length {A} (l : list A) : (length (last100 l) ≤ 100)%nat.
Proof. unfold last100. rewrite length_drop. lia. Qed.

Lemma last100_app {A} (l k : list A) :
  last100 (last100 l ++ k) = last100 (l ++ k).
Proof.
  unfold last100. rewrite !length_app, length_drop.
  destruct (decide (length l ≤ 100)%nat) as [Hle | Hgt].
  - replace (length l - 100)%nat with 0%nat by lia. cbn [drop].
    f_equal. lia.
  - replace (length l - (length l - 100) + length k - 100)%nat
      with (length k) by lia.
    rewrite <- (drop_app_le l k (length l - 100)) by lia.
    rewrite drop_drop. f_equal. lia.
Qed.

Lemma update_session_lookup st r f r' s' :
  sessions (update_session r f st) !! r' = Some s' →
  ∃ s, sessions st !! r' = Some s ∧ (s' = s ∨ s' = f s).
Proof.
  cbn. destruct (decide (r = r')) as [-> | Hne].
  - rewrite lookup_alter_eq. destruct (sessions st !! r') as [s|]; [| done].
    intros [= <-]. eauto.
  - rewrite lookup_alter_ne by done. eauto.
Qed.

Lemma onData_session_buffer t data s :
  ClaudeCodeSession.outputBuffer (onData_session t data s) =
    push_bounded (ClaudeCodeSession.outputBuffer s) data.
Proof.
  unfold onData_session. cbn.
  destruct (ClaudeCodeSession.state s); try done.
  by destruct (includes data _).
Qed.

Lemma step_sessions st a r s' :
  sessions (step st a) !! r = Some s' →
  ClaudeCodeSession.outputBuffer s' = []
  ∨ ∃ s, sessions st !! r = Some s ∧ buffer_kept_or_pushed s s'.
Proof.
  unfold buffer_kept_or_pushed.
  destruct a as [e o | sid input t | sid force t | i t | r0 data t | r0 code];
    cbn [step].
  - unfold spawn. destruct (pty_pid e) as [pid | err]; cbn [fst].
    + destruct (negb _ && negb _); cbn;
        (destruct (decide (next_ref st = r)) as [-> | Hne];
         [rewrite lookup_insert_eq; intros [= <-]; by left
         | rewrite lookup_insert_ne by done; eauto]).
    + cbn. eauto.
  - unfold write. destruct (activeSessions st !! sid) as [r1|]; [| eauto].
    intros (s & Hs & [-> | ->])%update_session_lookup; cbn in Hs; eauto.
  - unfold stop. destruct (activeSessions st !! sid) as [r1|]; [| cbn; eauto].
    destruct force; [| cbn; eauto]. unfold stop_finish.
    cbn [sessions emit set_activeSessions].
    intros (s & Hs & [-> | ->])%update_session_lookup; cbn in Hs; eauto.
  - unfold wake. destruct (sleepers st !! i) as [sl|]; [| eauto].
    destruct (decide _); [| eauto].
    destruct sl as [w sid task pid r1 | w sid r1].
    + unfold spawn_resume, sendTask. cbn.
      destruct (activeSessions st !! sid); cbn; eauto.
    + unfold stop_resume, stop_finish. cbn.
      destruct (activeSessions st !! sid); cbn;
        (destruct (decide (r1 = r)) as [-> | Hne];
         [rewrite lookup_alter_eq;
          destruct (sessions st !! r) as [s|]; [| done];
          intros [= <-]; eauto
         | rewrite lookup_alter_ne by done; eauto]).
  - unfold onData. destruct (sessions st !! r0) as [s0|] eqn:Hs0; [| eauto].
    cbn [sessions logger emit].
    intros (s & Hs & [-> | ->])%update_session_lookup; [eauto |].
    right. exists s. split; [done |]. right. exists data.
    apply onData_session_buffer.
  - unfold onExit. destruct (sessions st !! r0) as [s0|] eqn:Hs0; [| eauto].
    cbn [sessions logger emit set_activeSessions].
    intros (s & Hs & [-> | ->])%update_session_lookup; cbn in Hs; eauto.
Qed.

Lemma push_bounded_length (buf : list jstring) data :
  (length buf ≤ 100)%nat → (length (push_bounded buf data) ≤ 100)%nat.
Proof.
  intros Hlen. rewrite push_bounded_last100 by done. apply last100_length.
Qed.

Lemma step_buffers_bounded st a :
  buffers_bounded st → buffers_bounded (step st a).
Proof.
  intros Hb r s' [Hnil | (s & Hs & [Heq | [data Heq]])]%step_sessions.
  - rewrite Hnil. cbn. lia.
  - rewrite Heq. by apply (Hb r).
  - rewrite Heq. apply push_bounded_length. by apply (Hb r).
Qed.

Lemma run_buffers_bounded actions : ∀ st,
  buffers_bounded st → buffers_bounded (run st actions).
Proof.
  induction actions as [|a rest IH]; intros st Hb; [done |].
  apply (IH (step st a)). by apply step_buffers_bounded.
Qed.

Lemma onData_buffer st r s data t :
  sessions st !! r = Some s →
  ∃ s', sessions (onData r data t st) !! r = Some s'
        ∧ ClaudeCodeSession.outputBuffer s' =
            push_bounded (ClaudeCodeSession.outputBuffer s) data.
Proof.
  intros Hs. unfold onData. rewrite Hs. cbn.
  rewrite lookup_alter_eq, Hs. cbn. eexists. split; [done |].
  apply onData_session_buffer.
Qed.

Lemma output_callbacks_buffer r chunks : ∀ st s,
  buffers_bounded st →
  sessions st !! r = Some s →
  ∃ s', sessions (run st (output_callbacks r chunks)) !! r = Some s'
        ∧ ClaudeCodeSession.outputBuffer s' =
            last100 (ClaudeCodeSession.outputBuffer s ++ chunks.*1).
Proof.
  induction chunks as [|[d t] rest IH]; intros st s Hb Hs.
  - exists s. split; [done |]. cbn. rewrite app_nil_r.
    unfold last100. specialize (Hb r s Hs).
    by replace (length (ClaudeCodeSession.outputBuffer s) - 100)%nat
      with 0%nat by lia.
  - cbn [output_callbacks fmap list_fmap run foldl step fst snd].
    destruct (onData_buffer st r s d t Hs) as (s1 & Hs1 & Hb1).
    destruct (IH (onData r d t st) s1) as (s' & Hs' & Hb'); [| done |].
    { apply (step_buffers_bounded st (pty_data r d t) Hb). }
    exists s'. split; [exact Hs' |].
    rewrite Hb', Hb1, push_bounded_last100 by (by apply (Hb r)).
    rewrite last100_app. cbn. by rewrite <- app_assoc.
Qed.

(** C8. In every state the spawner can reach, every session object
    holds at most 100 chunks.  An output callback appends its chunk,
    after dropping the oldest chunk when the buffer already holds 100;
    so after any sequence of output callbacks of a session the buffer
    holds the last 100 chunks of what it held followed by the new
    chunks, in the order of arrival. *)
Theorem output_buffer_bounded (agent : AgentConfig.t)
    (actions : list Action) :
  let st := run (new agent) actions in
  (∀ r s, sessions st !! r = Some s →
     (length (ClaudeCodeSession.outputBuffer s) ≤ 100)%nat
     ∧ (∀ data t,
          ∃ s', sessions (step st (pty_data r data t)) !! r = Some s'
                ∧ (length (ClaudeCodeSession.outputBuffer s') ≤ 100)%nat
                ∧ ClaudeCodeSession.outputBuffer s' =
                    if decide (length (ClaudeCodeSession.outputBuffer s) = 100)%nat
                    then drop 1 (ClaudeCodeSession.outputBuffer s) ++ [data]
                    else ClaudeCodeSession.outputBuffer s ++ [data])
     ∧ (∀ chunks,
          ∃ s', sessions (run st (output_callbacks r chunks)) !! r = Some s'
                ∧ ClaudeCodeSession.outputBuffer s' =
                    last100 (ClaudeCodeSession.outputBuffer s ++ chunks.*1))).
Proof.
  cbv zeta. intros r s Hs.
  assert (Hb : buffers_bounded (run (new agent) actions)).
  { apply run_buffers_bounded. intros r' s' Hs'. cbn in Hs'.
    by rewrite lookup_empty in Hs'. }
  split; [by apply (Hb r) | split].
  - intros data t. cbn [step].
    destruct (onData_buffer _ r s data t Hs) as (s' & Hs' & Hb').
    exists s'. split; [exact Hs' |]. rewrite Hb'. split.
    + apply push_bounded_length. by apply (Hb r).
    + specialize (Hb r s Hs). unfold push_bounded. rewrite length_app.
      cbn [length]. destruct (decide (length _ = 100)%nat) as [He | Hne].
      * destruct (decide _) as [_ | Hn]; [| lia].
        rewrite drop_app_le by lia. done.
      * destruct (decide _) as [Hgt | _]; [lia | done].
  - intros chunks. by apply output_callbacks_buffer.
Qed.

Lemma output_buffer_bounded_witness :
  ∃ s', sessions (run one_session (output_callbacks 0 numbered_chunks))
          !! 0%nat = Some s'
        ∧ ClaudeCodeSession.outputBuffer s' = drop 1 numbered_chunks.*1.
Proof.
  pose proof (output_buffer_bounded test_agent
                [call_spawn (spawn_env 1700000000000 (js "0.4fzyo82mvyr") 4242)
                   (continue_options (js "Continue"))]) as Hthm.
  cbv zeta in Hthm.
  edestruct (Hthm 0%nat) as (_ & _ & Hseq); [vm_compute; reflexivity |].
  destruct (Hseq numbered_chunks) as (s' & Hs' & Hb').
  exists s'. split; [exact Hs' |]. rewrite Hb'. vm_compute. reflexivity.
Defined.

End Output_buffer.

(* --------------------------------------------------------------------- *)
(** ** Session ids *)
(* --------------------------------------------------------------------- *)

Section Session_ids.
Import ClaudeCodeProcessSpawner.

Lemma js_inj (s1 s2 : string) : js s1 = js s2 → s1 = s2.
Proof.
  unfold js. intros Heq.
  apply (f_equal (fmap ascii_of_N)) in Heq.
  rewrite <- !list_fmap_compose in Heq.
  rewrite !(list_fmap_ext (ascii_of_N ∘ (λ a, N_of_ascii a)) id) in Heq
    by (intros; apply ascii_N_embedding).
  rewrite !list_fmap_id in Heq.
  rewrite <- (string_of_list_ascii_of_string s1),
    <- (string_of_list_ascii_of_string s2).
  by rewrite Heq.
Qed.

Lemma String_of_Z_inj (a b : Z) : String_of_Z a = String_of_Z b → a = b.
Proof.
  unfold String_of_Z. intros Heq%js_inj.
  apply (f_equal NilZero.int_of_string) in Heq.
  assert (Hnz : ∀ z, Z.to_int z ≠ Decimal.Pos Decimal.Nil
                     ∧ Z.to_int z ≠ Decimal.Neg Decimal.Nil).
  { intros [|p|p]; cbn; split; try discriminate;
      intros [= Hp]; by apply Unsigned.to_uint_nonnil in Hp. }
  rewrite !NilZero.isi in Heq by apply Hnz.
  injection Heq as Heq. apply (f_equal Z.of_int) in Heq.
  by rewrite !DecimalZ.of_to in Heq.
Qed.

(** A list is cut at its last separator in one way only. *)
Lemma cut_at_last_separator (c : N) (l1 : jstring) : ∀ l2 s1 s2 : jstring,
  c ∉ s1 → c ∉ s2 → l1 ++ c :: s1 = l2 ++ c :: s2 → l1 = l2 ∧ s1 = s2.
Proof.
  induction l1 as [|a l1 IH]; intros [|b l2] s1 s2 H1 H2 Heq; cbn in Heq.
  - by injection Heq.
  - injection Heq as _ Hs. exfalso. apply H1. rewrite Hs. apply elem_of_app; right; left.
  - injection Heq as _ Hs. exfalso. apply H2. rewrite <- Hs. apply elem_of_app; right; left.
  - injection Heq as -> Heq. destruct (IH l2 s1 s2 H1 H2 Heq) as [-> ->]. done.
Qed.

Lemma base36_no_hyphen (s : jstring) :
  Forall (λ c, base36_digit c = true) s → 45 ∉ s.
Proof.
  intros Hall Hin. rewrite Forall_forall in Hall.
  specialize (Hall _ Hin). discriminate Hall.
Qed.

Lemma generateSessionId_inj agent_id t1 r1 t2 r2 :
  Forall (λ c, base36_digit c = true) (substr 2 9 r1) →
  Forall (λ c, base36_digit c = true) (substr 2 9 r2) →
  generateSessionId agent_id t1 r1 = generateSessionId agent_id t2 r2 →
  t1 = t2 ∧ substr 2 9 r1 = substr 2 9 r2.
Proof.
  intros H1%base36_no_hyphen H2%base36_no_hyphen. unfold generateSessionId.
  intros Heq.
  do 3 apply app_inv_head in Heq.
  change (js "-") with [45] in Heq. cbn [app] in Heq.
  destruct (cut_at_last_separator 45 _ _ _ _ H1 H2 Heq) as [Ht Hs].
  split; [by apply String_of_Z_inj | done].
Qed.

(** The id of the session a spawn creates, and where the session goes. *)
Lemma spawn_registers e o st pid :
  pty_pid e = Ok pid →
  let sid := generateSessionId (AgentConfig.id (agent st)) (now e)
               (random36 e) in
  let st' := fst (spawn e o st) in
  activeSessions st' = <[sid := next_ref st]> (activeSessions st)
  ∧ (ClaudeCodeSession.sessionId <$> sessions st' !! next_ref st) = Some sid
  ∧ next_ref st' = S (next_ref st).
Proof.
  intros Hpid. cbv zeta. unfold spawn. rewrite Hpid.
  destruct (negb _ && negb _); cbn; by rewrite lookup_insert_eq.
Qed.

Lemma generateSessionId_NoDup (agent_id : jstring)
    (draws : list (Z * jstring)) :
  Forall (λ d, Forall (λ c, base36_digit c = true) (substr 2 9 d.2)) draws →
  NoDup ((λ d, generateSessionId agent_id d.1 d.2) <$> draws)
  ↔ NoDup ((λ d, (d.1, substr 2 9 d.2)) <$> draws).
Proof.
  intros Hdigits.
  set (key := λ d : Z * jstring, (d.1, substr 2 9 d.2)).
  set (render := λ k : Z * jstring,
         js "cc-" ++ agent_id ++ js "-" ++ String_of_Z k.1 ++ js "-" ++ k.2).
  assert (Hfactor : (λ d : Z * jstring, generateSessionId agent_id d.1 d.2)
                      <$> draws = render <$> (key <$> draws)).
  { rewrite <- list_fmap_compose. by apply list_fmap_ext. }
  rewrite Hfactor. split.
  - apply NoDup_fmap_1.
  - apply NoDup_fmap_2_strong.
    intros k1 k2 (d1 & -> & Hd1)%list_elem_of_fmap (d2 & -> & Hd2)%list_elem_of_fmap Heq.
    rewrite Forall_forall in Hdigits.
    destruct (generateSessionId_inj agent_id d1.1 d1.2 d2.1 d2.2
                (Hdigits _ Hd1) (Hdigits _ Hd2) Heq) as [Ht Hs].
    unfold key. by rewrite Ht, Hs.
Qed.

Lemma spawn_agent e o st : agent (fst (spawn e o st)) = agent st.
Proof.
  unfold spawn. destruct (pty_pid e); [| done].
  by destruct (negb _ && negb _).
Qed.

Lemma spawn_heap_frame e o st r :
  r ≠ next_ref st → sessions (fst (spawn e o st)) !! r = sessions st !! r.
Proof.
  intros Hne. unfold spawn. destruct (pty_pid e); [| done].
  destruct (negb _ && negb _); cbn; by rewrite lookup_insert_ne.
Qed.

Lemma spawn_calls_frame calls : ∀ st r,
  Forall (λ c, pty_spawn_succeeds c.1) calls →
  (r < next_ref st)%nat →
  sessions (run st (spawn_calls calls)) !! r = sessions st !! r
  ∧ agent (run st (spawn_calls calls)) = agent st.
Proof.
  induction calls as [|[e o] rest IH]; intros st r Hok Hr; [done |].
  inversion Hok as [|? ? [pid Hpid] Hok']; subst.
  cbn [spawn_calls fmap list_fmap run foldl step fst snd].
  destruct (spawn_registers e o st pid Hpid) as (_ & _ & Hnext).
  destruct (IH (fst (spawn e o st)) r Hok') as [Hs Ha]; [lia |].
  fold (spawn_calls rest). fold (run (fst (spawn e o st)) (spawn_calls rest)).
  rewrite Hs, Ha, spawn_agent. split; [| done].
  apply spawn_heap_frame. lia.
Qed.

Lemma created_ids_generated calls : ∀ st,
  Forall (λ c, pty_spawn_succeeds c.1) calls →
  created_ids st (run st (spawn_calls calls)) (length calls) =
    (λ c, Some (generateSessionId (AgentConfig.id (agent st))
                  (now c.1) (random36 c.1))) <$> calls.
Proof.
  induction calls as [|[e o] rest IH]; intros st Hok; [done |].
  inversion Hok as [|? ? [pid Hpid] Hok']; subst.
  unfold created_ids.
  cbn [spawn_calls fmap list_fmap run foldl step fst snd length seq].
  fold (spawn_calls rest). fold (run (fst (spawn e o st)) (spawn_calls rest)).
  destruct (spawn_registers e o st pid Hpid) as (_ & Hid & Hnext).
  cbn [fst snd] in *. f_equal.
  - destruct (spawn_calls_frame rest (fst (spawn e o st)) (next_ref st) Hok')
      as [-> _]; [lia | done].
  - specialize (IH (fst (spawn e o st)) Hok'). unfold created_ids in IH.
    rewrite Hnext, spawn_agent in IH. exact IH.
Qed.

(** The ids of sequential spawns.  The session objects created by
    [n] calls of [spawn] on one spawner carry the ids built from the
    agent id, the clock reading and the random suffix of each call;
    these ids are pairwise distinct exactly when the pairs of clock
    reading and random suffix are.  (The suffix is the text
    [Math.random().toString(36)] shows after [0.], cut to nine
    characters: digits and lower-case letters.) *)
Theorem session_ids_distinct (st : ClaudeCodeProcessSpawner.t)
    (calls : list (SpawnEnv * ClaudeCodeSpawnOptions.t)) :
  Forall (λ c, pty_spawn_succeeds c.1) calls →
  Forall (λ c, Forall (λ d, base36_digit d = true)
                 (substr 2 9 (random36 c.1))) calls →
  let ids := created_ids st (run st (spawn_calls calls)) (length calls) in
  ids = (λ c, Some (generateSessionId (AgentConfig.id (agent st))
                      (now c.1) (random36 c.1))) <$> calls
  ∧ (NoDup ids ↔
       NoDup ((λ c, (now c.1, substr 2 9 (random36 c.1))) <$> calls)).
Proof.
  intros Hok Hdigits. cbv zeta.
  rewrite (created_ids_generated calls st Hok). split; [done |].
  set (draw := λ c : SpawnEnv * ClaudeCodeSpawnOptions.t,
         (now c.1, random36 c.1)).
  assert (Hd : Forall (λ d : Z * jstring,
                  Forall (λ c, base36_digit c = true) (substr 2 9 d.2))
                 (draw <$> calls)).
  { rewrite Forall_fmap. exact Hdigits. }
  pose proof (generateSessionId_NoDup (AgentConfig.id (agent st))
                (draw <$> calls) Hd) as Hnd.
  rewrite <- !list_fmap_compose in Hnd.
  etransitivity; [| exact Hnd].
  change (λ c : SpawnEnv * ClaudeCodeSpawnOptions.t,
            Some (generateSessionId (AgentConfig.id (agent st))
                    (now c.1) (random36 c.1)))
    with (Some ∘ ((λ d : Z * jstring,
                     generateSessionId (AgentConfig.id (agent st)) d.1 d.2)
                  ∘ draw)).
  rewrite (list_fmap_compose _ Some). apply NoDup_fmap. apply _.
Qed.

Lemma session_ids_distinct_witness :
  NoDup (created_ids (new test_agent)
           (run (new test_agent) (spawn_calls calls_one_ms_apart)) 2).
Proof.
  apply (proj2 (session_ids_distinct (new test_agent) calls_one_ms_apart
                  ltac:(repeat constructor; eexists; reflexivity)
                  ltac:(repeat constructor))).
  decide_by_computation.
Defined.

(** C9 fails on the code.  [generateSessionId] builds the id from the
    agent id, the clock reading and nine digits of the random draw, and
    [spawn] does not look the id up in the registry.  Two sequential
    spawns on one agent within the same millisecond (a spawn that
    continues a conversation does not sleep) that draw the same digits
    get the same id: the ids are not pairwise distinct.  The registry,
    keyed by the id, then holds the second session alone: [getSession]
    with the id returns the second session, the first session object
    stays in state [starting] and its process has received nothing, and
    a forced [stop] of the id kills the second process only and leaves
    the registry empty, the first session still [starting]. *)
Theorem same_draw_same_session_id :
  let st' := run (new test_agent) (spawn_calls calls_same_ms) in
  let st'' := stop one_session_id true 1700000000001 st' in
  created_ids (new test_agent) st' 2
    = [Some one_session_id; Some one_session_id]
  ∧ ¬ NoDup (created_ids (new test_agent) st' 2)
  ∧ activeSessions st' = {[ one_session_id := 1%nat ]}
  ∧ (ClaudeCodeSession.pid <$> getSession one_session_id st') = Some 4243%Z
  ∧ ((λ s, (ClaudeCodeSession.pid s, ClaudeCodeSession.state s))
       <$> sessions st' !! 0%nat) = Some (4242%Z, starting)
  ∧ pty_ops st' = []
  ∧ pty_ops st'' = [(1%nat, pty_kill (js "SIGKILL"))]
  ∧ activeSessions st'' = ∅
  ∧ (ClaudeCodeSession.state <$> sessions st'' !! 0%nat) = Some starting.
Proof.
  cbv zeta. split; [vm_compute; reflexivity |].
  split; [decide_by_computation |].
  assert (Hreg' : activeSessions
                    (run (new test_agent) (spawn_calls calls_same_ms))
                  = {[ one_session_id := 1%nat ]}).
  { apply map_eq. intros k.
    destruct (decide (k = one_session_id)) as [-> | Hne].
    - vm_compute; reflexivity.
    - rewrite lookup_singleton_ne by done.
      destruct (spawn_registers
                  (spawn_env 1700000000000 (js "0.4fzyo82mvyr") 4243)
                  (continue_options (js "Continue")) one_session 4243 eq_refl)
        as (Hreg & _).
      cbv zeta in Hreg.
      change (run (new test_agent) (spawn_calls calls_same_ms))
        with (fst (spawn (spawn_env 1700000000000 (js "0.4fzyo82mvyr") 4243)
                     (continue_options (js "Continue")) one_session)).
      rewrite Hreg, lookup_insert_ne
        by (intros Heq; apply Hne; rewrite <- Heq; vm_compute; reflexivity).
      destruct (spawn_registers
                  (spawn_env 1700000000000 (js "0.4fzyo82mvyr") 4242)
                  (continue_options (js "Continue")) (new test_agent) 4242
                  eq_refl) as (Hreg0 & _).
      cbv zeta in Hreg0. unfold one_session. rewrite Hreg0.
      rewrite lookup_insert_ne
        by (intros Heq; apply Hne; rewrite <- Heq; vm_compute; reflexivity).
      apply lookup_empty. }
  split; [exact Hreg' |].
  split; [vm_compute; reflexivity |]. split; [vm_compute; reflexivity |].
  split; [vm_compute; reflexivity |]. split; [vm_compute; reflexivity |].
  split; [| vm_compute; reflexivity].
  revert Hreg'.
  generalize (run (new test_agent) (spawn_calls calls_same_ms)).
  intros st' Hreg'. unfold stop. rewrite Hreg', lookup_singleton_eq. cbn.
  rewrite Hreg'. apply delete_singleton_eq.
Qed.

End Session_ids.

(* --------------------------------------------------------------------- *)
(** ** Stopping a session whose process exits *)
(* --------------------------------------------------------------------- *)

Section Stop_and_exit.
Import ClaudeCodeProcessSpawner.

(** C3 fails on the code.  When the process exits during the grace
    window, the exit callback removes the session and emits [stopped];
    [stop] then resumes, sends no signal (the session is no longer
    registered) and still emits a second [stopped].  Likewise the exit
    callback that follows a forced stop emits a second [stopped] for a
    session [stop] has already removed. *)
Theorem stopped_emitted_twice :
  let st1 := run one_session exit_during_grace_window in
  let st2 := run one_session exit_after_forced_stop in
  stopped_events one_session_id (emitted st1)
    = [stopped_event one_session_id (Some 130%Z);
       stopped_event one_session_id None]
  ∧ pty_ops st1 = [(0%nat, pty_write [3])]
  ∧ activeSessions st1 !! one_session_id = None
  ∧ stopped_events one_session_id (emitted st2)
      = [stopped_event one_session_id None;
         stopped_event one_session_id (Some 137%Z)]
  ∧ pty_ops st2 = [(0%nat, pty_kill (js "SIGKILL"))]
  ∧ activeSessions st2 !! one_session_id = None.
Proof. cbv zeta. repeat split; vm_compute; reflexivity. Qed.

End Stop_and_exit.

(* --------------------------------------------------------------------- *)
(** ** Waiting for completion *)
(* --------------------------------------------------------------------- *)

Section Completion_wait.
Import ClaudeCodeCommunicator.
Context {P : Type} `{OutputParser P}.
Implicit Types (c : t P) (k : nat) (sid : jstring) (D : Z).

(** *** Timers *)

(** A property that every firing of a timer in a range of numbers
    preserves is preserved by [fire_due] over that range. *)
Lemma fire_due_preserves (Q : t P → Prop) (a : nat) (c : t P) : ∀ b,
  (a ≤ b)%nat →
  (∀ c' n tm, (a ≤ n < b)%nat → Q c' → timers c' !! n = Some tm →
     (deadline tm ≤ clock c')%Z →
     Q (on_timeout n (timer_session tm) (clearTimeout n c'))) →
  Q (fire_due a c) → Q (fire_due b c).
Proof.
  induction b as [|b IH]; intros Hab Hfire Ha.
  - by replace a with 0%nat in Ha by lia.
  - destruct (decide (a = S b)) as [-> | Hne]; [done |].
    assert (Hb : Q (fire_due b c)).
    { apply IH; [lia | | done]. intros c' n tm Hn. apply Hfire. lia. }
    cbn [fire_due]. destruct (timers (fire_due b c) !! b) as [tm|] eqn:Htm;
      [| done].
    destruct (decide _); [| done]. apply (Hfire _ b tm); [lia | done..].
Qed.

Lemma tick_preserves (Q : t P → Prop) (c : t P) :
  (∀ c' n tm, Q c' → timers c' !! n = Some tm →
     (deadline tm ≤ clock c')%Z →
     Q (on_timeout n (timer_session tm) (clearTimeout n c'))) →
  Q (set_clock (clock c + 1) c) → Q (tick c).
Proof.
  intros Hfire Hc. unfold tick.
  apply (fire_due_preserves Q 0); [lia | | done].
  intros c' n tm _. apply Hfire.
Qed.

(** *** Well-formed states *)

Lemma well_formed_new (p0 : P) : well_formed (new p0).
Proof. split; intros *; cbn; by rewrite lookup_empty. Qed.

Lemma well_formed_call_handler h o c :
  well_formed c → well_formed (call_handler h o c).
Proof.
  intros [Hh Ht]. unfold call_handler. destruct h as [k s | h]; [| by split].
  destruct (terminal o); [| by split].
  destruct (bool_decide _); split; cbn.
  all: try (intros s' k' sid' Hl; apply lookup_delete_Some in Hl as [_ Hl];
            by apply (Hh s')).
  all: intros k' tm Hl; apply lookup_delete_Some in Hl as [_ Hl];
       by apply (Ht k' tm).
Qed.

Lemma well_formed_step c a : well_formed c → well_formed (step c a).
Proof.
  intros Hwf. pose proof Hwf as [Hh Ht].
  destruct a as [s h | s | s ms | | ev |]; cbn [step].
  - split; cbn; [| done]. intros s' k sid Hl.
    apply lookup_insert_Some in Hl as [[_ [=]] | [_ Hl]]. by apply (Hh s').
  - split; cbn; [| done]. intros s' k sid Hl.
    apply lookup_delete_Some in Hl as [_ Hl]. by apply (Hh s').
  - split; cbn.
    + intros s' k sid Hl.
      apply lookup_insert_Some in Hl as [[<- [= <- <-]] | [_ Hl]].
      * split; [done | lia].
      * destruct (Hh _ _ _ Hl). split; [done | lia].
    + intros k tm Hl. apply lookup_insert_Some in Hl as [[<- _] | [_ Hl]].
      * lia.
      * specialize (Ht _ _ Hl). lia.
  - split; cbn; [| done]. intros s' k sid Hl. by rewrite lookup_empty in Hl.
  - destruct ev as [| s data | s e | s r |]; cbn [on_spawner_event]; try done.
    + destruct (parse (parser c) data) as [p o].
      assert (Hwf1 : well_formed (emit (parsed_output s o) (set_parser p c)))
        by (by split).
      destruct (outputHandlers _ !! s); [| done].
      by apply well_formed_call_handler.
    + split; cbn; [| done]. intros s' k sid Hl.
      apply lookup_delete_Some in Hl as [_ Hl]. by apply (Hh s').
  - apply tick_preserves; [| by split].
    intros c' n tm [Hh' Ht'] _ _. split; cbn.
    + intros s' k sid Hl. apply lookup_delete_Some in Hl as [_ Hl].
      by apply (Hh' s').
    + intros k tm' Hl. apply lookup_delete_Some in Hl as [_ Hl].
      by apply (Ht' k tm').
Qed.

Lemma well_formed_run actions : ∀ c,
  well_formed c → well_formed (run c actions).
Proof.
  induction actions as [|a rest IH]; intros c Hwf; [done |].
  apply (IH (step c a)). by apply well_formed_step.
Qed.

(** *** A retired waiter stays retired, and its promise is not touched *)

Lemma retired_call_handler k h o c :
  retired k c → outputHandlers c !! h.1 = Some h.2 →
  retired k (call_handler h.2 o c)
  ∧ promises (call_handler h.2 o c) !! k = promises c !! k.
Proof.
  intros [Hf Ht Hh] Hreg. destruct h as [s [k' s' | h']]; cbn [fst snd] in *;
    [| by split]. unfold call_handler.
  assert (k' ≠ k) by (intros ->; by apply (Hh s s')).
  destruct (terminal o); [| by split].
  destruct (bool_decide _); (split; [split |]); cbn; try done.
  all: try (rewrite lookup_delete_ne by done; done).
  all: try (intros s0 sid0 Hl; apply lookup_delete_Some in Hl as [_ Hl];
            by apply (Hh s0 sid0)).
  all: by rewrite lookup_alter_ne.
Qed.

Lemma retired_step k c a :
  retired k c →
  retired k (step c a) ∧ promises (step c a) !! k = promises c !! k.
Proof.
  intros Hr. pose proof Hr as [Hf Ht Hh].
  destruct a as [s h | s | s ms | | ev |]; cbn [step].
  - split; [split |]; cbn; try done. intros s0 sid0 Hl.
    apply lookup_insert_Some in Hl as [[_ [=]] | [_ Hl]]. by apply (Hh s0 sid0).
  - split; [split |]; cbn; try done. intros s0 sid0 Hl.
    apply lookup_delete_Some in Hl as [_ Hl]. by apply (Hh s0 sid0).
  - split; [split |]; cbn.
    + lia.
    + rewrite lookup_insert_ne; [done | lia].
    + intros s0 sid0 Hl.
      apply lookup_insert_Some in Hl as [[_ [= Hk _]] | [_ Hl]]; [lia |].
      by apply (Hh s0 sid0).
    + rewrite lookup_insert_ne by lia. done.
  - split; [split |]; cbn; done.
  - destruct ev as [| s data | s e | s r |]; cbn [on_spawner_event]; try done.
    + destruct (parse (parser c) data) as [p o].
      set (c1 := emit (parsed_output s o) (set_parser p c)).
      assert (Hr1 : retired k c1) by (by split).
      destruct (outputHandlers c1 !! s) as [h|] eqn:Hl; [| done].
      apply (retired_call_handler k (s, h) o c1 Hr1 Hl).
    + split; [split |]; cbn; try done. intros s0 sid0 Hl.
      apply lookup_delete_Some in Hl as [_ Hl]. by apply (Hh s0 sid0).
  - apply (tick_preserves
             (λ c', retired k c' ∧ promises c' !! k = promises c !! k));
      [| by split].
    intros c' n tm [[Hf' Ht' Hh'] Hp'] Htm _.
    assert (n ≠ k) by (intros ->; congruence).
    split; [split |]; cbn; try done.
    + by rewrite lookup_delete_ne.
    + intros s0 sid0 Hl. apply lookup_delete_Some in Hl as [_ Hl].
      by apply (Hh' s0 sid0).
    + by rewrite lookup_alter_ne.
Qed.

Lemma retired_run k actions : ∀ c,
  retired k c →
  retired k (run c actions)
  ∧ settlements (run c actions) k = settlements c k.
Proof.
  induction actions as [|a rest IH]; intros c Hr; [done |].
  destruct (retired_step k c a Hr) as [Hr1 Hp1].
  destruct (IH (step c a) Hr1) as [Hr2 Hp2].
  split; [exact Hr2 |]. cbn [run foldl]. fold (run (step c a) rest).
  rewrite Hp2. unfold settlements. by rewrite Hp1.
Qed.

(** *** No handler for the session, as long as nobody registers one *)

Lemma no_handler_step sid c a :
  leaves_alone sid a → outputHandlers c !! sid = None →
  outputHandlers (step c a) !! sid = None.
Proof.
  intros Ha Hn.
  destruct a as [s h | s | s ms | | ev |]; cbn [step leaves_alone] in *.
  - cbn. by rewrite lookup_insert_ne.
  - cbn. apply lookup_delete_None. by right.
  - cbn. by rewrite lookup_insert_ne.
  - done.
  - destruct ev as [| s data | s e | s r |]; cbn [on_spawner_event]; try done.
    + destruct (parse (parser c) data) as [p o].
      set (c1 := emit (parsed_output s o) (set_parser p c)).
      destruct (outputHandlers c1 !! s) as [[k' s' | h']|]; try done.
      unfold call_handler. destruct (terminal o); [| done].
      destruct (bool_decide _); cbn; apply lookup_delete_None; by right.
    + cbn. apply lookup_delete_None. by right.
  - apply (tick_preserves (λ c', outputHandlers c' !! sid = None)); [| done].
    intros c' n tm Hn' _ _. cbn. apply lookup_delete_None. by right.
Qed.

Lemma no_handler_run sid actions : ∀ c,
  Forall (leaves_alone sid) actions → outputHandlers c !! sid = None →
  outputHandlers (run c actions) !! sid = None.
Proof.
  induction actions as [|a rest IH]; intros c Hq Hn; [done |].
  inversion Hq; subst. apply (IH (step c a)); [done |].
  by apply no_handler_step.
Qed.

(** *** The waiter between the call and the settlement *)

Lemma waitForCompletion_waiting sid ms c :
  well_formed c →
  (∀ k tm, timers c !! k = Some tm → timer_session tm ≠ sid) →
  let c1 := fst (waitForCompletion sid ms c) in
  let k := snd (waitForCompletion sid ms c) in
  waiting k sid (clock c + setTimeout_delay (default 300000%Z ms)) c1
  ∧ clock c1 = clock c.
Proof.
  intros [Hh Ht] Hfree. cbv zeta. split; [| done]. split; cbn.
  - lia.
  - by rewrite lookup_insert_eq.
  - by rewrite lookup_insert_eq.
  - by rewrite lookup_insert_eq.
  - intros k' tm Hl Hne. rewrite lookup_insert_ne in Hl by done.
    split; [by apply (Hfree k') |]. specialize (Ht _ _ Hl). lia.
  - intros s k' sid' Hl Hne. rewrite lookup_insert_ne in Hl by done.
    destruct (Hh _ _ _ Hl) as [-> Hlt]. repeat split; [lia | done | lia].
Qed.

(** A handler registered for another session, called while [k] waits. *)
Lemma waiting_call_handler k sid D s h o c :
  waiting k sid D c → s ≠ sid → outputHandlers c !! s = Some h →
  waiting k sid D (call_handler h o c).
Proof.
  intros [Hf Hh Ht Hp Hts Hhs] Hne Hl. unfold call_handler.
  destruct h as [k' s' | h']; [| by split].
  destruct (Hhs _ _ _ Hl Hne) as (Hk & Hs & Hlt).
  destruct (terminal o); [| by split].
  destruct (bool_decide _); split; cbn; try done.
  all: try (by rewrite lookup_delete_ne).
  all: try (by rewrite lookup_alter_ne).
  all: try (intros k0 tm Hl0 Hne0; apply lookup_delete_Some in Hl0 as [_ Hl0];
            by apply Hts).
  all: intros s0 k0 sid0 Hl0 Hne0; apply lookup_delete_Some in Hl0 as [_ Hl0];
       by apply (Hhs s0).
Qed.

Lemma waiting_step k sid D c a :
  waiting k sid D c → (clock c + tick_of a < D)%Z →
  leaves_alone sid a → not_terminal_for sid c a →
  waiting k sid D (step c a) ∧ clock (step c a) = (clock c + tick_of a)%Z.
Proof.
  intros Hw Hclk Ha Hnt. pose proof Hw as [Hf Hh Ht Hp Hts Hhs].
  destruct a as [s h | s | s ms | | ev |];
    cbn [step leaves_alone not_terminal_for tick_of] in *.
  - split; [split |]; cbn; try done; try lia.
    + by rewrite lookup_insert_ne.
    + intros s0 k0 sid0 Hl Hne.
      apply lookup_insert_Some in Hl as [[_ [=]] | [_ Hl]]. by apply (Hhs s0).
  - split; [split |]; cbn; try done; try lia.
    + by rewrite lookup_delete_ne.
    + intros s0 k0 sid0 Hl Hne. apply lookup_delete_Some in Hl as [_ Hl].
      by apply (Hhs s0).
  - split; [split |]; cbn; try lia.
    + by rewrite lookup_insert_ne.
    + rewrite lookup_insert_ne by lia. done.
    + rewrite lookup_insert_ne by lia. done.
    + intros k0 tm Hl Hne.
      apply lookup_insert_Some in Hl as [[<- <-] | [_ Hl]]; cbn.
      * split; [done | lia].
      * destruct (Hts _ _ Hl Hne). split; [done | lia].
    + intros s0 k0 sid0 Hl Hne.
      apply lookup_insert_Some in Hl as [[<- [= <- <-]] | [_ Hl]].
      * repeat split; [lia | done | lia].
      * destruct (Hhs _ _ _ Hl Hne) as (? & ? & ?). repeat split; [done.. | lia].
  - done.
  - destruct ev as [| s data | s e | s r |]; cbn [on_spawner_event];
      try (split; [done | lia]).
    + destruct (parse (parser c) data) as [p o] eqn:Hparse.
      set (c1 := emit (parsed_output s o) (set_parser p c)).
      assert (Hw1 : waiting k sid D c1) by (by split).
      destruct (outputHandlers c1 !! s) as [h|] eqn:Hl;
        [| split; [done | cbn; lia]].
      split; [| rewrite (proj2 (proj2 (proj2 (call_handler_frame h o c1))));
                cbn; lia].
      destruct (decide (s = sid)) as [-> | Hne].
      * cbn in Hl. rewrite Hh in Hl. injection Hl as <-.
        unfold call_handler. cbn [snd] in Hnt. by rewrite (Hnt eq_refl).
      * by apply (waiting_call_handler k sid D s).
    + split; [by split | cbn; lia].
    + split; [split |]; cbn; try done; try lia.
      * by rewrite lookup_delete_ne.
      * intros s0 k0 sid0 Hl Hne. apply lookup_delete_Some in Hl as [_ Hl].
        by apply (Hhs s0).
  - apply (tick_preserves
             (λ c', waiting k sid D c' ∧ clock c' = (clock c + 1)%Z));
      [| by split].
    intros c' n tm [[Hf' Hh' Ht' Hp' Hts' Hhs'] Hc'] Htm Hdue.
    assert (Hnk : n ≠ k).
    { intros ->. rewrite Ht' in Htm. injection Htm as <-. cbn in Hdue. lia. }
    destruct (Hts' _ _ Htm Hnk) as [Hs Hlt].
    split; [split |]; cbn; try done.
    + by rewrite lookup_delete_ne.
    + by rewrite lookup_delete_ne.
    + by rewrite lookup_alter_ne.
    + intros k0 tm0 Hl0 Hne0. apply lookup_delete_Some in Hl0 as [_ Hl0].
      by apply Hts'.
    + intros s0 k0 sid0 Hl0 Hne0. apply lookup_delete_Some in Hl0 as [_ Hl0].
      by apply (Hhs' s0).
Qed.

(** *** Settlement *)

Lemma settled_fire k sid s c n tm :
  settled_with k sid s c → timers c !! n = Some tm →
  settled_with k sid s (on_timeout n (timer_session tm) (clearTimeout n c)).
Proof.
  intros ([Hf Ht Hh] & Hp & Hn) Htm.
  assert (n ≠ k) by (intros ->; congruence).
  split; [split | split]; cbn; try done.
  - by rewrite lookup_delete_ne.
  - intros s0 sid0 Hl. apply lookup_delete_Some in Hl as [_ Hl].
    by apply (Hh s0 sid0).
  - by rewrite lookup_alter_ne.
  - apply lookup_delete_None. by right.
Qed.

Lemma waiting_fire k sid D c n tm :
  waiting k sid D c → timers c !! n = Some tm → n ≠ k →
  waiting k sid D (on_timeout n (timer_session tm) (clearTimeout n c)).
Proof.
  intros [Hf Hh Ht Hp Hts Hhs] Htm Hnk.
  destruct (Hts _ _ Htm Hnk) as [Hs Hlt].
  split; cbn; try done.
  - by rewrite lookup_delete_ne.
  - by rewrite lookup_delete_ne.
  - by rewrite lookup_alter_ne.
  - intros k0 tm0 Hl0 Hne0. apply lookup_delete_Some in Hl0 as [_ Hl0].
    by apply Hts.
  - intros s0 k0 sid0 Hl0 Hne0. apply lookup_delete_Some in Hl0 as [_ Hl0].
    by apply (Hhs s0).
Qed.

(** The millisecond at which the timer of the waiter is due. *)
Lemma tick_times_out k sid D c :
  waiting k sid D c → (D ≤ clock c + 1)%Z →
  settled_with k sid (reject (timeout_error sid)) (tick c).
Proof.
  intros Hw Hdue. pose proof Hw as [Hf _ _ _ _ _]. unfold tick.
  set (c0 := set_clock (clock c + 1) c).
  assert (Hw0 : waiting k sid D c0) by (destruct Hw; by split).
  assert (H1 : waiting k sid D (fire_due k c0)).
  { apply (fire_due_preserves (waiting k sid D) 0); [lia | | done].
    intros c' n tm Hn Hw' Htm _. apply waiting_fire; [done.. | lia]. }
  apply (fire_due_preserves _ (S k)); [change (next_waiter c0) with (next_waiter c); lia | |].
  { intros c' n tm _ Hs Htm _. by apply settled_fire. }
  cbn [fire_due]. destruct H1 as [Hf1 Hh1 Ht1 Hp1 Hts1 Hhs1]. rewrite Ht1.
  cbn [deadline timer_session].
  rewrite (proj2 (proj2 (proj2 (fire_due_frame k c0)))).
  destruct (decide _) as [_ | Hn]; [| cbn in Hn; lia].
  split; [split | split]; cbn; try done.
  - by rewrite lookup_delete_eq.
  - intros s0 sid0 Hl. apply lookup_delete_Some in Hl as [Hne Hl].
    destruct (Hhs1 _ _ _ Hl) as (? & _); [done | done].
  - by rewrite lookup_alter_eq, Hp1.
  - by rewrite lookup_delete_eq.
Qed.

(** A terminal output for the session of the waiter. *)
Lemma terminal_output_settles k sid D c data :
  waiting k sid D c →
  terminal (snd (parse (parser c) data)) = true →
  let c' := step c (spawner_emits (output_event sid data)) in
  settled_with k sid (settlement_of (snd (parse (parser c) data))) c'.
Proof.
  intros [Hf Hh Ht Hp Hts Hhs] Hterm. cbv zeta.
  cbn [step on_spawner_event].
  destruct (parse (parser c) data) as [p o]. cbn [snd] in *.
  cbn [outputHandlers emit set_parser]. rewrite Hh.
  unfold call_handler, settlement_of. rewrite Hterm.
  destruct (bool_decide (type o = Error));
    (split; [split | split]); cbn; try done.
  all: try (by rewrite lookup_delete_eq).
  all: try (by rewrite lookup_alter_eq, Hp).
  all: intros s0 sid0 Hl; apply lookup_delete_Some in Hl as [Hne Hl];
       by destruct (Hhs _ _ _ Hl) as (? & _).
Qed.

(** *** Executions while the waiter waits *)

Lemma elapsed_cons a rest : elapsed (a :: rest) = (tick_of a + elapsed rest)%Z.
Proof. by destruct a. Qed.

Lemma elapsed_nonneg actions : (0 ≤ elapsed actions)%Z.
Proof.
  induction actions as [|a rest IH]; [done |].
  rewrite elapsed_cons. destruct a; cbn; lia.
Qed.

Lemma outputs_for_head sid c a rest :
  Forall (λ o, terminal o = false) (outputs_for sid c (a :: rest)) →
  not_terminal_for sid c a
  ∧ Forall (λ o, terminal o = false) (outputs_for sid (step c a) rest).
Proof.
  cbn [outputs_for]. intros [Hhd Htl]%Forall_app. split; [| done].
  destruct a as [| | | | [] |]; try done. cbn. intros ->.
  rewrite decide_True in Hhd by done. by inversion Hhd.
Qed.

Lemma waiting_run k sid D actions : ∀ c,
  waiting k sid D c → (clock c + elapsed actions < D)%Z →
  Forall (leaves_alone sid) actions →
  Forall (λ o, terminal o = false) (outputs_for sid c actions) →
  waiting k sid D (run c actions)
  ∧ clock (run c actions) = (clock c + elapsed actions)%Z.
Proof.
  induction actions as [|a rest IH]; intros c Hw Hclk Hq Hnt.
  - split; [done | cbn; lia].
  - rewrite elapsed_cons in *. pose proof (elapsed_nonneg rest).
    inversion Hq as [|? ? Ha Hq']; subst.
    destruct (outputs_for_head _ _ _ _ Hnt) as [Hnt1 Hnt2].
    destruct (waiting_step k sid D c a Hw) as [Hw1 Hc1]; [lia | done.. |].
    destruct (IH (step c a) Hw1) as [Hw2 Hc2]; [lia | done.. |].
    split; [exact Hw2 |]. cbn [run foldl]. fold (run (step c a) rest). lia.
Qed.

Lemma timeout_run k sid D actions : ∀ c,
  waiting k sid D c → (clock c < D)%Z → (D ≤ clock c + elapsed actions)%Z →
  Forall (leaves_alone sid) actions →
  Forall (λ o, terminal o = false) (outputs_for sid c actions) →
  retired k (run c actions)
  ∧ settlements (run c actions) k = [reject (timeout_error sid)]
  ∧ outputHandlers (run c actions) !! sid = None.
Proof.
  induction actions as [|a rest IH]; intros c Hw Hlt Hclk Hq Hnt.
  - cbn in Hclk. lia.
  - rewrite elapsed_cons in Hclk.
    inversion Hq as [|? ? Ha Hq']; subst.
    destruct (outputs_for_head _ _ _ _ Hnt) as [Hnt1 Hnt2].
    cbn [run foldl]. fold (run (step c a) rest).
    destruct (decide (clock c + tick_of a < D)%Z) as [Hbefore | Hnow].
    + destruct (waiting_step k sid D c a Hw Hbefore Ha Hnt1) as [Hw1 Hc1].
      apply IH; [done | lia | lia | done..].
    + assert (a = millisecond) as ->.
      { destruct a; cbn in Hnow; try lia. done. }
      destruct (tick_times_out k sid D c Hw) as (Hr & Hp & Hn);
        [cbn in Hnow; lia |].
      destruct (retired_run k rest _ Hr) as [Hr' Hs'].
      cbn [step]. split; [exact Hr' |]. split.
      * rewrite Hs'. unfold settlements. by rewrite Hp.
      * by apply no_handler_run.
Qed.

(** C1, as the code has it.  Take a communicator in any state it can
    reach, in which no timer of an earlier wait for the session [sid] is
    pending; call [waitForCompletion sid timeoutMs]; let then follow any
    execution [pre] in which nothing else registers or removes the
    handler of [sid] and every output parsed for [sid] is non-terminal
    (neither [isComplete] nor of kind error).  The budget is the delay
    [setTimeout] applies to [timeoutMs] (at least 1 ms; [timeoutMs]
    itself between 1 and 2^31-1).
    - While less than the budget has elapsed, the promise is pending and
      the handler registered.  A terminal output for [sid] then settles
      the promise: it rejects when the output is of kind error, with the
      error message of the output or, when that is absent or empty,
      with [Task failed]; otherwise it resolves with the output.
    - Once the budget has elapsed, the promise is rejected with the
      timeout error.
    In both cases the handler of the session is removed, the timer is
    gone, and the promise has received exactly one call of [resolve] or
    [reject], whatever happens afterwards. *)
Theorem waitForCompletion_settles_once (p0 : P) (history : list Action)
    (sid : jstring) (timeoutMs : option Z) (pre : list Action) :
  let c := run (new p0) history in
  let budget := setTimeout_delay (default 300000%Z timeoutMs) in
  let c1 := fst (waitForCompletion sid timeoutMs c) in
  let k := snd (waitForCompletion sid timeoutMs c) in
  let c2 := run c1 pre in
  (∀ k' tm, timers c !! k' = Some tm → timer_session tm ≠ sid) →
  Forall (leaves_alone sid) pre →
  Forall (λ o, terminal o = false) (outputs_for sid c1 pre) →
  (1 ≤ budget)%Z
  ∧ (∀ ms, timeoutMs = Some ms → (1 ≤ ms ≤ 2147483647)%Z → budget = ms)
  ∧ ((elapsed pre < budget)%Z →
       settlements c2 k = []
       ∧ outputHandlers c2 !! sid = Some (wait_handler k sid)
       ∧ ∀ data,
           let o := snd (parse (parser c2) data) in
           let c3 := step c2 (spawner_emits (output_event sid data)) in
           terminal o = true →
           (type o = Error →
            settlements c3 k =
              [reject (MkError (or_else (error o) (JStr (js "Task failed"))))])
           ∧ (type o ≠ Error → settlements c3 k = [resolve o])
           ∧ outputHandlers c3 !! sid = None
           ∧ timers c3 !! k = None
           ∧ ∀ post, settlements (run c3 post) k = settlements c3 k)
  ∧ ((budget ≤ elapsed pre)%Z →
       settlements c2 k = [reject (timeout_error sid)]
       ∧ outputHandlers c2 !! sid = None
       ∧ timers c2 !! k = None
       ∧ ∀ post,
           settlements (run c2 post) k = [reject (timeout_error sid)]).
Proof.
  cbv zeta. intros Hfree Hq Hnt.
  set (c := run (new p0) history) in *.
  assert (Hwf : well_formed c) by apply well_formed_run, well_formed_new.
  destruct (waitForCompletion_waiting sid timeoutMs c Hwf Hfree) as [Hw Hc].
  cbv zeta in Hw, Hc.
  set (c1 := fst (waitForCompletion sid timeoutMs c)) in *.
  set (k := snd (waitForCompletion sid timeoutMs c)) in *.
  set (budget := setTimeout_delay (default 300000%Z timeoutMs)) in *.
  assert (Hpos : (1 ≤ budget)%Z).
  { unfold budget, setTimeout_delay. destruct (decide _); lia. }
  split; [exact Hpos |]. split.
  { intros ms -> Hms. unfold budget, setTimeout_delay. cbn [default].
    by rewrite decide_True. }
  split.
  - intros Hbefore.
    destruct (waiting_run k sid _ pre c1 Hw) as [Hw2 Hc2]; [lia | done.. |].
    pose proof Hw2 as [_ Hh2 _ Hp2 _ _].
    split; [unfold settlements; by rewrite Hp2 |]. split; [exact Hh2 |].
    intros data Hterm.
    destruct (terminal_output_settles k sid _ (run c1 pre) data Hw2 Hterm)
      as (Hr & Hp & Hn).
    assert (Hs : settlements
                   (step (run c1 pre) (spawner_emits (output_event sid data)))
                   k = [settlement_of (snd (parse (parser (run c1 pre)) data))])
      by (unfold settlements; by rewrite Hp).
    split; [| split].
    { intros Hty. rewrite Hs. unfold settlement_of. by rewrite bool_decide_true. }
    { intros Hty. rewrite Hs. unfold settlement_of.
      by rewrite bool_decide_false. }
    split; [exact Hn |]. split; [apply Hr |].
    intros post. by destruct (retired_run k post _ Hr) as [_ ->].
  - intros Hafter.
    destruct (timeout_run k sid _ pre c1 Hw) as (Hr & Hs & Hn);
      [lia | lia | done.. |].
    split; [exact Hs |]. split; [exact Hn |]. split; [apply Hr |].
    intros post. destruct (retired_run k post _ Hr) as [_ Hpost].
    by rewrite Hpost.
Qed.

End Completion_wait.

Section Completion_wait_examples.
Import ClaudeCodeCommunicator.

(** A wait of 50 ms on a fresh communicator with the heuristic parser:
    pending after 49 ms, resolved by [Task completed: ready] arriving
    then, rejected with the timeout error after 50 ms of silence. *)
Lemma waitForCompletion_settles_once_witness :
  let c1 := fst (waitForCompletion (js "s") (Some 50%Z)
                   (new DefaultOutputParser.new)) in
  let c2 := run c1 (replicate 49 millisecond) in
  let data := js "Task completed: ready" in
  let o := snd (parse (parser c2) data) in
  settlements c2 0 = []
  ∧ settlements (step c2 (spawner_emits (output_event (js "s") data))) 0
      = [resolve o]
  ∧ type o = Result ∧ isComplete o = Some true
  ∧ settlements (run c1 (replicate 50 millisecond)) 0
      = [reject (timeout_error (js "s"))].
Proof.
  cbv zeta.
  assert (Hfree : ∀ k' tm,
            timers (run (new DefaultOutputParser.new) []) !! k' = Some tm →
            timer_session tm ≠ js "s").
  { intros k' tm Hl. cbn in Hl. by rewrite lookup_empty in Hl. }
  destruct (waitForCompletion_settles_once DefaultOutputParser.new []
              (js "s") (Some 50%Z) (replicate 49 millisecond) Hfree
              ltac:(repeat constructor) ltac:(vm_compute; constructor))
    as (_ & _ & Hbefore & _).
  destruct (Hbefore ltac:(vm_compute; reflexivity)) as (Hpending & _ & Hout).
  destruct (Hout (js "Task completed: ready") ltac:(vm_compute; reflexivity))
    as (_ & Hsettled & _).
  specialize (Hsettled ltac:(vm_compute; discriminate)).
  destruct (waitForCompletion_settles_once DefaultOutputParser.new []
              (js "s") (Some 50%Z) (replicate 50 millisecond) Hfree
              ltac:(repeat constructor) ltac:(vm_compute; constructor))
    as (_ & _ & _ & Hafter).
  destruct (Hafter ltac:(vm_compute; discriminate)) as (Htimeout & _).
  split; [exact Hpending |].
  split; [exact Hsettled |].
  split; [vm_compute; reflexivity |].
  split; [vm_compute; reflexivity | exact Htimeout].
Defined.

(** C1 as stated fails, in two ways.
    - A second [waitForCompletion] for the same session replaces the
      handler of the first: the complete output that arrives within the
      budget resolves the second promise only; the first stays pending
      and is rejected with the timeout error when its timer fires.
    - An output of kind error whose error message is the empty string
      rejects with [Task failed], not with that message. *)
Lemma waiter_replaced_and_message_replaced :
  (let c := run (new DefaultOutputParser.new)
              [call_waitForCompletion (js "s") (Some 50%Z);
               call_waitForCompletion (js "s") (Some 50%Z);
               spawner_emits (output_event (js "s") (js "Task completed"))] in
   settlements c 0 = []
   ∧ (∃ o, settlements c 1 = [resolve o] ∧ isComplete o = Some true)
   ∧ settlements (run c (replicate 50 millisecond)) 0
       = [reject (timeout_error (js "s"))])
  ∧ (let c := @run _ (JsonOutputParser_parser toy_JSON_parse
                        toy_JSON_stringify)
                (new ())
                [call_waitForCompletion (js "s") (Some 50%Z);
                 spawner_emits
                   (output_event (js "s") empty_message_record_text)] in
     ∃ o, emitted c = [parsed_output (js "s") o]
          ∧ type o = Error ∧ error o = Some (JStr [])
          ∧ settlements c 0 = [reject (MkError (JStr (js "Task failed")))]).
Proof.
  cbv zeta. split.
  - split; [vm_compute; reflexivity |].
    split; [| vm_compute; reflexivity].
    eexists. split; vm_compute; reflexivity.
  - eexists. split; [vm_compute; reflexivity |].
    repeat split; vm_compute; reflexivity.
Qed.

End Completion_wait_examples.

(* ===================================================================== *)
(** * Further properties *)
(* ===================================================================== *)

(** Properties of the parts of the code the statements above do not
    reach: the messages of the heuristic parser, the stream of parsed
    outputs, waits whose handler is removed, the invariants of the
    spawner, its operations, the messages to the process, and the
    methods of the runtime. *)

(* --------------------------------------------------------------------- *)
(** ** The message of the heuristic parser *)
(* --------------------------------------------------------------------- *)

Section Heuristic_messages.
Import DefaultOutputParser.

Lemma dot_lazy_spec s : ∀ group g,
  dot_lazy group s = Some g →
  ∃ taken rest, g = group ++ taken ∧ s = taken ++ rest ∧ single_line taken.
Proof.
  induction s as [|c s IH]; intros group g Hd; cbn in Hd.
  - exists [], []. injection Hd as <-. rewrite app_nil_r.
    split; [done |]. split; [done |]. constructor.
  - destruct (c =? 10) eqn:Hc.
    { exists [], (c :: s). injection Hd as <-. rewrite app_nil_r.
      split; [done |]. split; [done |]. constructor. }
    destruct (is_line_terminator c) eqn:Hlt; [done |].
    destruct (IH _ _ Hd) as (taken & rest & -> & -> & Hs).
    exists (c :: taken), rest. rewrite <- app_assoc. split; [done |].
    split; [done |]. by constructor.
Qed.

Lemma dot_plus_lazy_spec s g :
  dot_plus_lazy s = Some g →
  g ≠ [] ∧ single_line g ∧ ∃ rest, s = g ++ rest.
Proof.
  destruct s as [|c s]; [done |]. cbn.
  destruct (is_line_terminator c) eqn:Hlt; [done |].
  intros (taken & rest & -> & -> & Hs)%dot_lazy_spec.
  split; [done |]. split; [by constructor |]. by exists rest.
Qed.

Lemma ws_greedy_spec s : ∀ g,
  ws_greedy s = Some g → g ≠ [] ∧ single_line g ∧ occurs_in g s.
Proof.
  assert (Hplus : ∀ s g, dot_plus_lazy s = Some g →
                         g ≠ [] ∧ single_line g ∧ occurs_in g s).
  { intros s' g (? & ? & rest & ->)%dot_plus_lazy_spec.
    split; [done |]. split; [done |]. by exists [], rest. }
  induction s as [|c s IH]; intros g; [apply Hplus |].
  cbn [ws_greedy]. destruct (is_space c); [| apply Hplus].
  destruct (ws_greedy s) as [g' |] eqn:Hw; [| apply Hplus].
  intros [= <-]. destruct (IH _ eq_refl) as (? & ? & pre & post & ->).
  split; [done |]. split; [done |]. by exists (c :: pre), post.
Qed.

Lemma startsWith_true (s p : jstring) :
  startsWith s p = true → ∃ rest, s = p ++ rest.
Proof.
  revert s; induction p as [|a p IH]; intros s; [by exists s |].
  destruct s as [|b s]; [done |]. cbn.
  intros [Hab Hs]%andb_true_iff. apply N.eqb_eq in Hab as ->.
  destruct (IH _ Hs) as [rest ->]. by exists rest.
Qed.

Lemma match_here_spec s g :
  match_here s = Some g →
  startsWith s (js "Error:") = true
  ∧ g ≠ [] ∧ single_line g ∧ occurs_in g s.
Proof.
  unfold match_here. destruct (startsWith s (js "Error:")) eqn:Hs; [| done].
  intros (? & ? & pre & post & Hd)%ws_greedy_spec.
  split; [done |]. split; [done |]. split; [done |].
  exists (take 6 s ++ pre), post.
  rewrite <- (take_drop 6 s) at 1. rewrite Hd. by rewrite <- app_assoc.
Qed.

Lemma errorMatch_spec text : ∀ g,
  errorMatch text = Some g →
  includes text (js "Error:") = true
  ∧ g ≠ [] ∧ single_line g ∧ occurs_in g text.
Proof.
  induction text as [|c text IH]; intros g; rewrite errorMatch_unfold.
  - destruct (match_here []) eqn:Hm; [| done].
    intros [= <-]. by apply match_here_spec in Hm.
  - destruct (match_here (c :: text)) as [g' |] eqn:Hm.
    + intros [= <-]. apply match_here_spec in Hm as (Hs & ? & ? & ?).
      split; [| done].
      change (includes (c :: text) (js "Error:"))
        with (startsWith (c :: text) (js "Error:")
              || includes text (js "Error:")).
      by rewrite Hs.
    + intros (Hi & ? & ? & pre & post & ->)%IH.
      split; [| split; [done | split; [done | by exists (c :: pre), post]]].
      change (includes (c :: pre ++ g ++ post) (js "Error:"))
        with (startsWith (c :: pre ++ g ++ post) (js "Error:")
              || includes (pre ++ g ++ post) (js "Error:")).
      rewrite Hi. apply orb_true_r.
Qed.

Lemma includes_nonempty (b p : jstring) :
  p ≠ [] → includes b p = true → b ≠ [].
Proof. intros Hp Hi ->. by destruct p. Qed.

Lemma extractError_nonempty b :
  error_marker b = true → extractError b ≠ [].
Proof.
  intros Hm. unfold extractError.
  destruct (errorMatch b) as [g |] eqn:He.
  - by apply errorMatch_spec in He as (_ & ? & _).
  - apply orb_true_iff in Hm as [Hi | Hi];
      by apply includes_nonempty in Hi.
Qed.

(** X1. Whenever the heuristic parser classifies a chunk as an error,
    the [error] field holds a non-empty string, so the handler of
    [waitForCompletion] rejects with that very message and never with
    its fallback ['Task failed'].  When the pattern matches, the message
    is a piece of the buffer without a line terminator. *)
Theorem heuristic_error_message_nonempty (p : DefaultOutputParser.t)
    (output : jstring) :
  let b := buffer p ++ output in
  let o := snd (parse p output) in
  type o = Error →
  ∃ m, error o = Some (JStr m) ∧ m = extractError b ∧ m ≠ []
       ∧ settlement_of o = ClaudeCodeCommunicator.reject (MkError (JStr m))
       ∧ (errorMatch b = Some m → single_line m ∧ occurs_in m b).
Proof.
  intros b o Hty.
  destruct (parse_precedence p output) as (Hres & Herr & Hprompt & Hraw).
  fold b o in Hres, Herr, Hprompt, Hraw.
  destruct (completion_marker b) eqn:Hc.
  { destruct (Hres eq_refl) as (Hr & _). congruence. }
  destruct (error_marker b) eqn:He.
  - destruct (Herr eq_refl eq_refl) as (_ & _ & Herror).
    exists (extractError b). split; [done |]. split; [done |].
    pose proof (extractError_nonempty b He) as Hne.
    split; [done |]. split.
    + unfold settlement_of. rewrite bool_decide_eq_true_2 by done.
      rewrite Herror. cbn. by destruct (extractError b).
    + intros Hm. by apply errorMatch_spec in Hm as (_ & _ & ? & ?).
  - destruct (prompt_phrasing b) eqn:Hp.
    + destruct (Hprompt eq_refl eq_refl eq_refl) as (Hr & _). congruence.
    + destruct (Hraw eq_refl eq_refl eq_refl) as (Hr & _). congruence.
Qed.

Lemma heuristic_error_message_nonempty_witness :
  let o := snd (parse new (js "Build Failed")) in
  type o = Error
  ∧ ∃ m, error o = Some (JStr m) ∧ m = extractError (js "Build Failed")
         ∧ m ≠ []
         ∧ settlement_of o = ClaudeCodeCommunicator.reject (MkError (JStr m))
         ∧ (errorMatch (js "Build Failed") = Some m →
            single_line m ∧ occurs_in m (js "Build Failed")).
Proof.
  split; [vm_compute; reflexivity |].
  apply (heuristic_error_message_nonempty new (js "Build Failed")).
  vm_compute; reflexivity.
Defined.

(** X2. Without [Error:] in the buffer the pattern cannot match: a
    chunk classified as an error because of [Failed] alone reports the
    whole accumulated buffer, line feeds included, as its message. *)
Theorem heuristic_error_without_pattern (p : DefaultOutputParser.t)
    (output : jstring) :
  let b := buffer p ++ output in
  let o := snd (parse p output) in
  completion_marker b = false →
  includes b (js "Failed") = true →
  includes b (js "Error:") = false →
  type o = Error ∧ error o = Some (JStr b) ∧ content o = JStr b.
Proof.
  intros b o Hc Hf He.
  destruct (parse_precedence p output) as (_ & Herr & _).
  fold b o in Herr.
  destruct Herr as (Hty & _ & Herror);
    [done | unfold error_marker; rewrite Hf; apply orb_true_r |].
  split; [done |]. split.
  - rewrite Herror. unfold extractError.
    destruct (errorMatch b) as [g |] eqn:Hm; [| done].
    apply errorMatch_spec in Hm as (Hi & _). congruence.
  - subst o b. unfold parse. unfold completion_marker in Hc. rewrite Hc.
    rewrite Hf, orb_true_r. done.
Qed.

Lemma heuristic_error_without_pattern_witness :
  let b := js "step 1 ok" ++ [10] ++ js "step 2 Failed" in
  let o := snd (parse {| buffer := js "step 1 ok" ++ [10] |}
                  (js "step 2 Failed")) in
  type o = Error ∧ error o = Some (JStr b) ∧ content o = JStr b.
Proof.
  apply (heuristic_error_without_pattern
           {| buffer := js "step 1 ok" ++ [10] |} (js "step 2 Failed"));
    vm_compute; reflexivity.
Defined.

Lemma error_marker_app b x :
  error_marker b = true → error_marker (b ++ x) = true.
Proof.
  unfold error_marker.
  intros [Hi | Hi]%orb_true_iff; apply orb_true_iff; [left | right];
    by apply includes_app.
Qed.

Lemma parse_rank p output :
  rank (type (snd (parse p output))) = buffer_rank (buffer p ++ output).
Proof.
  unfold buffer_rank.
  destruct (parse_precedence p output) as (Hres & Herr & Hp & Hr).
  cbn zeta in Hres, Herr, Hp, Hr.
  destruct (completion_marker (buffer p ++ output)).
  { destruct (Hres eq_refl) as (-> & _). done. }
  destruct (error_marker (buffer p ++ output)).
  { destruct (Herr eq_refl eq_refl) as (-> & _). done. }
  destruct (prompt_phrasing (buffer p ++ output)).
  - destruct (Hp eq_refl eq_refl eq_refl) as (-> & _). done.
  - destruct (Hr eq_refl eq_refl eq_refl) as (-> & _). done.
Qed.

Lemma buffer_rank_app b x : (buffer_rank b ≤ buffer_rank (b ++ x))%nat.
Proof.
  unfold buffer_rank.
  destruct (completion_marker b) eqn:Hc.
  { by rewrite (completion_marker_app _ _ Hc). }
  destruct (error_marker b) eqn:He.
  - rewrite (error_marker_app _ _ He).
    destruct (completion_marker (b ++ x)); lia.
  - lia.
Qed.

Lemma feed_rank chunks : ∀ p o,
  o ∈ snd (feed p chunks) →
  (buffer_rank (buffer p) ≤ rank (type o))%nat.
Proof.
  induction chunks as [|c chunks IH]; intros p o; [by intros ?%elem_of_nil |].
  rewrite feed_cons. cbn [snd]. intros [-> | Hin]%elem_of_cons.
  - rewrite parse_rank. apply buffer_rank_app.
  - apply IH in Hin. rewrite parse_buffer in Hin.
    pose proof (buffer_rank_app (buffer p) c). lia.
Qed.

(** X3. The classifications of one heuristic parser only move forward:
    once a chunk is a result every later chunk is a result, and once a
    chunk is an error every later chunk is an error or a result, never
    again a prompt or raw output.  The parser never yields a status. *)
Theorem heuristic_classification_monotone (p : DefaultOutputParser.t)
    (chunks : list jstring) (i j : nat) (oi oj : ParsedOutput) :
  snd (feed p chunks) !! i = Some oi →
  snd (feed p chunks) !! j = Some oj →
  (i ≤ j)%nat →
  (rank (type oi) ≤ rank (type oj))%nat
  ∧ type oi ≠ Status
  ∧ (type oi = Result → type oj = Result)
  ∧ (type oi = Error → type oj = Error ∨ type oj = Result).
Proof.
  intros Hi Hj Hij.
  assert (Hrank : (rank (type oi) ≤ rank (type oj))%nat).
  { revert p i j Hi Hj Hij.
    induction chunks as [|c chunks IH]; intros p i j Hi Hj Hij; [done |].
    rewrite feed_cons in Hi, Hj. cbn [snd] in Hi, Hj.
    destruct i as [|i].
    - cbn in Hi. injection Hi as <-.
      destruct j as [|j]; [cbn in Hj; injection Hj as <-; lia |].
      cbn in Hj. apply list_elem_of_lookup_2, feed_rank in Hj.
      rewrite parse_buffer in Hj. by rewrite parse_rank.
    - destruct j as [|j]; [lia |]. cbn in Hi, Hj.
      apply (IH _ i j Hi Hj). lia. }
  split; [done |].
  assert (Hnot : type oi ≠ Status).
  { apply list_elem_of_lookup_2 in Hi. clear -Hi. revert p Hi.
    induction chunks as [|c chunks IH]; intros p; [by intros ?%elem_of_nil |].
    rewrite feed_cons. cbn [snd]. intros [-> | Hin]%elem_of_cons; [| eauto].
    unfold parse.
    repeat match goal with |- context [if ?b then _ else _] => destruct b end;
      done. }
  split; [done |]. split.
  - intros Hr. rewrite Hr in Hrank. cbn in Hrank.
    destruct (type oj); cbn in Hrank; try lia; done.
  - intros Hr. rewrite Hr in Hrank. cbn in Hrank.
    destruct (type oj); cbn in Hrank; try lia; auto.
Qed.

Lemma heuristic_classification_monotone_witness :
  let outs := snd (feed new [js "working"; js "Error: disk full";
                             js "still working?"]) in
  ∃ o1 o2, outs !! 1%nat = Some o1 ∧ outs !! 2%nat = Some o2
           ∧ type o1 = Error ∧ type o2 = Error.
Proof.
  pose (outs := snd (feed new [js "working"; js "Error: disk full";
                               js "still working?"])).
  assert (H1 : ∃ o1, outs !! 1%nat = Some o1 ∧ type o1 = Error).
  { eexists. split; vm_compute; reflexivity. }
  assert (H2 : ∃ o2, outs !! 2%nat = Some o2 ∧ rank (type o2) = 1%nat).
  { eexists. split; vm_compute; reflexivity. }
  destruct H1 as (o1 & H1 & Ht1), H2 as (o2 & H2 & Ht2).
  exists o1, o2. split; [done |]. split; [done |]. split; [done |].
  destruct (heuristic_classification_monotone new _ 1 2 o1 o2 H1 H2)
    as (_ & _ & _ & Herr); [lia |].
  destruct (Herr Ht1) as [? | Hres]; [done |].
  rewrite Hres in Ht2. discriminate Ht2.
Defined.

End Heuristic_messages.

(* --------------------------------------------------------------------- *)
(** ** The stream of parsed outputs *)
(* --------------------------------------------------------------------- *)

Section Parsed_stream.
Import ClaudeCodeCommunicator.

Lemma fire_due_emitted {P} `{OutputParser P} n (c : t P) :
  emitted (fire_due n c) = emitted c.
Proof. apply fire_due_frame. Qed.

Lemma step_parsed_outputs {P} `{OutputParser P} (c : t P) a :
  parsed_outputs (emitted (step c a)) =
    parsed_outputs (emitted c)
    ++ match a with
       | spawner_emits (output_event s d) =>
           [(s, snd (parse (parser c) d))]
       | _ => []
       end.
Proof.
  destruct a as [s h | s | s ms | | ev |];
    try (cbn; by rewrite app_nil_r).
  - destruct ev as [| s d | s e | s r |];
      try (cbn; by rewrite app_nil_r).
    + rewrite output_event_emitted. unfold parsed_outputs.
      by rewrite omap_app.
    + cbn. unfold parsed_outputs. rewrite omap_app. cbn.
      by rewrite app_nil_r.
    + cbn. unfold parsed_outputs. rewrite omap_app. cbn.
      by rewrite app_nil_r.
  - cbn [step]. unfold tick. rewrite fire_due_emitted. cbn.
    by rewrite app_nil_r.
Qed.

(** X4. The communicator parses every output event exactly once, in
    the order of arrival and with its one parser: the [parsed-output]
    events of an execution are the sessions of the output events paired
    with the classifications the parser gives to their data fed in
    sequence, whatever handlers, waits, timeouts and clean-ups occur in
    between. *)
Theorem parsed_output_stream
    (c : ClaudeCodeCommunicator.t DefaultOutputParser.t)
    (actions : list Action) :
  parsed_outputs (emitted (run c actions)) =
    parsed_outputs (emitted c)
    ++ zip (output_events actions).*1
         (snd (DefaultOutputParser.feed (parser c)
                 (output_events actions).*2)).
Proof.
  revert c. induction actions as [|a rest IH]; intros c.
  - cbn. by rewrite app_nil_r.
  - cbn [run foldl]. fold (run (step c a) rest). rewrite IH.
    rewrite step_parsed_outputs, step_parser, <- app_assoc. f_equal.
    destruct a as [s h | s | s ms | | ev |]; try done.
    destruct ev as [| s d | s e | s r |]; try done.
    change (output_events (spawner_emits (output_event s d) :: rest))
      with ((s, d) :: output_events rest).
    rewrite !fmap_cons. cbn [fst snd].
    rewrite feed_cons. done.
Qed.

End Parsed_stream.

(* --------------------------------------------------------------------- *)
(** ** A waiter whose handler was removed *)
(* --------------------------------------------------------------------- *)

Section Orphaned_waiter.
Import ClaudeCodeCommunicator.
Context {P : Type} `{OutputParser P}.
Implicit Types (c : t P) (k : nat) (sid : jstring) (D : Z).

Lemma step_clock c a : clock (step c a) = (clock c + tick_of a)%Z.
Proof.
  destruct a as [s h | s | s ms | | ev |]; cbn [step tick_of];
    try (cbn; lia).
  - destruct ev as [| s d | s e | s r |]; cbn [on_spawner_event];
      try (cbn; lia).
    destruct (parse (parser c) d) as [p o].
    destruct (outputHandlers _ !! s) as [h |]; [| cbn; lia].
    rewrite (proj2 (proj2 (proj2 (call_handler_frame h o _)))). cbn; lia.
  - unfold tick. by rewrite (proj2 (proj2 (proj2 (fire_due_frame _ _)))).
Qed.

Lemma run_clock actions : ∀ c,
  clock (run c actions) = (clock c + elapsed actions)%Z.
Proof.
  induction actions as [|a rest IH]; intros c; [cbn; lia |].
  cbn [run foldl]. fold (run (step c a) rest).
  rewrite IH, step_clock, elapsed_cons. lia.
Qed.

Lemma orphaned_call_handler k sid D s h o c :
  orphaned k sid D c → outputHandlers c !! s = Some h →
  orphaned k sid D (call_handler h o c).
Proof.
  intros [Hf Ht Hp Hh] Hl. unfold call_handler.
  destruct h as [k' s' | h']; [| by split].
  assert (k' ≠ k) by (intros ->; by apply (Hh s s')).
  destruct (terminal o); [| by split].
  destruct (bool_decide _); split; cbn; try done.
  all: try (by rewrite lookup_delete_ne).
  all: try (by rewrite lookup_alter_ne).
  all: intros s0 sid0 Hl0; apply lookup_delete_Some in Hl0 as [_ Hl0];
       by apply (Hh s0 sid0).
Qed.

Lemma orphaned_fire k sid D c n tm :
  orphaned k sid D c → n ≠ k →
  orphaned k sid D (on_timeout n (timer_session tm) (clearTimeout n c)).
Proof.
  intros [Hf Ht Hp Hh] Hnk. split; cbn; try done.
  - by rewrite lookup_delete_ne.
  - by rewrite lookup_alter_ne.
  - intros s0 sid0 Hl0. apply lookup_delete_Some in Hl0 as [_ Hl0].
    by apply (Hh s0 sid0).
Qed.

Lemma orphaned_step k sid D c a :
  orphaned k sid D c → (clock c + tick_of a < D)%Z →
  orphaned k sid D (step c a).
Proof.
  intros Ho Hclk. pose proof Ho as [Hf Ht Hp Hh].
  destruct a as [s h | s | s ms | | ev |]; cbn [step tick_of] in *.
  - split; cbn; try done. intros s0 sid0 Hl.
    apply lookup_insert_Some in Hl as [[_ [=]] | [_ Hl]]. by apply (Hh s0 sid0).
  - split; cbn; try done. intros s0 sid0 Hl.
    apply lookup_delete_Some in Hl as [_ Hl]. by apply (Hh s0 sid0).
  - split; cbn.
    + lia.
    + rewrite lookup_insert_ne by lia. done.
    + rewrite lookup_insert_ne by lia. done.
    + intros s0 sid0 Hl.
      apply lookup_insert_Some in Hl as [[_ [= Hk _]] | [_ Hl]]; [lia |].
      by apply (Hh s0 sid0).
  - split; cbn; try done;
      intros s0 sid0 Hl; by rewrite lookup_empty in Hl.
  - destruct ev as [| s d | s e | s r |]; cbn [on_spawner_event]; try done.
    + destruct (parse (parser c) d) as [p o].
      set (c1 := emit (parsed_output s o) (set_parser p c)).
      assert (Ho1 : orphaned k sid D c1) by (by split).
      destruct (outputHandlers c1 !! s) as [h|] eqn:Hl; [| done].
      by apply (orphaned_call_handler k sid D s).
    + split; cbn; try done. intros s0 sid0 Hl.
      apply lookup_delete_Some in Hl as [_ Hl]. by apply (Hh s0 sid0).
  - apply (tick_preserves
             (λ c', orphaned k sid D c' ∧ clock c' = (clock c + 1)%Z));
      [| by split].
    intros c' n tm [Ho' Hc'] Htm Hdue. split; [| done].
    apply orphaned_fire; [done |].
    intros ->. destruct Ho' as [_ Ht' _ _]. rewrite Ht' in Htm.
    injection Htm as <-. cbn in Hdue. lia.
Qed.

Lemma orphaned_run k sid D actions : ∀ c,
  orphaned k sid D c → (clock c + elapsed actions < D)%Z →
  orphaned k sid D (run c actions).
Proof.
  induction actions as [|a rest IH]; intros c Ho Hclk; [done |].
  rewrite elapsed_cons in Hclk. pose proof (elapsed_nonneg rest).
  cbn [run foldl]. fold (run (step c a) rest).
  apply IH; [apply orphaned_step; [done | lia] |].
  rewrite step_clock. lia.
Qed.

Lemma retired_fire k c n tm :
  retired k c → timers c !! n = Some tm →
  retired k (on_timeout n (timer_session tm) (clearTimeout n c))
  ∧ promises (on_timeout n (timer_session tm) (clearTimeout n c)) !! k
    = promises c !! k.
Proof.
  intros [Hf Ht Hh] Htm.
  assert (n ≠ k) by (intros ->; congruence).
  split; [split |]; cbn; try done.
  - by rewrite lookup_delete_ne.
  - intros s0 sid0 Hl. apply lookup_delete_Some in Hl as [_ Hl].
    by apply (Hh s0 sid0).
  - by rewrite lookup_alter_ne.
Qed.

(** The millisecond at which the timer of the orphaned waiter is due. *)
Lemma orphaned_tick k sid D c :
  orphaned k sid D c → (D ≤ clock c + 1)%Z →
  retired k (tick c)
  ∧ promises (tick c) !! k = Some [reject (timeout_error sid)].
Proof.
  intros Ho Hdue. pose proof Ho as [Hf _ _ _]. unfold tick.
  set (c0 := set_clock (clock c + 1) c).
  assert (Ho0 : orphaned k sid D c0) by (destruct Ho; by split).
  assert (H1 : orphaned k sid D (fire_due k c0)).
  { apply (fire_due_preserves (orphaned k sid D) 0); [lia | | done].
    intros c' n tm Hn Ho' Htm _. apply orphaned_fire; [done | lia]. }
  apply (fire_due_preserves
           (λ c', retired k c'
                  ∧ promises c' !! k = Some [reject (timeout_error sid)])
           (S k));
    [change (next_waiter c0) with (next_waiter c); lia | |].
  { intros c' n tm _ [Hr Hp] Htm _.
    destruct (retired_fire k c' n tm Hr Htm) as [Hr' Hp'].
    split; [done |]. by rewrite Hp'. }
  cbn [fire_due]. destruct H1 as [Hf1 Ht1 Hp1 Hh1]. rewrite Ht1.
  cbn [deadline timer_session].
  rewrite (proj2 (proj2 (proj2 (fire_due_frame k c0)))).
  destruct (decide _) as [_ | Hn]; [| cbn in Hn; lia].
  split; [split |]; cbn; try done.
  - by rewrite lookup_delete_eq.
  - intros s0 sid0 Hl. apply lookup_delete_Some in Hl as [Hne Hl].
    by apply (Hh1 s0 sid0).
  - by rewrite lookup_alter_eq, Hp1.
Qed.

Lemma orphaned_times_out k sid D actions : ∀ c,
  orphaned k sid D c → (clock c < D)%Z → (D ≤ clock c + elapsed actions)%Z →
  settlements (run c actions) k = [reject (timeout_error sid)].
Proof.
  induction actions as [|a rest IH]; intros c Ho Hlt Hclk.
  - cbn in Hclk. lia.
  - rewrite elapsed_cons in Hclk.
    cbn [run foldl]. fold (run (step c a) rest).
    destruct (decide (clock c + tick_of a < D)%Z) as [Hbefore | Hnow].
    + apply IH; [by apply orphaned_step | |]; rewrite step_clock; lia.
    + assert (a = millisecond) as ->.
      { destruct a; cbn in Hnow; try lia. done. }
      destruct (orphaned_tick k sid D c Ho) as (Hr & Hp);
        [cbn in Hnow; lia |].
      destruct (retired_run k rest _ Hr) as [_ Hs'].
      cbn [step]. rewrite Hs'. unfold settlements. by rewrite Hp.
Qed.

(** *** The tables in the states a communicator reaches *)

Lemma setTimeout_delay_positive ms : (1 ≤ setTimeout_delay ms)%Z.
Proof. unfold setTimeout_delay. destruct (decide _); lia. Qed.

Lemma tables_sound_new (p0 : P) : tables_sound (new p0).
Proof.
  split; cbn; intros *; by rewrite lookup_empty.
Qed.

Lemma tables_sound_call_handler s h o c :
  tables_sound c → outputHandlers c !! s = Some h →
  tables_sound (call_handler h o c).
Proof.
  intros [Hf Hfu Hp Hh] Hl. unfold call_handler.
  destruct h as [k sid | h']; [| by split].
  destruct (Hh _ _ _ Hl) as (-> & D & Hk).
  destruct (terminal o); [| by split].
  assert (Hsound : tables_sound (offOutput sid (clearTimeout k c))).
  { split; cbn.
    - intros k' tm [_ Hl']%lookup_delete_Some. by apply (Hf k' tm).
    - intros k' tm [_ Hl']%lookup_delete_Some. by apply (Hfu k' tm).
    - intros k' tm [_ Hl']%lookup_delete_Some. by apply (Hp k' tm).
    - intros s' k' sid' [Hne Hl']%lookup_delete_Some.
      destruct (Hh _ _ _ Hl') as (-> & D' & Hk'). split; [done |].
      exists D'. rewrite lookup_delete_ne; [done |].
      intros ->. rewrite Hk in Hk'. injection Hk' as _ Hs. done. }
  destruct Hsound as [Hf' Hfu' Hp' Hh'].
  destruct (bool_decide _); split; cbn in *; try done.
  all: intros k' tm Hl'; pose proof Hl' as [Hne _]%lookup_delete_Some;
       rewrite lookup_alter_ne by done; by apply (Hp' k' tm).
Qed.

(** After the timers below [n] have been looked at, those of them that
    remain are not due. *)
Lemma fire_due_future n c :
  (∀ k tm, timers c !! k = Some tm → (clock c ≤ deadline tm)%Z) →
  ∀ k tm, timers (fire_due n c) !! k = Some tm →
          timers c !! k = Some tm
          ∧ ((k < n)%nat → (clock c < deadline tm)%Z).
Proof.
  intros Hle. induction n as [|n IH]; intros k tm Hl; cbn [fire_due] in Hl.
  - split; [done | lia].
  - pose proof (proj2 (proj2 (proj2 (fire_due_frame n c)))) as Hclock.
    destruct (timers (fire_due n c) !! n) as [tmn |] eqn:Hn.
    + destruct (decide (deadline tmn ≤ clock (fire_due n c))%Z) as [Hdue | Hnot].
      * cbn in Hl. apply lookup_delete_Some in Hl as [Hne Hl].
        destruct (IH _ _ Hl) as [Hc Hlt]. split; [done |]. intros ?.
        apply Hlt. lia.
      * destruct (IH _ _ Hl) as [Hc Hlt]. split; [done |]. intros Hk.
        destruct (decide (k = n)) as [-> | Hne]; [| apply Hlt; lia].
        rewrite Hn in Hl. injection Hl as <-. lia.
    + destruct (IH _ _ Hl) as [Hc Hlt]. split; [done |]. intros Hk.
      destruct (decide (k = n)) as [-> | Hne]; [congruence | apply Hlt; lia].
Qed.

Lemma tables_sound_tick c : tables_sound c → tables_sound (tick c).
Proof.
  intros [Hf Hfu Hp Hh].
  assert (HQ : (∀ k tm, timers (tick c) !! k = Some tm →
                        (k < next_waiter (tick c))%nat)
               ∧ (∀ k tm, timers (tick c) !! k = Some tm →
                          promises (tick c) !! k = Some [])
               ∧ (∀ s k sid,
                    outputHandlers (tick c) !! s = Some (wait_handler k sid) →
                    s = sid
                    ∧ ∃ D, timers (tick c) !! k
                           = Some {| deadline := D; timer_session := sid |})).
  { apply (tick_preserves
             (λ c', (∀ k tm, timers c' !! k = Some tm →
                             (k < next_waiter c')%nat)
                    ∧ (∀ k tm, timers c' !! k = Some tm →
                               promises c' !! k = Some [])
                    ∧ (∀ s k sid,
                         outputHandlers c' !! s = Some (wait_handler k sid) →
                         s = sid
                         ∧ ∃ D, timers c' !! k
                                = Some {| deadline := D;
                                          timer_session := sid |})));
      [| split; [exact Hf | split; [exact Hp | exact Hh]]].
    intros c' n tm (Hf' & Hp' & Hh') Htm _. split; [| split]; cbn.
    - intros k tm' [_ Hl]%lookup_delete_Some. by apply (Hf' k tm').
    - intros k tm' [Hne Hl]%lookup_delete_Some.
      rewrite lookup_alter_ne by done. by apply (Hp' k tm').
    - intros s k sid [Hne Hl]%lookup_delete_Some.
      destruct (Hh' _ _ _ Hl) as (-> & D & Hk). split; [done |]. exists D.
      rewrite lookup_delete_ne; [done |]. intros ->.
      rewrite Htm in Hk. injection Hk as ->. done. }
  destruct HQ as (Hf' & Hp' & Hh'). split; try done.
  intros k tm Hl. pose proof (Hf' _ _ Hl) as Hlt. unfold tick in Hl, Hlt |- *.
  rewrite (proj2 (proj2 (proj2 (fire_due_frame _ _)))).
  rewrite (proj1 (proj2 (proj2 (fire_due_frame _ _)))) in Hlt.
  destruct (fire_due_future (next_waiter c) (set_clock (clock c + 1) c))
    with (k := k) (tm := tm) as [Hc Hfut]; [| exact Hl |].
  - intros k' tm' Hl'. cbn in Hl' |- *. specialize (Hfu _ _ Hl'). lia.
  - apply Hfut. exact Hlt.
Qed.

Lemma tables_sound_step c a : tables_sound c → tables_sound (step c a).
Proof.
  intros Hs. pose proof Hs as [Hf Hfu Hp Hh].
  destruct a as [s h | s | s ms | | ev |]; cbn [step].
  - split; cbn; try done. intros s' k sid Hl.
    apply lookup_insert_Some in Hl as [[_ [=]] | [_ Hl]]. by apply Hh.
  - split; cbn; try done. intros s' k sid [_ Hl]%lookup_delete_Some.
    by apply Hh.
  - split; cbn.
    + intros k tm Hl. apply lookup_insert_Some in Hl as [[<- _] | [_ Hl]];
        [lia |]. specialize (Hf _ _ Hl). lia.
    + intros k tm Hl. apply lookup_insert_Some in Hl as [[_ <-] | [_ Hl]];
        [| by apply (Hfu k)].
      cbn. pose proof (setTimeout_delay_positive (default 300000%Z ms)). lia.
    + intros k tm Hl. apply lookup_insert_Some in Hl as [[<- _] | [Hne Hl]].
      * by rewrite lookup_insert_eq.
      * rewrite lookup_insert_ne by done. by apply (Hp k tm).
    + intros s' k sid Hl.
      apply lookup_insert_Some in Hl as [[<- [= <- <-]] | [_ Hl]].
      * split; [done |]. eexists. by rewrite lookup_insert_eq.
      * destruct (Hh _ _ _ Hl) as (-> & D & Hk). split; [done |].
        exists D. rewrite lookup_insert_ne; [done |].
        specialize (Hf _ _ Hk). lia.
  - by split; cbn; try done; intros s' k sid Hl; rewrite lookup_empty in Hl.
  - destruct ev as [| s data | s e | s r |]; cbn [on_spawner_event]; try done.
    + destruct (parse (parser c) data) as [p o].
      set (c1 := emit (parsed_output s o) (set_parser p c)).
      assert (Hs1 : tables_sound c1) by (by split).
      destruct (outputHandlers c1 !! s) as [h |] eqn:Hl; [| done].
      by apply (tables_sound_call_handler s).
    + split; cbn; try done. intros s' k sid [_ Hl]%lookup_delete_Some.
      by apply Hh.
  - by apply tables_sound_tick.
Qed.

Lemma tables_sound_run actions : ∀ c,
  tables_sound c → tables_sound (run c actions).
Proof.
  induction actions as [|a rest IH]; intros c Hs; [done |].
  apply (IH (step c a)). by apply tables_sound_step.
Qed.

(** Whatever removes or replaces the handler of the session of a
    pending wait leaves the wait orphaned. *)
Lemma displaced_orphaned k tm c a :
  tables_sound c → timers c !! k = Some tm →
  displaces (timer_session tm) a →
  orphaned k (timer_session tm) (deadline tm) (step c a).
Proof.
  intros [Hf Hfu Hp Hh] Hk Ha. destruct tm as [D sid]. cbn in Ha |- *.
  assert (Hother : ∀ s sid', s ≠ sid →
            outputHandlers c !! s ≠ Some (wait_handler k sid')).
  { intros s sid' Hne Hl. destruct (Hh _ _ _ Hl) as (-> & D' & Hk').
    rewrite Hk in Hk'. injection Hk' as _ Hs. done. }
  pose proof (Hf _ _ Hk) as Hlt. pose proof (Hp _ _ Hk) as Hpk.
  destruct a as [s h | s | s ms | | ev |]; cbn [step displaces] in Ha |- *;
    [| | | | | done].
  - subst s. split; cbn; try done. intros s0 sid0 Hl.
    apply lookup_insert_Some in Hl as [[_ [=]] | [Hne Hl]].
    by apply (Hother s0 sid0).
  - subst s. split; cbn; try done. intros s0 sid0 Hl.
    apply lookup_delete_Some in Hl as [Hne Hl]. by apply (Hother s0 sid0).
  - subst s. split; cbn.
    + lia.
    + rewrite lookup_insert_ne by lia. done.
    + rewrite lookup_insert_ne by lia. done.
    + intros s0 sid0 Hl.
      apply lookup_insert_Some in Hl as [[_ [= Hk0 _]] | [Hne Hl]]; [lia |].
      by apply (Hother s0 sid0).
  - by split; cbn; try done; intros s0 sid0 Hl; rewrite lookup_empty in Hl.
  - destruct ev as [| s d | s e | s r |]; try done. subst s.
    cbn [on_spawner_event]. split; cbn; try done. intros s0 sid0 Hl.
    apply lookup_delete_Some in Hl as [Hne Hl]. by apply (Hother s0 sid0).
Qed.

(** A pending wait whose handler is removed or replaced, in a state
    with sound tables. *)
Lemma displaced_wait_run k tm c a post :
  tables_sound c → timers c !! k = Some tm →
  displaces (timer_session tm) a →
  let c' := run (step c a) post in
  (clock c < deadline tm)%Z ∧ settlements c k = []
  ∧ ((clock c + elapsed post < deadline tm)%Z →
       settlements c' k = [] ∧ timers c' !! k = Some tm)
  ∧ ((deadline tm ≤ clock c + elapsed post)%Z →
       settlements c' k = [reject (timeout_error (timer_session tm))]).
Proof.
  intros Hs Hk Ha c'.
  pose proof (displaced_orphaned k tm c a Hs Hk Ha) as Ho.
  pose proof (ts_future c Hs _ _ Hk) as Hlt.
  assert (Hc : clock (step c a) = clock c).
  { rewrite step_clock. destruct a as [| | | | [] |]; cbn in Ha |- *;
      try lia; done. }
  split; [done |]. split.
  { unfold settlements. by rewrite (ts_promise c Hs _ _ Hk). }
  split.
  - intros Hbefore.
    destruct (orphaned_run k _ _ post (step c a) Ho) as [_ Ht Hp _];
      [lia |].
    split; [unfold settlements; subst c'; by rewrite Hp |].
    subst c'. rewrite Ht. by destruct tm.
  - intros Hafter. apply (orphaned_times_out k _ (deadline tm)); [done | lia | lia].
Qed.

(** The wait whose handler is registered for a session, and a terminal
    output for that session. *)
Lemma registered_wait_settles c s k sid data :
  tables_sound c →
  outputHandlers c !! s = Some (wait_handler k sid) →
  terminal (snd (parse (parser c) data)) = true →
  let c' := step c (spawner_emits (output_event s data)) in
  sid = s ∧ settlements c k = []
  ∧ settlements c' k = [settlement_of (snd (parse (parser c) data))]
  ∧ outputHandlers c' !! s = None ∧ timers c' !! k = None
  ∧ (∀ k', k' ≠ k → settlements c' k' = settlements c k').
Proof.
  intros [Hf Hfu Hp Hh] Hl Hterm. cbv zeta.
  destruct (Hh _ _ _ Hl) as (-> & D & Hk). pose proof (Hp _ _ Hk) as Hpk.
  split; [done |]. split; [unfold settlements; by rewrite Hpk |].
  cbn [step on_spawner_event].
  destruct (parse (parser c) data) as [p o]. cbn [snd] in *.
  cbn [outputHandlers emit set_parser]. rewrite Hl.
  unfold call_handler, settlement_of, settlements. rewrite Hterm.
  destruct (bool_decide (type o = Error)); cbn;
    rewrite lookup_alter_eq, Hpk, !lookup_delete_eq;
    (split; [done |]); (split; [done |]); (split; [done |]);
    intros k' Hne; by rewrite lookup_alter_ne.
Qed.

(** X5. Take any state a communicator reaches and any wait pending in
    it, that is, any [waitForCompletion] whose timer is still in the
    table (there may be other waits for the same session, older or
    newer).  The timer is not due and the promise has received nothing.
    When the handler of the session is then removed or replaced (by
    [offOutput], [cleanup], [onOutput] or another [waitForCompletion]
    for the session, or by a [completed] event), the wait is not
    settled by that: whatever happens afterwards, also a terminal
    output for the session, its promise receives nothing before the
    deadline of its timer and is rejected with the timeout error once
    the deadline has passed. *)
Theorem displaced_waiter_times_out (p0 : P) (history : list Action)
    (k : nat) (tm : Timer) (a : Action) (post : list Action) :
  let c := run (new p0) history in
  timers c !! k = Some tm →
  displaces (timer_session tm) a →
  let c' := run (step c a) post in
  (clock c < deadline tm)%Z ∧ settlements c k = []
  ∧ ((clock c + elapsed post < deadline tm)%Z →
       settlements c' k = [] ∧ timers c' !! k = Some tm)
  ∧ ((deadline tm ≤ clock c + elapsed post)%Z →
       settlements c' k = [reject (timeout_error (timer_session tm))]).
Proof.
  intros c Hk Ha. apply displaced_wait_run; [| done..].
  apply tables_sound_run, tables_sound_new.
Qed.

End Orphaned_waiter.

Section Orphaned_waiter_examples.
Import ClaudeCodeCommunicator.

Lemma displaced_waiter_times_out_witness :
  let history := [call_waitForCompletion (js "s") (Some 50%Z);
                  millisecond;
                  call_waitForCompletion (js "s") (Some 80%Z)] in
  let c := run (new DefaultOutputParser.new) history in
  let post := spawner_emits (output_event (js "s") (js "Task completed"))
              :: replicate 80 millisecond in
  outputHandlers c !! js "s" = Some (wait_handler 1 (js "s"))
  ∧ settlements (run (step c (call_offOutput (js "s"))) post) 1
    = [reject (timeout_error (js "s"))].
Proof.
  intros history c post. split; [vm_compute; reflexivity |].
  destruct (displaced_waiter_times_out DefaultOutputParser.new history 1
              {| deadline := 81; timer_session := js "s" |}
              (call_offOutput (js "s")) post) as (_ & _ & _ & Hafter).
  - vm_compute; reflexivity.
  - reflexivity.
  - apply Hafter. vm_compute. discriminate.
Defined.

End Orphaned_waiter_examples.

(* --------------------------------------------------------------------- *)
(** ** Invariants of the spawner *)
(* --------------------------------------------------------------------- *)

Section Spawner_invariants.
Import ClaudeCodeProcessSpawner.
Implicit Types (st : ClaudeCodeProcessSpawner.t) (s : ClaudeCodeSession.t).

(** *** Session objects *)

Lemma state_follows_refl a : state_follows a a.
Proof. by left. Qed.

Lemma state_follows_trans a b c :
  state_follows a b → state_follows b c → state_follows a c.
Proof.
  unfold state_follows.
  intros [-> | [[-> ->] | ->]] [-> | [[? ->] | ->]]; auto; done.
Qed.

Lemma evolves_refl s : evolves s s.
Proof. split; try done. apply state_follows_refl. Qed.

Lemma evolves_trans s1 s2 s3 : evolves s1 s2 → evolves s2 s3 → evolves s1 s3.
Proof.
  intros [] []. split; try congruence.
  by apply (state_follows_trans _ (ClaudeCodeSession.state s2)).
Qed.

Lemma evolves_set_lastActivity t s :
  evolves s (ClaudeCodeSession.set_lastActivity t s).
Proof. split; try done. apply state_follows_refl. Qed.

Lemma evolves_set_stopped s :
  evolves s (ClaudeCodeSession.set_state stopped s).
Proof. split; try done. right; by right. Qed.

Lemma evolves_onData_session t data s : evolves s (onData_session t data s).
Proof.
  destruct s as [sid ag pid wd task t0 state la err buf].
  unfold onData_session.
  generalize (includes data (js "Claude Code")). intros b. cbn.
  destruct state, b; split; cbn; try done; unfold state_follows; auto.
Qed.

Lemma onData_session_live t data s : live s → live (onData_session t data s).
Proof.
  destruct s as [sid ag pid wd task t0 state la err buf].
  unfold onData_session, live.
  generalize (includes data (js "Claude Code")). intros b. cbn.
  destruct state, b; cbn; auto.
Qed.

Lemma evolves_stopped s s' :
  evolves s s' → ClaudeCodeSession.state s = stopped →
  ClaudeCodeSession.state s' = stopped.
Proof.
  intros [_ _ _ _ _ _ _ Hst] Hs. rewrite Hs in Hst.
  by destruct Hst as [? | [[? ?] | ?]].
Qed.

(** *** The heap *)

Lemma heap_evolves_refl st : heap_evolves st st.
Proof. split; [done |]. intros r s _ Hl. exists s. split; [done |]. apply evolves_refl. Qed.

Lemma heap_evolves_trans st1 st2 st3 :
  heap_evolves st1 st2 → heap_evolves st2 st3 → heap_evolves st1 st3.
Proof.
  intros [Hn1 H1] [Hn2 H2]. split; [lia |]. intros r s Hr Hl.
  destruct (H1 r s Hr Hl) as (s2 & Hl2 & He2).
  destruct (H2 r s2) as (s3 & Hl3 & He3); [lia | done |].
  exists s3. split; [done |]. by apply (evolves_trans _ s2).
Qed.

Lemma heap_evolves_same st st' :
  next_ref st' = next_ref st → sessions st' = sessions st →
  heap_evolves st st'.
Proof.
  intros Hn Hs. split; [lia |]. intros r s _ Hl. exists s.
  rewrite Hs. split; [done |]. apply evolves_refl.
Qed.

Lemma heap_evolves_alter st st' r f :
  next_ref st' = next_ref st → sessions st' = alter f r (sessions st) →
  (∀ s, evolves s (f s)) → heap_evolves st st'.
Proof.
  intros Hn Hs Hf. split; [lia |]. intros r' s _ Hl. rewrite Hs.
  destruct (decide (r' = r)) as [-> | Hne].
  - exists (f s). by rewrite lookup_alter_eq, Hl.
  - exists s. rewrite lookup_alter_ne by done. split; [done |].
    apply evolves_refl.
Qed.

Lemma heap_evolves_insert st st' s0 :
  next_ref st' = S (next_ref st) →
  sessions st' = <[next_ref st := s0]> (sessions st) →
  heap_evolves st st'.
Proof.
  intros Hn Hs. split; [lia |]. intros r s Hr Hl. exists s. rewrite Hs.
  rewrite lookup_insert_ne by lia. split; [done |]. apply evolves_refl.
Qed.

(** *** Coherence *)

Lemma coherent_new agent : coherent (new agent).
Proof.
  split; cbn.
  - intros sid r Hl. by rewrite lookup_empty in Hl.
  - intros r s Hl. by rewrite lookup_empty in Hl.
  - intros w sid r Hin. by apply elem_of_nil in Hin.
Qed.

Lemma coherent_same st st' :
  agent st' = agent st → activeSessions st' = activeSessions st →
  sessions st' = sessions st → next_ref st' = next_ref st →
  (∀ w sid r, stop_grace w sid r ∈ sleepers st' →
              stop_grace w sid r ∈ sleepers st) →
  coherent st → coherent st'.
Proof.
  intros Ha Hreg Hs Hn Hsl [Hr Hh Hsle]. split.
  - rewrite Hreg, Hs. apply Hr.
  - rewrite Hs, Hn, Ha. apply Hh.
  - rewrite Hs. intros w sid r Hin. apply (Hsle w). by apply Hsl.
Qed.

Lemma coherent_alter st st' r f :
  agent st' = agent st → activeSessions st' = activeSessions st →
  sessions st' = alter f r (sessions st) → next_ref st' = next_ref st →
  (∀ w sid r, stop_grace w sid r ∈ sleepers st' →
              stop_grace w sid r ∈ sleepers st) →
  (∀ s, evolves s (f s) ∧ (live s → live (f s))) →
  coherent st → coherent st'.
Proof.
  intros Ha Hreg Hs Hn Hsl Hf [Hr Hh Hsle].
  assert (Hlook : ∀ r' s', sessions st' !! r' = Some s' →
            ∃ s, sessions st !! r' = Some s ∧ evolves s s'
                 ∧ (live s → live s')).
  { intros r' s'. rewrite Hs. destruct (decide (r' = r)) as [-> | Hne].
    - rewrite lookup_alter_eq.
      destruct (sessions st !! r) as [s |]; [| done]. intros [= <-].
      exists s. split; [done |]. apply Hf.
    - rewrite lookup_alter_ne by done. intros Hl. exists s'.
      split; [done |]. split; [apply evolves_refl | done]. }
  assert (Hfwd : ∀ r' s, sessions st !! r' = Some s →
            ∃ s', sessions st' !! r' = Some s' ∧ evolves s s'
                  ∧ (live s → live s')).
  { intros r' s Hl. rewrite Hs. destruct (decide (r' = r)) as [-> | Hne].
    - exists (f s). rewrite lookup_alter_eq, Hl. split; [done |]. apply Hf.
    - exists s. rewrite lookup_alter_ne by done.
      split; [done |]. split; [apply evolves_refl | done]. }
  split.
  - rewrite Hreg. intros sid r' Hl.
    destruct (Hr _ _ Hl) as (s & Hls & Hid & Hlive).
    destruct (Hfwd _ _ Hls) as (s' & Hls' & He & Hl').
    exists s'. split; [done |]. split; [| auto].
    destruct He. congruence.
  - intros r' s' Hl'. destruct (Hlook _ _ Hl') as (s & Hl & He & Hlv).
    destruct (Hh _ _ Hl) as (Hlt & Hag & Herr & Hst).
    rewrite Hn, Ha. split; [done |]. destruct He as [? Hag' ? ? ? ? Herr' ?].
    split; [congruence |]. split; [congruence |].
    destruct Hst as [Hlive | Hstop]; [left; auto |].
    right. apply (evolves_stopped s); [by split | done].
  - intros w sid r' Hin. apply Hsl, Hsle in Hin as (s & Hl & Hid).
    destruct (Hfwd _ _ Hl) as (s' & Hl' & [? ? ? ? ? ? ? ?] & _).
    exists s'. split; [done | congruence].
Qed.

(** The end of [stop] and the exit callback: the session object [r],
    whose id is [sid], is stopped and the id leaves the registry. *)
Lemma coherent_stopped st st' sid r :
  agent st' = agent st →
  activeSessions st' = delete sid (activeSessions st) →
  sessions st' = alter (ClaudeCodeSession.set_state stopped) r (sessions st) →
  next_ref st' = next_ref st →
  (∀ w sid r, stop_grace w sid r ∈ sleepers st' →
              stop_grace w sid r ∈ sleepers st) →
  (∀ s, sessions st !! r = Some s → ClaudeCodeSession.sessionId s = sid) →
  coherent st → coherent st'.
Proof.
  intros Ha Hreg Hs Hn Hsl Hid [Hr Hh Hsle]. split.
  - rewrite Hreg, Hs. intros sid' r' [Hne Hl]%lookup_delete_Some.
    destruct (Hr _ _ Hl) as (s & Hls & Hids & Hlive).
    exists s. split; [| done]. rewrite lookup_alter_ne; [done |].
    intros ->. apply Hne. rewrite <- Hids. symmetry. by apply Hid.
  - rewrite Hs, Hn, Ha. intros r' s'.
    destruct (decide (r' = r)) as [-> | Hne].
    + rewrite lookup_alter_eq.
      destruct (sessions st !! r) as [s |] eqn:Hl; [| done]. intros [= <-].
      destruct (Hh _ _ Hl) as (? & ? & ? & ?). cbn. auto.
    + rewrite lookup_alter_ne by done. apply Hh.
  - rewrite Hs. intros w sid' r' Hin.
    apply Hsl, Hsle in Hin as (s & Hl & Hids).
    destruct (decide (r' = r)) as [-> | Hne].
    + exists (ClaudeCodeSession.set_state stopped s).
      by rewrite lookup_alter_eq, Hl.
    + exists s. by rewrite lookup_alter_ne.
Qed.

(** *** Writes to a pseudo-terminal *)

Lemma writes_to_app r ops1 ops2 :
  writes_to r (ops1 ++ ops2) = writes_to r ops1 ++ writes_to r ops2.
Proof. apply omap_app. Qed.

Lemma writes_to_other r r' op ops :
  r' ≠ r → writes_to r (ops ++ [(r', op)]) = writes_to r ops.
Proof.
  intros Hne. rewrite writes_to_app. cbn. destruct op; cbn;
    rewrite ?decide_False by done; by rewrite app_nil_r.
Qed.

Lemma writes_to_kill r r' sig ops :
  writes_to r (ops ++ [(r', pty_kill sig)]) = writes_to r ops.
Proof. rewrite writes_to_app. cbn. by rewrite app_nil_r. Qed.

Lemma registered_not_stopped st sid r' r s :
  coherent st → activeSessions st !! sid = Some r' →
  sessions st !! r = Some s → ClaudeCodeSession.state s = stopped → r' ≠ r.
Proof.
  intros [Hr _ _] Hl Hs Hst ->.
  destruct (Hr _ _ Hl) as (s' & Hs' & _ & [Hlive | Hlive]);
    rewrite Hs in Hs'; injection Hs' as <-; congruence.
Qed.

(** *** The operations *)

Lemma transition_refl st : transition st st.
Proof. split; try done. apply heap_evolves_refl. Qed.

Lemma transition_trans st1 st2 st3 :
  transition st1 st2 → transition st2 st3 → transition st1 st3.
Proof.
  intros [Ha1 Hc1 Hh1 Hw1] [Ha2 Hc2 Hh2 Hw2]. split.
  - congruence.
  - auto.
  - by apply (heap_evolves_trans _ st2).
  - intros Hco r s Hl Hst.
    rewrite <- (Hw1 Hco r s Hl Hst).
    pose proof Hco as [_ Hheap _]. destruct (Hheap _ _ Hl) as (Hlt & _).
    destruct Hh1 as [_ Hh1]. destruct (Hh1 r s Hlt Hl) as (s2 & Hl2 & He).
    apply (Hw2 (Hc1 Hco) r s2 Hl2).
    by apply (evolves_stopped s).
Qed.

Lemma transition_logger lvl msg st : transition st (logger lvl msg st).
Proof.
  split; try done.
  - by apply coherent_same.
  - by apply heap_evolves_same.
Qed.

Lemma transition_emit ev st : transition st (emit ev st).
Proof.
  split; try done.
  - by apply coherent_same.
  - by apply heap_evolves_same.
Qed.

Lemma elem_of_delete_list {A} (x : A) i (l : list A) :
  x ∈ delete i l → x ∈ l.
Proof.
  revert i; induction l as [|y l IH]; intros [|i]; cbn; try done.
  - intros ?. by right.
  - intros [-> | ?]%elem_of_cons; [by left | right; eauto].
Qed.

Lemma transition_stop_finish st st0 sid r :
  agent st = agent st0 → activeSessions st = activeSessions st0 →
  sessions st = sessions st0 → next_ref st = next_ref st0 →
  (∀ w sid r, stop_grace w sid r ∈ sleepers st →
              stop_grace w sid r ∈ sleepers st0) →
  (∀ r', writes_to r' (pty_ops st) = writes_to r' (pty_ops st0)) →
  (coherent st0 → ∀ s, sessions st0 !! r = Some s →
                       ClaudeCodeSession.sessionId s = sid) →
  transition st0 (stop_finish sid r st).
Proof.
  intros Ha Hreg Hs Hn Hsl Hw Hid. split.
  - done.
  - intros Hco. apply (coherent_stopped st0 _ sid r); cbn; try done.
    + by rewrite Hreg.
    + by rewrite Hs.
    + by apply Hid.
  - apply (heap_evolves_alter _ _ r (ClaudeCodeSession.set_state stopped));
      cbn; [done | by rewrite Hs |]. apply evolves_set_stopped.
  - intros _ r' s _ _. cbn. apply Hw.
Qed.

Lemma transition_stop sid force t st : transition st (stop sid force t st).
Proof.
  unfold stop. destruct (activeSessions st !! sid) as [r |] eqn:Hl;
    [| apply transition_logger].
  destruct force.
  - apply transition_stop_finish; cbn; try done.
    + intros r'. apply writes_to_kill.
    + intros [Hr _ _] s Hs. destruct (Hr _ _ Hl) as (s' & Hs' & Hid & _).
      congruence.
  - split; cbn; try done.
    + intros [Hr Hh Hsle]. split; cbn; try done.
      intros w sid' r' [Hin | Hin]%elem_of_app; [by apply (Hsle w) |].
      apply list_elem_of_singleton in Hin. injection Hin as -> -> ->.
      destruct (Hr _ _ Hl) as (s & Hs & Hid & _). by exists s.
    + by apply heap_evolves_same.
    + intros Hco r' s Hs Hst. apply writes_to_other.
      by apply (registered_not_stopped st sid r r' s).
Qed.

Lemma transition_stop_resume sid r i st :
  (∃ w, sleepers st !! i = Some (stop_grace w sid r)) →
  transition st (stop_resume sid r (set_sleepers (delete i (sleepers st)) st)).
Proof.
  intros [w Hsl]. unfold stop_resume. cbn [activeSessions set_sleepers].
  assert (Hid : coherent st → ∀ s, sessions st !! r = Some s →
                                   ClaudeCodeSession.sessionId s = sid).
  { intros [_ _ Hsle] s Hs.
    destruct (Hsle w sid r) as (s' & Hs' & Hid);
      [by apply list_elem_of_lookup_2 in Hsl | congruence]. }
  destruct (activeSessions st !! sid) as [r' |] eqn:Hl.
  - apply transition_stop_finish; cbn; try done.
    + intros w' sid' r0. apply elem_of_delete_list.
    + intros r0. apply writes_to_kill.
  - apply transition_stop_finish; cbn; try done.
    intros w' sid' r0. apply elem_of_delete_list.
Qed.

Lemma transition_sendTask sid task st0 st st' :
  agent st = agent st0 → activeSessions st = activeSessions st0 →
  sessions st = sessions st0 → next_ref st = next_ref st0 →
  (∀ w sid r, stop_grace w sid r ∈ sleepers st →
              stop_grace w sid r ∈ sleepers st0) →
  pty_ops st = pty_ops st0 →
  sendTask sid task st = Ok st' →
  transition st0 st'.
Proof.
  intros Ha Hreg Hs Hn Hsl Hops. unfold sendTask.
  destruct (activeSessions st !! sid) as [r |] eqn:Hl; [| done].
  intros [= <-]. split; cbn; try done.
  - by apply coherent_same.
  - by apply heap_evolves_same.
  - intros Hco r' s Hs' Hst. rewrite Hops. apply writes_to_other.
    rewrite Hreg in Hl. by apply (registered_not_stopped st0 sid r r' s).
Qed.

Lemma transition_wake i t st : transition st (wake i t st).
Proof.
  unfold wake. destruct (sleepers st !! i) as [sl |] eqn:Hsl;
    [| apply transition_refl].
  destruct (decide _); [| apply transition_refl].
  destruct sl as [w sid task pid r | w sid r].
  - unfold spawn_resume.
    set (st1 := set_sleepers (delete i (sleepers st)) st).
    destruct (sendTask sid task st1) as [st2 | err] eqn:Hsend; cbn [fst].
    + apply (transition_trans _ st2); [| apply transition_emit].
      apply (transition_sendTask sid task st st1 st2); try done.
      intros w' sid' r0. apply elem_of_delete_list.
    + split; cbn; try done.
      * apply coherent_same; try done.
        intros w' sid' r0. apply elem_of_delete_list.
      * by apply heap_evolves_same.
  - apply transition_stop_resume. by exists w.
Qed.

Lemma transition_write sid input t st st' :
  write sid input t st = Ok st' → transition st st'.
Proof.
  unfold write. destruct (activeSessions st !! sid) as [r |] eqn:Hl; [| done].
  intros [= <-]. split; cbn; try done.
  - apply (coherent_alter st _ r (ClaudeCodeSession.set_lastActivity t));
      try done.
    intros s. split; [apply evolves_set_lastActivity | done].
  - apply (heap_evolves_alter _ _ r (ClaudeCodeSession.set_lastActivity t));
      try done. apply evolves_set_lastActivity.
  - intros Hco r' s Hs Hst. apply writes_to_other.
    by apply (registered_not_stopped st sid r r' s).
Qed.

Lemma transition_onData r data t st : transition st (onData r data t st).
Proof.
  unfold onData. destruct (sessions st !! r) as [s |]; [| apply transition_refl].
  split; cbn; try done.
  - apply (coherent_alter st _ r (onData_session t data)); try done.
    intros s'. split; [apply evolves_onData_session |].
    apply onData_session_live.
  - apply (heap_evolves_alter _ _ r (onData_session t data)); try done.
    apply evolves_onData_session.
Qed.

Lemma transition_onExit r code st : transition st (onExit r code st).
Proof.
  unfold onExit.
  destruct (sessions st !! r) as [s |] eqn:Hs; [| apply transition_refl].
  split; cbn; try done.
  - apply (coherent_stopped st _ (ClaudeCodeSession.sessionId s) r);
      try done. intros s' Hs'. congruence.
  - apply (heap_evolves_alter _ _ r (ClaudeCodeSession.set_state stopped));
      try done. apply evolves_set_stopped.
Qed.

Lemma transition_spawn e o st : transition st (fst (spawn e o st)).
Proof.
  unfold spawn. destruct (pty_pid e) as [pid | err]; cbn [fst];
    [| apply transition_logger].
  match goal with
  | |- transition _ (fst (if ?b then _ else _)) => destruct b
  end; cbn [fst].
  all: split; cbn; try done.
  all: try (eapply heap_evolves_insert; cbn; done).
  all: intros [Hr Hh Hsle]; split; cbn.
  all: try (intros sid r [[<- <-] | [Hne Hl]]%lookup_insert_Some;
            [ eexists; rewrite lookup_insert_eq; split; [done |];
              split; [done | by left]
            | destruct (Hr _ _ Hl) as (s & Hs & Hid & Hlive);
              destruct (Hh _ _ Hs) as (Hlt & _);
              exists s; rewrite lookup_insert_ne by lia; done ]).
  all: try (intros r s [[<- <-] | [Hne Hl]]%lookup_insert_Some;
            [ cbn; split; [lia |]; split; [done |]; split; [done |];
              left; by left
            | destruct (Hh _ _ Hl) as (? & ? & ? & ?);
              split; [lia | done] ]).
  - intros w sid r [Hin | Hin]%elem_of_app.
    + destruct (Hsle _ _ _ Hin) as (s & Hs & Hid).
      destruct (Hh _ _ Hs) as (Hlt & _).
      exists s. by rewrite lookup_insert_ne by lia.
    + by apply list_elem_of_singleton in Hin.
  - intros w sid r Hin.
    destruct (Hsle _ _ _ Hin) as (s & Hs & Hid).
    destruct (Hh _ _ Hs) as (Hlt & _).
    exists s. by rewrite lookup_insert_ne by lia.
Qed.

Lemma transition_step st a : transition st (step st a).
Proof.
  destruct a as [e o | sid input t | sid force t | i t | r data t | r code];
    cbn [step].
  - apply transition_spawn.
  - destruct (write sid input t st) as [st' |] eqn:Hw;
      [by apply (transition_write sid input t) | apply transition_refl].
  - apply transition_stop.
  - apply transition_wake.
  - apply transition_onData.
  - apply transition_onExit.
Qed.

Lemma transition_run actions : ∀ st, transition st (run st actions).
Proof.
  induction actions as [|a rest IH]; intros st; [apply transition_refl |].
  apply (transition_trans _ (step st a)); [apply transition_step | apply IH].
Qed.

Lemma run_app st actions1 actions2 :
  run st (actions1 ++ actions2) = run (run st actions1) actions2.
Proof. apply foldl_app. Qed.

Lemma getSession_coherent st sid s :
  coherent st → getSession sid st = Some s →
  ClaudeCodeSession.sessionId s = sid ∧ live s
  ∧ ClaudeCodeSession.agentId s = AgentConfig.id (agent st)
  ∧ ClaudeCodeSession.error s = None.
Proof.
  intros [Hr Hh _]. unfold getSession.
  destruct (activeSessions st !! sid) as [r |] eqn:Hl; [| done]. cbn.
  intros Hs. destruct (Hr _ _ Hl) as (s' & Hs' & Hid & Hlive).
  destruct (Hh _ _ Hs) as (_ & Hag & Herr & _).
  rewrite Hs in Hs'. injection Hs' as <-. done.
Qed.

(** X6. In every execution of a spawner, [getSession] returns under an
    id only a session object that carries this id, belongs to the
    agent, has no error message and is in state [starting] or
    [running]: a stopped session is never returned, and the states
    [idle] and [error] are never assigned. *)
Theorem getSession_returns_live_session (agent : AgentConfig.t)
    (actions : list Action) (sessionId : jstring) (s : ClaudeCodeSession.t) :
  getSession sessionId (run (new agent) actions) = Some s →
  ClaudeCodeSession.sessionId s = sessionId
  ∧ (ClaudeCodeSession.state s = starting
     ∨ ClaudeCodeSession.state s = running)
  ∧ ClaudeCodeSession.agentId s = AgentConfig.id agent
  ∧ ClaudeCodeSession.error s = None.
Proof.
  intros Hg.
  pose proof (transition_run actions (new agent)) as [Ha Hc _ _].
  apply (getSession_coherent _ _ _ (Hc (coherent_new agent))) in Hg.
  by rewrite Ha in Hg.
Qed.

Lemma getSession_returns_live_session_witness :
  ∃ s, getSession one_session_id
         (run (new test_agent)
            [call_spawn (spawn_env 1700000000000 (js "0.4fzyo82mvyr") 4242)
               (continue_options (js "Continue"));
             pty_data 0 (js "Welcome to Claude Code") 1700000000100]) = Some s
       ∧ ClaudeCodeSession.sessionId s = one_session_id
       ∧ ClaudeCodeSession.state s = running.
Proof.
  eexists. split; [vm_compute; reflexivity |].
  match goal with
  | |- ClaudeCodeSession.sessionId ?s = _ ∧ _ =>
      destruct (getSession_returns_live_session test_agent
                  [call_spawn
                     (spawn_env 1700000000000 (js "0.4fzyo82mvyr") 4242)
                     (continue_options (js "Continue"));
                   pty_data 0 (js "Welcome to Claude Code") 1700000000100]
                  one_session_id s) as (Hid & _)
  end.
  - vm_compute; reflexivity.
  - split; [exact Hid | vm_compute; reflexivity].
Defined.

(** X7. A session object, once created, stays in the heap of the
    spawner for the rest of the execution, and only its activity time,
    its output buffer and its state change: the id, the agent, the
    process id, the working directory, the task and the start time are
    fixed, and the state only goes from [starting] to [running] and
    from either to [stopped], where it stays. *)
Theorem session_objects_evolve (agent : AgentConfig.t)
    (pre post : list Action) (r : ref) (s : ClaudeCodeSession.t) :
  sessions (run (new agent) pre) !! r = Some s →
  ∃ s', sessions (run (new agent) (pre ++ post)) !! r = Some s'
        ∧ evolves s s'
        ∧ (ClaudeCodeSession.state s = stopped →
           ClaudeCodeSession.state s' = stopped)
        ∧ (ClaudeCodeSession.state s = running →
           ClaudeCodeSession.state s' ≠ starting).
Proof.
  intros Hs. rewrite run_app.
  pose proof (transition_run pre (new agent)) as [_ Hc _ _].
  destruct (Hc (coherent_new agent)) as [_ Hh _].
  destruct (Hh _ _ Hs) as (Hlt & _).
  pose proof (transition_run post (run (new agent) pre)) as [_ _ [_ He] _].
  destruct (He r s Hlt Hs) as (s' & Hs' & Hev).
  exists s'. split; [done |]. split; [done |]. split.
  - by apply evolves_stopped.
  - intros Hrun. destruct Hev as [_ _ _ _ _ _ _ Hst]. rewrite Hrun in Hst.
    destruct Hst as [-> | [[? ?] | ->]]; done.
Qed.

Lemma session_objects_evolve_witness :
  ∃ s', sessions (run (new test_agent)
                    ([call_spawn
                        (spawn_env 1700000000000 (js "0.4fzyo82mvyr") 4242)
                        (continue_options (js "Continue"))]
                     ++ [call_stop one_session_id true 1700000000500]))
          !! 0%nat = Some s'
        ∧ ClaudeCodeSession.sessionId s' = one_session_id
        ∧ ClaudeCodeSession.state s' = stopped.
Proof.
  assert (Hs : ∃ s, sessions (run (new test_agent)
                       [call_spawn
                          (spawn_env 1700000000000 (js "0.4fzyo82mvyr") 4242)
                          (continue_options (js "Continue"))]) !! 0%nat
                    = Some s
                    ∧ ClaudeCodeSession.sessionId s = one_session_id).
  { eexists. split; vm_compute; reflexivity. }
  destruct Hs as (s & Hs & Hid).
  destruct (session_objects_evolve test_agent _
              [call_stop one_session_id true 1700000000500] 0 s Hs)
    as (s' & Hs' & Hev & _).
  exists s'. split; [exact Hs' |]. split.
  - destruct Hev as [Hid' _ _ _ _ _ _ _]. by rewrite Hid'.
  - revert Hs'. vm_compute. by intros [= <-].
Defined.

(** X8. Once a session object is stopped, its pseudo-terminal receives
    no further input for the rest of the execution: [write], the
    interrupt of a graceful [stop] and the task of a settling [spawn]
    all go through the registry, which holds no stopped session. *)
Theorem stopped_session_not_written (agent : AgentConfig.t)
    (pre post : list Action) (r : ref) (s : ClaudeCodeSession.t) :
  sessions (run (new agent) pre) !! r = Some s →
  ClaudeCodeSession.state s = stopped →
  writes_to r (pty_ops (run (new agent) (pre ++ post)))
    = writes_to r (pty_ops (run (new agent) pre)).
Proof.
  intros Hs Hst. rewrite run_app.
  pose proof (transition_run pre (new agent)) as [_ Hc _ _].
  pose proof (transition_run post (run (new agent) pre)) as [_ _ _ Hw].
  by apply (Hw (Hc (coherent_new agent)) r s).
Qed.

Lemma stopped_session_not_written_witness :
  let pre := [call_spawn (spawn_env 1700000000000 (js "0.4fzyo82mvyr") 4242)
                (task_only (js "fix the build"));
              pty_exit 0 1] in
  let post := [timer_fires 0 1700000001000;
               call_write one_session_id (js "hello") 1700000002000] in
  writes_to 0 (pty_ops (run (new test_agent) (pre ++ post))) = [].
Proof.
  intros pre post.
  assert (Hs : ∃ s, sessions (run (new test_agent) pre) !! 0%nat = Some s
                    ∧ ClaudeCodeSession.state s = stopped).
  { eexists. split; vm_compute; reflexivity. }
  destruct Hs as (s & Hs & Hst).
  rewrite (stopped_session_not_written test_agent pre post 0 s Hs Hst).
  vm_compute; reflexivity.
Defined.

End Spawner_invariants.

(* --------------------------------------------------------------------- *)
(** ** The operations of the spawner *)
(* --------------------------------------------------------------------- *)

Section Spawner_operations.
Import ClaudeCodeProcessSpawner.
Implicit Types (st : ClaudeCodeProcessSpawner.t)
  (o : ClaudeCodeSpawnOptions.t).

(** The state after a [spawn] whose pseudo-terminal is created, before
    the part that depends on the options. *)
Lemma spawn_unfold e o st pid :
  pty_pid e = Ok pid →
  let sid := generateSessionId (AgentConfig.id (agent st)) (now e)
               (random36 e) in
  let st1 := fst (spawn e o st) in
  ∃ call,
    pty_spawns st1 = pty_spawns st ++ [(next_ref st, call)]
    ∧ args call = buildCommandArgs st o
    ∧ cwd call = ClaudeCodeSession.workdir (new_session e o st pid)
    ∧ file call =
        (if truthy_str (ClaudeCodeConfig.binaryPath (claudeConfig st))
         then default [] (ClaudeCodeConfig.binaryPath (claudeConfig st))
         else js "/opt/homebrew/bin/claude")
    ∧ env call =
        (if teams_enabled st o
         then <[teams_variable := js "1"]>
                (default ∅ (ClaudeCodeConfig.env (claudeConfig st))
                 ∪ process_env e)
         else default ∅ (ClaudeCodeConfig.env (claudeConfig st))
              ∪ process_env e)
    ∧ activeSessions st1 = <[sid := next_ref st]> (activeSessions st)
    ∧ sessions st1 = <[next_ref st := new_session e o st pid]> (sessions st)
    ∧ next_ref st1 = S (next_ref st)
    ∧ pty_ops st1 = pty_ops st
    ∧ (if starts_afresh o
       then snd (spawn e o st) = spawn_sleeping
            ∧ emitted st1 = emitted st
            ∧ sleepers st1 =
                sleepers st
                ++ [spawn_settle (now e + 1000) sid
                      (ClaudeCodeSpawnOptions.task o) pid (next_ref st)]
       else snd (spawn e o st) = spawn_resolved (next_ref st)
            ∧ emitted st1 = emitted st ++ [started_event sid pid]
            ∧ sleepers st1 = sleepers st).
Proof.
  intros Hpid. cbv zeta. unfold spawn, starts_afresh, teams_enabled.
  rewrite Hpid.
  destruct (negb _ && negb _); cbn [fst snd]; eexists;
    (split; [reflexivity |]); cbn; done.
Qed.


(** X9. The process of a session is started with the arguments of
    [buildCommandArgs] and with the environment of the host process
    overlaid by the variables of the agent configuration, which win;
    when agent teams are enabled the teams variable is set to [1],
    whatever the two say.  The working directory is the workspace of the
    agent unless the options continue the last session: a resumed
    session does not use the configured working directory. *)
Theorem spawn_process_environment (e : SpawnEnv)
    (o : ClaudeCodeSpawnOptions.t) (st : ClaudeCodeProcessSpawner.t)
    (pid : Z) :
  pty_pid e = Ok pid →
  ∃ call,
    pty_spawns (fst (spawn e o st)) = pty_spawns st ++ [(next_ref st, call)]
    ∧ args call = buildCommandArgs st o
    ∧ (∀ k, env call !! k =
         if teams_enabled st o && bool_decide (k = teams_variable)
         then Some (js "1")
         else match config_env st k with
              | Some v => Some v
              | None => process_env e !! k
              end)
    ∧ (truthy_bool (ClaudeCodeSpawnOptions.continue o) = false →
       cwd call = AgentConfig.workspace (agent st))
    ∧ (truthy_bool (ClaudeCodeSpawnOptions.continue o) = true →
       cwd call =
         match ClaudeCodeConfig.workdir (claudeConfig st) with
         | Some (c :: d) => c :: d
         | _ => AgentConfig.workspace (agent st)
         end).
Proof.
  intros Hpid.
  destruct (spawn_unfold e o st pid Hpid)
    as (call & Hcall & Hargs & Hcwd & _ & Henv & _).
  exists call. split; [done |]. split; [done |]. split; [| split].
  - intros k. rewrite Henv. unfold config_env.
    assert (Hmerge : (default ∅ (ClaudeCodeConfig.env (claudeConfig st))
                      ∪ process_env e) !! k =
                     match ClaudeCodeConfig.env (claudeConfig st)
                           ≫= (λ m, m !! k) with
                     | Some v => Some v
                     | None => process_env e !! k
                     end).
    { rewrite lookup_union.
      destruct (ClaudeCodeConfig.env (claudeConfig st)) as [m |]; cbn.
      - destruct (m !! k); [by rewrite union_Some_l |].
        by destruct (process_env e !! k).
      - rewrite lookup_empty. by destruct (process_env e !! k). }
    destruct (teams_enabled st o); cbn [andb]; [| done].
    destruct (decide (k = teams_variable)) as [-> | Hne].
    + rewrite bool_decide_eq_true_2 by done. by rewrite lookup_insert_eq.
    + rewrite bool_decide_eq_false_2 by done.
      by rewrite lookup_insert_ne.
  - intros Hc. rewrite Hcwd. cbn. by rewrite Hc.
  - intros Hc. rewrite Hcwd. cbn. rewrite Hc.
    by destruct (ClaudeCodeConfig.workdir (claudeConfig st)) as [[|c d] |].
Qed.

Lemma spawn_process_environment_witness :
  ∃ call,
    pty_spawns (fst (spawn env_of_process
                       (RuntimeMethods.resume_options (js "abc") None)
                       (new agent_with_env)))
      = [(0%nat, call)]
    ∧ env call !! js "PATH" = Some (js "/agent/bin")
    ∧ env call !! js "HOME" = Some (js "/root")
    ∧ env call !! teams_variable = Some (js "1")
    ∧ cwd call = js "/tmp/wolverine".
Proof.
  destruct (spawn_process_environment env_of_process
              (RuntimeMethods.resume_options (js "abc") None)
              (new agent_with_env) 4242 eq_refl)
    as (call & Hcall & _ & Henv & Hcwd & _).
  exists call. split; [exact Hcall |].
  rewrite !Henv. split; [vm_compute; reflexivity |].
  split; [vm_compute; reflexivity |]. split; [vm_compute; reflexivity |].
  apply Hcwd. reflexivity.
Defined.

(** X10. A [spawn] that starts a new conversation registers the
    session at once, in state [starting], but writes nothing and emits
    nothing at the call: it suspends on a timer due exactly 1000 ms
    after the clock reading of the call (the one entry it adds to the
    suspended calls), and a firing of that timer at any earlier time
    leaves the whole spawner as it is.  When the timer fires at or
    after the 1000 ms the call writes the task and a line feed to the
    process and emits [started].  When the process has exited in the
    meantime the session is no longer registered: the task is not
    written, the promise of [spawn] is rejected with the not-found
    error and [started] is never emitted. *)
Theorem spawn_sends_task_after_delay (e : SpawnEnv)
    (o : ClaudeCodeSpawnOptions.t) (st : ClaudeCodeProcessSpawner.t)
    (pid : Z) :
  pty_pid e = Ok pid → starts_afresh o = true →
  let sid := generateSessionId (AgentConfig.id (agent st)) (now e)
               (random36 e) in
  let r := next_ref st in
  let task := ClaudeCodeSpawnOptions.task o in
  let st1 := fst (spawn e o st) in
  let i := length (sleepers st) in
  snd (spawn e o st) = spawn_sleeping
  ∧ emitted st1 = emitted st ∧ pty_ops st1 = pty_ops st
  ∧ getSession sid st1 = Some (new_session e o st pid)
  ∧ sleepers st1
    = sleepers st ++ [spawn_settle (now e + 1000) sid task pid r]
  ∧ (∀ t, (t < now e + 1000)%Z →
       wake i t st1 = st1 ∧ step st1 (timer_fires i t) = st1)
  ∧ (∀ t, (now e + 1000 ≤ t)%Z →
       snd (spawn_resume sid task pid r st1) = spawn_resolved r
       ∧ pty_ops (wake i t st1) = pty_ops st ++ [(r, pty_write (task ++ [10]))]
       ∧ emitted (wake i t st1) = emitted st ++ [started_event sid pid])
  ∧ (∀ code t, (now e + 1000 ≤ t)%Z →
       let st2 := onExit r code st1 in
       snd (spawn_resume sid task pid r st2) = spawn_rejected (not_found sid)
       ∧ pty_ops (wake i t st2) = pty_ops st
       ∧ emitted (wake i t st2) = emitted st ++ [stopped_event sid (Some code)]).
Proof.
  intros Hpid Hfresh. cbv zeta.
  destruct (spawn_unfold e o st pid Hpid)
    as (call & _ & _ & _ & _ & _ & Hreg & Hheap & _ & Hops & Hrest).
  rewrite Hfresh in Hrest. destruct Hrest as (Hstatus & Hem & Hsl).
  set (sid := generateSessionId _ _ _) in *.
  set (st1 := fst (spawn e o st)) in *.
  assert (Hlook : activeSessions st1 !! sid = Some (next_ref st)).
  { by rewrite Hreg, lookup_insert_eq. }
  assert (Hsess : sessions st1 !! next_ref st = Some (new_session e o st pid)).
  { by rewrite Hheap, lookup_insert_eq. }
  assert (Hi : sleepers st1 !! length (sleepers st) =
               Some (spawn_settle (now e + 1000) sid
                       (ClaudeCodeSpawnOptions.task o) pid (next_ref st))).
  { rewrite Hsl. by rewrite lookup_app_r, Nat.sub_diag by lia. }
  split; [done |]. split; [done |]. split; [done |]. split.
  { unfold getSession. rewrite Hlook. cbn. done. }
  split; [exact Hsl |]. split.
  { intros t Ht. cbn [step]. unfold wake. rewrite Hi. cbn [wake_time].
    rewrite decide_False by lia. done. }
  split.
  - intros t Ht. unfold wake. rewrite Hi. cbn [wake_time].
    rewrite decide_True by done.
    unfold spawn_resume, sendTask. cbn [activeSessions set_sleepers].
    rewrite Hlook. cbn. by rewrite Hops, Hem.
  - intros code t Ht. unfold onExit. rewrite Hsess.
    unfold wake. cbn [sleepers emit set_activeSessions update_session logger].
    rewrite Hi. cbn [wake_time]. rewrite decide_True by done.
    unfold spawn_resume, sendTask.
    cbn [activeSessions emit set_activeSessions update_session logger
           set_sleepers ClaudeCodeSession.sessionId new_session].
    fold sid. rewrite lookup_delete_eq. cbn. by rewrite Hops, Hem.
Qed.

Lemma spawn_sends_task_after_delay_witness :
  let e := spawn_env 1700000000000 (js "0.4fzyo82mvyr") 4242 in
  let st1 := fst (spawn e (task_only (js "fix the build")) (new test_agent)) in
  pty_ops st1 = []
  ∧ wake 0 1700000000999 st1 = st1
  ∧ pty_ops (wake 0 1700000001000 st1)
      = [(0%nat, pty_write (js "fix the build" ++ [10]))]
  ∧ emitted (wake 0 1700000001000 (onExit 0 1 st1))
      = [stopped_event one_session_id (Some 1%Z)].
Proof.
  intros e st1.
  destruct (spawn_sends_task_after_delay e (task_only (js "fix the build"))
              (new test_agent) 4242 eq_refl eq_refl)
    as (_ & _ & Hops & _ & _ & Hearly & Hfire & Hexit).
  split; [exact Hops |].
  split; [apply (Hearly 1700000000999%Z); vm_compute; reflexivity |].
  destruct (Hfire 1700000001000%Z) as (_ & Hw & _); [vm_compute; discriminate |].
  split; [exact Hw |].
  destruct (Hexit 1%Z 1700000001000%Z) as (_ & _ & Hem);
    [vm_compute; discriminate |].
  exact Hem.
Defined.



End Spawner_operations.

(* --------------------------------------------------------------------- *)
(** ** Stopping, restarting and cleaning up *)
(* --------------------------------------------------------------------- *)

Section Spawner_lifecycle.
Import ClaudeCodeProcessSpawner.
Import SpawnerLifecycle.
Implicit Types (st : ClaudeCodeProcessSpawner.t).

(** A forced [stop] of a registered session. *)
Lemma forced_stop_unfold st sid r t :
  activeSessions st !! sid = Some r →
  let st' := stop sid true t st in
  activeSessions st' = delete sid (activeSessions st)
  ∧ sessions st' = alter (ClaudeCodeSession.set_state stopped) r (sessions st)
  ∧ pty_ops st' = pty_ops st ++ [(r, pty_kill (js "SIGKILL"))]
  ∧ emitted st' = emitted st ++ [stopped_event sid None]
  ∧ sleepers st' = sleepers st
  ∧ next_ref st' = next_ref st ∧ pty_spawns st' = pty_spawns st
  ∧ agent st' = agent st.
Proof. intros Hl. cbv zeta. unfold stop. rewrite Hl. cbn. done. Qed.

(** X12. A [stop] without force sends the interrupt character to the
    process at once and suspends on a timer due exactly 3000 ms after
    the clock reading of the call (the one entry it adds to the
    suspended calls); the session stays registered, its object is
    unchanged and nothing is emitted, and a firing of that timer at any
    earlier time leaves the whole spawner as it is.  When the timer
    fires at or after the 3000 ms, the process receives [SIGTERM] if
    the session is still registered, the session object is marked
    [stopped], the id leaves the registry and [stopped] is emitted.
    When the process has exited during the window, no signal is sent
    to it. *)
Theorem graceful_stop_protocol (st : ClaudeCodeProcessSpawner.t)
    (sid : jstring) (r : ref) (s : ClaudeCodeSession.t) (now : Z) :
  activeSessions st !! sid = Some r →
  sessions st !! r = Some s → ClaudeCodeSession.sessionId s = sid →
  let st1 := stop sid false now st in
  let i := length (sleepers st) in
  activeSessions st1 = activeSessions st ∧ sessions st1 = sessions st
  ∧ emitted st1 = emitted st
  ∧ pty_ops st1 = pty_ops st ++ [(r, pty_write [3])]
  ∧ sleepers st1 = sleepers st ++ [stop_grace (now + 3000) sid r]
  ∧ (∀ t, (t < now + 3000)%Z →
       wake i t st1 = st1 ∧ step st1 (timer_fires i t) = st1)
  ∧ (∀ t, (now + 3000 ≤ t)%Z →
       let st2 := wake i t st1 in
       pty_ops st2 = pty_ops st1 ++ [(r, pty_kill (js "SIGTERM"))]
       ∧ activeSessions st2 = delete sid (activeSessions st)
       ∧ sessions st2 !! r = Some (ClaudeCodeSession.set_state stopped s)
       ∧ emitted st2 = emitted st ++ [stopped_event sid None]
       ∧ sleepers st2 = sleepers st)
  ∧ (∀ code t, (now + 3000 ≤ t)%Z →
       let st2 := wake i t (onExit r code st1) in
       pty_ops st2 = pty_ops st1
       ∧ activeSessions st2 = delete sid (activeSessions st)
       ∧ sessions st2 !! r = Some (ClaudeCodeSession.set_state stopped s)).
Proof.
  intros Hl Hs Hid. cbv zeta. unfold stop. rewrite Hl.
  cbn [activeSessions sessions emitted pty_ops set_sleepers pty_do logger].
  split; [done |]. split; [done |]. split; [done |]. split; [done |].
  split; [done |]. split.
  { intros t Ht. cbn [step]. unfold wake.
    cbn [sleepers set_sleepers pty_do logger].
    rewrite lookup_app_r, Nat.sub_diag by lia.
    cbn [lookup list_lookup wake_time].
    rewrite decide_False by lia. done. }
  split.
  - intros t Ht. unfold wake. cbn [sleepers set_sleepers pty_do logger].
    rewrite lookup_app_r, Nat.sub_diag by lia. cbn [lookup list_lookup wake_time].
    rewrite decide_True by done.
    unfold stop_resume. cbn [activeSessions set_sleepers pty_do logger].
    rewrite Hl. cbn.
    rewrite lookup_alter_eq, Hs. split; [done |]. split; [done |].
    split; [done |]. split; [done |].
    rewrite delete_middle. by rewrite app_nil_r.
  - intros code t Ht. unfold onExit.
    cbn [sessions set_sleepers pty_do logger]. rewrite Hs.
    unfold wake.
    cbn [sleepers emit set_activeSessions update_session set_sleepers pty_do
           logger].
    rewrite lookup_app_r, Nat.sub_diag by lia. cbn [lookup list_lookup wake_time].
    rewrite decide_True by done.
    unfold stop_resume.
    cbn [activeSessions emit set_activeSessions update_session set_sleepers
           pty_do logger].
    rewrite Hid, lookup_delete_eq. cbn.
    split; [done |]. split.
    + apply map_eq. intros k. destruct (decide (k = sid)) as [-> | Hne].
      * by rewrite !lookup_delete_eq.
      * by rewrite !lookup_delete_ne.
    + by rewrite !lookup_alter_eq, Hs.
Qed.

Lemma graceful_stop_protocol_witness :
  let st1 := stop one_session_id false 1700000001000 one_session in
  pty_ops st1 = [(0%nat, pty_write [3])]
  ∧ wake 0 1700000003999 st1 = st1
  ∧ pty_ops (wake 0 1700000004000 st1)
      = [(0%nat, pty_write [3]); (0%nat, pty_kill (js "SIGTERM"))]
  ∧ pty_ops (wake 0 1700000004000 (onExit 0 130 st1))
      = [(0%nat, pty_write [3])].
Proof.
  intros st1.
  assert (Hs : ∃ s, sessions one_session !! 0%nat = Some s
                    ∧ ClaudeCodeSession.sessionId s = one_session_id).
  { eexists. split; vm_compute; reflexivity. }
  destruct Hs as (s & Hs & Hid).
  destruct (graceful_stop_protocol one_session one_session_id 0 s
              1700000001000)
    as (_ & _ & _ & Hops & _ & Hearly & Hfire & Hexit);
    [vm_compute; reflexivity | exact Hs | exact Hid |].
  fold st1 in Hops, Hearly, Hfire, Hexit.
  split; [exact Hops |].
  split; [apply (Hearly 1700000003999%Z); vm_compute; reflexivity |].
  destruct (Hfire 1700000004000%Z) as (Hw & _); [vm_compute; discriminate |].
  rewrite Hops in Hw. split; [exact Hw |].
  destruct (Hexit 130%Z 1700000004000%Z) as (Hw' & _);
    [vm_compute; discriminate |].
  rewrite Hops in Hw'. exact Hw'.
Defined.

(** X13. [restart] of an unknown id throws the not-found error and
    does nothing else.  For a registered session it kills the process,
    marks the session object [stopped], removes the id and emits
    [stopped]; it then spawns a session with the same task.  The id of
    that session is generated from the clock reading and the random
    draw of the restart, with no regard to the old id: it equals the
    old id exactly when the old id was generated from the same clock
    reading and the same nine digits.  The new session object (another
    object than the old one, in state [starting], with the process id
    of the new process) is registered under the new id; the old id is
    still in the registry afterwards exactly when the two ids are
    equal, and then it names the new session.  The new session gets
    the flags of a spawn with no other option than the task, runs in
    the workspace of the agent, and is sent the task after the settle
    delay like any session that starts afresh, also when the old one
    was resumed or continued.  When the pseudo-terminal cannot be
    created, the old session is gone all the same and no new one
    exists. *)
Theorem restart_respawns (st : ClaudeCodeProcessSpawner.t) (sid : jstring)
    (e : SpawnEnv) :
  coherent st →
  (activeSessions st !! sid = None →
     restart sid (now e) st = Throw (not_found sid)
     ∧ restart_awaited sid e st = (st, spawn_rejected (not_found sid)))
  ∧ (∀ r s, activeSessions st !! sid = Some r → sessions st !! r = Some s →
       let st' := fst (restart_awaited sid e st) in
       let sid' := generateSessionId (AgentConfig.id (agent st)) (now e)
                     (random36 e) in
       let task := ClaudeCodeSession.task s in
       sessions st' !! r = Some (ClaudeCodeSession.set_state stopped s)
       ∧ pty_ops st' = pty_ops st ++ [(r, pty_kill (js "SIGKILL"))]
       ∧ emitted st' = emitted st ++ [stopped_event sid None]
       ∧ (∀ t0 rnd0,
            sid = generateSessionId (AgentConfig.id (agent st)) t0 rnd0 →
            Forall (λ c, base36_digit c = true) (substr 2 9 rnd0) →
            Forall (λ c, base36_digit c = true) (substr 2 9 (random36 e)) →
            (sid' = sid
             ↔ now e = t0 ∧ substr 2 9 (random36 e) = substr 2 9 rnd0))
       ∧ (∀ pid, pty_pid e = Ok pid →
            snd (restart_awaited sid e st) = spawn_sleeping
            ∧ activeSessions st' =
                <[sid' := next_ref st]> (delete sid (activeSessions st))
            ∧ next_ref st ≠ r
            ∧ (∃ new, sessions st' !! next_ref st = Some new
                      ∧ getSession sid' st' = Some new
                      ∧ ClaudeCodeSession.sessionId new = sid'
                      ∧ ClaudeCodeSession.pid new = pid
                      ∧ ClaudeCodeSession.task new = task
                      ∧ ClaudeCodeSession.state new = starting
                      ∧ ClaudeCodeSession.workdir new
                          = AgentConfig.workspace (agent st))
            ∧ (sid' ≠ sid ↔ getSession sid st' = None)
            ∧ (∃ call, pty_spawns st' =
                         pty_spawns st ++ [(next_ref st, call)]
                       ∧ args call = buildCommandArgs st (task_only task)
                       ∧ cwd call = AgentConfig.workspace (agent st))
            ∧ sleepers st' =
                sleepers st
                ++ [spawn_settle (now e + 1000) sid' task pid (next_ref st)])
       ∧ (∀ err, pty_pid e = Throw err →
            snd (restart_awaited sid e st) = spawn_rejected err
            ∧ activeSessions st' = delete sid (activeSessions st)
            ∧ getSession sid st' = None
            ∧ sessions st' !! next_ref st = None
            ∧ pty_spawns st' = pty_spawns st)).
Proof.
  intros Hco. split.
  - intros Hl. unfold restart_awaited, restart, getSession. rewrite Hl. done.
  - intros r s Hl Hs. cbv zeta.
    destruct Hco as [_ Hheap0 _]. destruct (Hheap0 _ _ Hs) as (Hlt & _).
    assert (Hids : ∀ t0 rnd0,
              sid = generateSessionId (AgentConfig.id (agent st)) t0 rnd0 →
              Forall (λ c, base36_digit c = true) (substr 2 9 rnd0) →
              Forall (λ c, base36_digit c = true)
                (substr 2 9 (random36 e)) →
              (generateSessionId (AgentConfig.id (agent st)) (now e)
                 (random36 e) = sid
               ↔ now e = t0 ∧ substr 2 9 (random36 e) = substr 2 9 rnd0)).
    { intros t0 rnd0 -> H0 He. split.
      - by apply generateSessionId_inj.
      - intros [-> Hsub]. unfold generateSessionId. by rewrite Hsub. }
    unfold restart_awaited, restart, getSession. rewrite Hl.
    cbn [mbind option_bind]. rewrite Hs.
    set (st0 := logger info (js "Restarting Claude Code session") st).
    destruct (forced_stop_unfold st0 sid r (now e) Hl)
      as (Hreg & Hheap & Hops & Hem & Hsl & Hn & Hsp & Hag).
    set (st1 := stop sid true (now e) st0) in *.
    change (activeSessions st0) with (activeSessions st) in Hreg.
    change (sessions st0) with (sessions st) in Hheap.
    change (pty_ops st0) with (pty_ops st) in Hops.
    change (emitted st0) with (emitted st) in Hem.
    change (sleepers st0) with (sleepers st) in Hsl.
    change (next_ref st0) with (next_ref st) in Hn.
    change (pty_spawns st0) with (pty_spawns st) in Hsp.
    change (agent st0) with (agent st) in Hag.
    unfold restart_resume.
    assert (Hold : sessions st1 !! r
                   = Some (ClaudeCodeSession.set_state stopped s)).
    { rewrite Hheap. by rewrite lookup_alter_eq, Hs. }
    destruct (pty_pid e) as [pid | err] eqn:Hpid.
    + destruct (spawn_unfold e (restart_options (ClaudeCodeSession.task s))
                  st1 pid Hpid)
        as (call & Hcall & Hargs & Hcwd & _ & _ & Hreg' & Hheap' & _ & Hops'
            & Hrest).
      change (starts_afresh (restart_options (ClaudeCodeSession.task s)))
        with true in Hrest.
      destruct Hrest as (Hstatus & Hem' & Hsl').
      rewrite Hag, Hn in *.
      set (sid' := generateSessionId (AgentConfig.id (agent st)) (now e)
                     (random36 e)) in *.
      split; [rewrite Hheap', lookup_insert_ne by lia; done |].
      split; [by rewrite Hops', Hops |]. split; [by rewrite Hem', Hem |].
      split; [exact Hids |].
      split; [| by intros err [=]].
      intros pid' [= <-]. split; [done |]. split; [by rewrite Hreg', Hreg |].
      split; [lia |].
      split.
      { eexists. rewrite Hheap', lookup_insert_eq. split; [done |].
        rewrite Hreg', lookup_insert_eq. cbn [mbind option_bind].
        rewrite lookup_insert_eq. split; [done |].
        cbn. by rewrite Hag. }
      split.
      { rewrite Hreg'. split.
        - intros Hne. rewrite lookup_insert_ne by done.
          by rewrite Hreg, lookup_delete_eq.
        - intros Hnone ->. rewrite lookup_insert_eq in Hnone.
          cbn [mbind option_bind] in Hnone.
          by rewrite Hheap', lookup_insert_eq in Hnone. }
      split; [| by rewrite Hsl', Hsl].
      exists call. split; [by rewrite Hcall, Hsp |]. rewrite Hargs, Hcwd.
      split.
      * unfold buildCommandArgs, claudeConfig. by rewrite Hag.
      * cbn. by rewrite Hag.
    + unfold spawn. rewrite Hpid. cbn [fst snd logger sessions pty_ops emitted].
      split; [done |]. split; [done |]. split; [done |].
      split; [exact Hids |].
      split; [by intros pid [=] |].
      intros err' [= <-]. split; [done |]. split; [done |].
      split; [cbn [activeSessions logger]; by rewrite Hreg, lookup_delete_eq |].
      split; [| done].
      rewrite Hheap. rewrite lookup_alter_ne by lia.
      destruct (sessions st !! next_ref st) as [s0 |] eqn:Hs0; [| done].
      destruct (Hheap0 _ _ Hs0). lia.
Qed.

Lemma restart_respawns_witness :
  let e := spawn_env 1700000005000 (js "0.k3j9x0aa1bcd") 5000 in
  let e0 := spawn_env 1700000000000 (js "0.4fzyo82mvyr") 5000 in
  let st' := fst (restart_awaited one_session_id e one_session) in
  let st0 := fst (restart_awaited one_session_id e0 one_session) in
  snd (restart_awaited one_session_id e one_session) = spawn_sleeping
  ∧ pty_ops st' = [(0%nat, pty_kill (js "SIGKILL"))]
  ∧ (∃ call, pty_spawns st' = pty_spawns one_session ++ [(1%nat, call)]
             ∧ args call = [js "--permission-mode"; js "bypassPermissions"])
  ∧ getSession one_session_id st' = None
  ∧ (ClaudeCodeSession.pid
       <$> getSession (js "cc-test-agent-1700000005000-k3j9x0aa1") st')
     = Some 5000%Z
  ∧ (ClaudeCodeSession.pid <$> getSession one_session_id st0) = Some 5000%Z.
Proof.
  intros e e0 st' st0.
  assert (Hco : coherent one_session).
  { apply (transition_spawn _ _ (new test_agent)), coherent_new. }
  assert (Hs : ∃ s, sessions one_session !! 0%nat = Some s).
  { eexists. vm_compute; reflexivity. }
  destruct Hs as (s & Hs).
  destruct (restart_respawns one_session one_session_id e Hco) as (_ & H).
  destruct (H 0%nat s) as (_ & Hops & _ & _ & Hok & _);
    [vm_compute; reflexivity | exact Hs |].
  destruct (Hok 5000%Z eq_refl)
    as (Hst & _ & _ & (new & _ & Hnew & _ & Hpid & _) & Hgone
        & (call & Hcall & Hargs & _) & _).
  destruct (restart_respawns one_session one_session_id e0 Hco) as (_ & H0).
  destruct (H0 0%nat s) as (_ & _ & _ & _ & Hok0 & _);
    [vm_compute; reflexivity | exact Hs |].
  destruct (Hok0 5000%Z eq_refl)
    as (_ & _ & _ & (new0 & _ & Hnew0 & _ & Hpid0 & _) & _).
  split; [exact Hst |]. split; [exact Hops |].
  split.
  { exists call. split; [exact Hcall |]. rewrite Hargs.
    vm_compute; reflexivity. }
  split; [apply Hgone; vm_compute; discriminate |].
  split.
  - change (js "cc-test-agent-1700000005000-k3j9x0aa1")
      with (generateSessionId (AgentConfig.id (agent one_session)) (now e)
              (random36 e)).
    exact (eq_trans (f_equal (fmap ClaudeCodeSession.pid) Hnew)
             (f_equal Some Hpid)).
  - change one_session_id
      with (generateSessionId (AgentConfig.id (agent one_session)) (now e0)
              (random36 e0)) at 1.
    exact (eq_trans (f_equal (fmap ClaudeCodeSession.pid) Hnew0)
             (f_equal Some Hpid0)).
Defined.

Lemma foldl_delete_lookup (keys : list jstring) : ∀ (m : gmap jstring ref) k,
  foldl (λ m' k', delete k' m') m keys !! k =
    if decide (k ∈ keys) then None else m !! k.
Proof.
  induction keys as [|k0 keys IH]; intros m k; cbn [foldl].
  - rewrite decide_False; [done | apply not_elem_of_nil].
  - rewrite IH. destruct (decide (k ∈ keys)) as [Hin | Hnin].
    + rewrite decide_True; [done | by right].
    + destruct (decide (k = k0)) as [-> | Hne].
      * rewrite decide_True by (by left). by rewrite lookup_delete_eq.
      * rewrite decide_False by (by intros [? | ?]%elem_of_cons).
        by rewrite lookup_delete_ne.
Qed.

Lemma refs_of_snoc keys k r st :
  activeSessions st !! k = Some r →
  refs_of (keys ++ [k]) st = refs_of keys st ++ [r].
Proof.
  intros Hk. unfold refs_of. rewrite omap_app. f_equal. cbn. by rewrite Hk.
Qed.

Lemma forced_stops_fold (t : Z) (keys : list jstring) : ∀ st,
  NoDup keys →
  (∀ sid, sid ∈ keys → is_Some (activeSessions st !! sid)) →
  let st' := foldl (λ st' sid, stop sid true t st') st keys in
  activeSessions st' = foldl (λ m k, delete k m) (activeSessions st) keys
  ∧ pty_ops st' =
      pty_ops st ++ ((λ r, (r, pty_kill (js "SIGKILL"))) <$> refs_of keys st)
  ∧ emitted st' = emitted st ++ ((λ sid, stopped_event sid None) <$> keys)
  ∧ sessions st' =
      foldl (λ m r, alter (ClaudeCodeSession.set_state stopped) r m)
        (sessions st) (refs_of keys st)
  ∧ sleepers st' = sleepers st ∧ pty_spawns st' = pty_spawns st
  ∧ next_ref st' = next_ref st ∧ agent st' = agent st.
Proof.
  induction keys as [|k keys IH] using rev_ind; intros st Hnd Hreg; cbv zeta.
  - cbn. by rewrite !app_nil_r.
  - apply NoDup_app in Hnd as (Hnd & Hnin & _).
    rewrite !foldl_app. cbn [foldl].
    destruct (IH st Hnd) as (Hr & Hops & Hem & Hs & Hsl & Hsp & Hn & Hag).
    { intros sid Hin. apply Hreg, elem_of_app. by left. }
    set (st1 := foldl (λ st' sid, stop sid true t st') st keys) in *.
    destruct (Hreg k) as [r Hk]; [apply elem_of_app; right; by left |].
    assert (Hk1 : activeSessions st1 !! k = Some r).
    { rewrite Hr, foldl_delete_lookup. rewrite decide_False; [done |].
      intros Hin. apply (Hnin k Hin). by left. }
    destruct (forced_stop_unfold st1 k r t Hk1)
      as (Hr' & Hs' & Hops' & Hem' & Hsl' & Hn' & Hsp' & Hag').
    rewrite (refs_of_snoc keys k r st Hk).
    rewrite !fmap_app, !foldl_app. cbn [fmap list_fmap foldl].
    rewrite Hr', Hs', Hops', Hem', Hsl', Hn', Hsp', Hag'.
    rewrite Hr, Hs, Hops, Hem, Hsl, Hn, Hsp, Hag.
    by rewrite <- !app_assoc.
Qed.

Lemma foldl_stopped_lookup (refs : list ref) :
  ∀ (m : gmap ref ClaudeCodeSession.t) r s,
  m !! r = Some s →
  ∃ s', foldl (λ m' r', alter (ClaudeCodeSession.set_state stopped) r' m')
          m refs !! r = Some s'
        ∧ (r ∈ refs → ClaudeCodeSession.state s' = stopped)
        ∧ (r ∉ refs → s' = s).
Proof.
  induction refs as [|r0 refs IH] using rev_ind; intros m r s Hs.
  - exists s. split; [done |]. split; [by intros ?%elem_of_nil | done].
  - rewrite foldl_app. cbn [foldl].
    destruct (IH m r s Hs) as (s1 & Hs1 & Hin & Hnin).
    destruct (decide (r = r0)) as [-> | Hne].
    + exists (ClaudeCodeSession.set_state stopped s1).
      rewrite lookup_alter_eq, Hs1. split; [done |]. split; [done |].
      intros Hn. exfalso. apply Hn, elem_of_app. right. by left.
    + exists s1. rewrite lookup_alter_ne by done. split; [done |]. split.
      * intros [? | Hx]%elem_of_app; [auto |].
        apply list_elem_of_singleton in Hx. done.
      * intros Hn. apply Hnin. intros ?. apply Hn, elem_of_app. by left.
Qed.

(** What [cleanup] does to the tables of the spawner. *)
Lemma cleanup_tables (st : ClaudeCodeProcessSpawner.t)
    (keys : list jstring) (t : Z) :
  enumerates keys st →
  let st' := cleanup keys t st in
  activeSessions st' = ∅
  ∧ pty_ops st' =
      pty_ops st ++ ((λ r, (r, pty_kill (js "SIGKILL"))) <$> refs_of keys st)
  ∧ emitted st' = emitted st ++ ((λ sid, stopped_event sid None) <$> keys)
  ∧ sessions st' =
      foldl (λ m r, alter (ClaudeCodeSession.set_state stopped) r m)
        (sessions st) (refs_of keys st)
  ∧ sleepers st' = sleepers st ∧ pty_spawns st' = pty_spawns st.
Proof.
  intros [Hnd Hkeys]. cbv zeta. unfold cleanup.
  set (st0 := logger info (js "Cleaning up all Claude Code sessions") st).
  destruct (forced_stops_fold t keys st0 Hnd)
    as (Hr & Hops & Hem & Hs & Hsl & Hsp & _ & _).
  { intros sid Hin. by apply Hkeys. }
  set (st' := foldl _ st0 keys) in *.
  change (activeSessions st0) with (activeSessions st) in Hr.
  change (refs_of keys st0) with (refs_of keys st) in Hops, Hs.
  split; [| done].
  apply map_eq. intros k. rewrite Hr, foldl_delete_lookup, lookup_empty.
  destruct (decide (k ∈ keys)) as [? | Hn]; [done |].
  destruct (activeSessions st !! k) eqn:Hk; [| done].
  exfalso. apply Hn, Hkeys. by rewrite Hk.
Qed.

(** X14. [cleanup] stops every registered session with force, in the
    order of the keys: each process receives [SIGKILL], [stopped] is
    emitted once for each id, every session object that was registered
    is marked [stopped], and the registry is empty afterwards.  The
    timers of suspended calls are not cancelled. *)
Theorem cleanup_stops_every_session (st : ClaudeCodeProcessSpawner.t)
    (keys : list jstring) (t : Z) :
  enumerates keys st →
  let st' := cleanup keys t st in
  activeSessions st' = ∅
  ∧ pty_ops st' =
      pty_ops st ++ ((λ r, (r, pty_kill (js "SIGKILL"))) <$> refs_of keys st)
  ∧ length (refs_of keys st) = length keys
  ∧ emitted st' = emitted st ++ ((λ sid, stopped_event sid None) <$> keys)
  ∧ (∀ sid r s, activeSessions st !! sid = Some r →
       sessions st !! r = Some s →
       ∃ s', sessions st' !! r = Some s'
             ∧ ClaudeCodeSession.state s' = stopped)
  ∧ (∀ sid, getSession sid st' = None)
  ∧ sleepers st' = sleepers st ∧ pty_spawns st' = pty_spawns st.
Proof.
  intros Henum. cbv zeta.
  destruct (cleanup_tables st keys t Henum)
    as (Hempty & Hops & Hem & Hs & Hsl & Hsp).
  destruct Henum as [Hnd Hkeys].
  set (st' := cleanup keys t st) in *.
  split; [done |]. split; [done |]. split.
  { unfold refs_of. clear -Hkeys. 
    assert (H : ∀ sid, sid ∈ keys → is_Some (activeSessions st !! sid))
      by (intros; by apply Hkeys).
    clear Hkeys. induction keys as [|k keys IH]; [done |].
    cbn. destruct (H k) as [r ->]; [by left |]. cbn. f_equal.
    apply IH. intros sid Hin. apply H. by right. }
  split; [done |]. split.
  { intros sid r s Hl Hsr. rewrite Hs.
    destruct (foldl_stopped_lookup (refs_of keys st) (sessions st) r s Hsr)
      as (s' & Hs' & Hin & _).
    exists s'. split; [done |]. apply Hin.
    unfold refs_of. apply list_elem_of_omap. exists sid. split; [| done].
    apply Hkeys. by rewrite Hl. }
  split; [| done].
  intros sid. unfold getSession. by rewrite Hempty, lookup_empty.
Qed.

Lemma cleanup_stops_every_session_witness :
  let st' := cleanup [one_session_id; second_session_id] 1700000009000
               two_sessions in
  activeSessions st' = ∅
  ∧ pty_ops st' = [(0%nat, pty_kill (js "SIGKILL"));
                   (1%nat, pty_kill (js "SIGKILL"))]
  ∧ emitted st' = emitted two_sessions
                  ++ [stopped_event one_session_id None;
                      stopped_event second_session_id None].
Proof.
  intros st'.
  assert (Henum : enumerates [one_session_id; second_session_id]
                    two_sessions).
  { split.
    - apply NoDup_cons. split; [| apply NoDup_singleton].
      intros Hin%list_elem_of_singleton. revert Hin.
      vm_compute. discriminate.
    - intros sid. split.
      + intros [-> | [-> | Hin%elem_of_nil]%elem_of_cons]%elem_of_cons;
          [| | done]; eexists; vm_compute; reflexivity.
      + intros [r Hr].
        assert (Hreg : activeSessions two_sessions
                       = <[second_session_id := 1%nat]>
                           (<[one_session_id := 0%nat]> ∅)).
        { apply map_eq. intros k. vm_compute activeSessions.
          reflexivity. }
        rewrite Hreg in Hr.
        apply lookup_insert_Some in Hr as [[<- _] | [_ Hr]];
          [right; by left |].
        apply lookup_insert_Some in Hr as [[<- _] | [_ Hr]]; [by left |].
        by rewrite lookup_empty in Hr. }
  destruct (cleanup_stops_every_session two_sessions
              [one_session_id; second_session_id] 1700000009000 Henum)
    as (Hreg & Hops & _ & Hem & _).
  subst st'. split; [exact Hreg |]. split; [| exact Hem].
  rewrite Hops. vm_compute; reflexivity.
Defined.

End Spawner_lifecycle.

(* --------------------------------------------------------------------- *)
(** ** Messages to the process *)
(* --------------------------------------------------------------------- *)

Section Outbound.
Import ClaudeCodeProcessSpawner.
Import CommunicatorOutbound.

Lemma endsWith_snoc (m : jstring) (c : N) : endsWith (m ++ [c]) [c] = true.
Proof.
  unfold endsWith. rewrite rev_app_distr. cbn.
  by rewrite N.eqb_refl.
Qed.

(** X15. [formatMessage] yields a text that ends with a line feed and
    adds at most one: a message that ends with a line feed is sent as
    it is, any other message (the empty one included) gets one line
    feed appended; formatting twice is formatting once. *)
Theorem formatMessage_line_feed (m : jstring) :
  endsWith (formatMessage m) [10] = true
  ∧ formatMessage (formatMessage m) = formatMessage m
  ∧ (endsWith m [10] = true → formatMessage m = m)
  ∧ (endsWith m [10] = false → formatMessage m = m ++ [10])
  ∧ formatMessage [] = [10].
Proof.
  assert (Hends : endsWith (formatMessage m) [10] = true).
  { unfold formatMessage. destruct (endsWith m [10]) eqn:He; [done |].
    apply endsWith_snoc. }
  split; [done |]. split.
  { unfold formatMessage at 1. by rewrite Hends. }
  unfold formatMessage. split; [by intros -> |]. split; [by intros -> |].
  done.
Qed.

Lemma formatMessage_line_feed_witness :
  formatMessage (js "run the tests" ++ [10]) = js "run the tests" ++ [10]
  ∧ formatMessage (js "run the tests") = js "run the tests" ++ [10].
Proof.
  destruct (formatMessage_line_feed (js "run the tests" ++ [10]))
    as (_ & _ & Hkeep & _).
  destruct (formatMessage_line_feed (js "run the tests"))
    as (_ & _ & _ & Hadd & _).
  split; [apply Hkeep | apply Hadd]; vm_compute; reflexivity.
Defined.

Lemma write_once st sid r input t :
  activeSessions st !! sid = Some r →
  writes_once st r input t (write sid input t st).
Proof.
  intros Hl. unfold write. rewrite Hl. eexists. split; [done |]. cbn. done.
Qed.

(** X16. The methods of the communicator that send something to a
    session throw the not-found error of [write] when the id is not
    registered.  For a registered session each performs exactly one
    write to its pseudo-terminal and emits nothing: [sendMessage]
    writes the formatted message, [sendCommand] the command, a space
    and the arguments when these are given and not empty, followed by
    a line feed (also when the command already ends with one),
    [respondToPrompt] the response and a line feed, and [interrupt] the
    character of code 3 alone. *)
Theorem outbound_methods_write_once (st : ClaudeCodeProcessSpawner.t)
    (sid : jstring) (t : Z) (message command response : jstring) :
  (activeSessions st !! sid = None →
     sendMessage sid message t st = Throw (not_found sid)
     ∧ (∀ a, sendCommand sid command a t st = Throw (not_found sid))
     ∧ respondToPrompt sid response t st = Throw (not_found sid)
     ∧ interrupt sid t st = Throw (not_found sid))
  ∧ (∀ r, activeSessions st !! sid = Some r →
       writes_once st r (formatMessage message) t
         (sendMessage sid message t st)
       ∧ writes_once st r (command ++ [10]) t
           (sendCommand sid command None t st)
       ∧ writes_once st r (command ++ [10]) t
           (sendCommand sid command (Some []) t st)
       ∧ (∀ a, a ≠ [] →
            writes_once st r (command ++ js " " ++ a ++ [10]) t
              (sendCommand sid command (Some a) t st))
       ∧ writes_once st r (response ++ [10]) t
           (respondToPrompt sid response t st)
       ∧ writes_once st r [3] t (interrupt sid t st)).
Proof.
  split.
  - intros Hl.
    unfold sendMessage, sendCommand, respondToPrompt, interrupt, write.
    by rewrite Hl.
  - intros r Hl.
    unfold sendMessage, sendCommand, respondToPrompt, interrupt.
    repeat split; try (by apply write_once).
    intros [|c a] Hne; [done |]. cbn [fullCommand].
    rewrite <- !app_assoc. by apply write_once.
Qed.

Lemma outbound_methods_write_once_witness :
  writes_once one_session 0 (js "/ralph-loop fix tests" ++ [10])
    1700000000500
    (sendCommand one_session_id (js "/ralph-loop") (Some (js "fix tests"))
       1700000000500 one_session)
  ∧ writes_once one_session 0 [3] 1700000000500
      (interrupt one_session_id 1700000000500 one_session).
Proof.
  destruct (outbound_methods_write_once one_session one_session_id
              1700000000500 [] (js "/ralph-loop") [])
    as (_ & H).
  destruct (H 0%nat) as (_ & _ & _ & Hcmd & _ & Hint);
    [vm_compute; reflexivity |].
  split; [| exact Hint].
  apply (Hcmd (js "fix tests")). vm_compute. discriminate.
Defined.

End Outbound.

(* --------------------------------------------------------------------- *)
(** ** What the spawner does not read *)
(* --------------------------------------------------------------------- *)

Section Unread_configuration.
Import ClaudeCodeProcessSpawner.

Lemma with_agent_step a' st act :
  configuration_read (agent st) = configuration_read a' →
  step (with_agent a' st) act = with_agent a' (step st act).
Proof.
  unfold configuration_read.
  intros [= Hid Hws Hbin Hmode Hteams Hmodel Hwd Henv].
  destruct act as [e o | sid input t | sid force t | i t | r data t | r code];
    cbn [step].
  - unfold spawn, buildCommandArgs, claudeConfig.
    cbn [agent with_agent activeSessions sessions next_ref pty_spawns pty_ops
           emitted logs sleepers logger].
    rewrite <- Hid, <- Hws, <- Hbin, <- Hmode, <- Hteams, <- Hmodel, <- Hwd,
      <- Henv.
    destruct (pty_pid e); [| done].
    match goal with
    | |- context [if ?b then _ else _] => destruct b
    end; done.
  - unfold write. cbn [activeSessions with_agent].
    by destruct (activeSessions st !! sid).
  - unfold stop. cbn [activeSessions with_agent].
    destruct (activeSessions st !! sid); [| done]. by destruct force.
  - unfold wake. cbn [sleepers with_agent].
    destruct (sleepers st !! i) as [[w sid task pid r | w sid r] |]; [| | done].
    + destruct (decide _); [| done].
      unfold spawn_resume, sendTask. cbn [activeSessions with_agent set_sleepers].
      by destruct (activeSessions st !! sid).
    + destruct (decide _); [| done].
      unfold stop_resume. cbn [activeSessions with_agent set_sleepers].
      by destruct (activeSessions st !! sid).
  - unfold onData. cbn [sessions with_agent].
    by destruct (sessions st !! r).
  - unfold onExit. cbn [sessions with_agent].
    by destruct (sessions st !! r).
Qed.

Lemma with_agent_run a' actions : ∀ st,
  configuration_read (agent st) = configuration_read a' →
  run (with_agent a' st) actions = with_agent a' (run st actions).
Proof.
  induction actions as [|act rest IH]; intros st Hread; [done |].
  cbn [run foldl]. fold (run (step (with_agent a' st) act) rest).
  fold (run (step st act) rest).
  rewrite with_agent_step by done. apply IH.
  by rewrite (tr_agent _ _ (transition_step st act)).
Qed.

(** X17. The spawner reads from the agent configuration only the id,
    the workspace and, of the Claude Code section, the binary path, the
    permission mode, the teams flag, the model, the working directory
    and the environment.  Two agents that agree on these give the same
    execution: the configured plugins, servers and session persistence
    (and the name, model, agent directory and identity of the agent)
    are never passed to a process.  Neither is the number of teammates
    of the spawn options. *)
Theorem unread_configuration_has_no_effect (a a' : AgentConfig.t)
    (actions : list Action) :
  (configuration_read a = configuration_read a' →
   let st := run (new a) actions in
   let st' := run (new a') actions in
   st' = with_agent a' st
   ∧ pty_spawns st' = pty_spawns st ∧ pty_ops st' = pty_ops st
   ∧ emitted st' = emitted st ∧ sessions st' = sessions st
   ∧ activeSessions st' = activeSessions st)
  ∧ (∀ e o n st, spawn e (with_teammates n o) st = spawn e o st).
Proof.
  split; [| done].
  intros Hread. cbv zeta.
  assert (Heq : run (new a') actions = with_agent a' (run (new a) actions)).
  { change (new a') with (with_agent a' (new a)).
    by apply with_agent_run. }
  rewrite Heq. done.
Qed.

Lemma unread_configuration_has_no_effect_witness :
  let actions :=
    [call_spawn (spawn_env 1700000000000 (js "0.4fzyo82mvyr") 4242)
       (task_only (js "fix the build"));
     timer_fires 0 1700000001000] in
  pty_spawns (run (new agent_with_plugins) actions)
    = pty_spawns (run (new agent_without_plugins) actions)
  ∧ pty_ops (run (new agent_with_plugins) actions)
      = pty_ops (run (new agent_without_plugins) actions).
Proof.
  intros actions.
  destruct (unread_configuration_has_no_effect agent_without_plugins
              agent_with_plugins actions) as (H & _).
  destruct H as (_ & Hsp & Hops & _); [vm_compute; reflexivity |].
  split; [exact Hsp | exact Hops].
Defined.

End Unread_configuration.

(* --------------------------------------------------------------------- *)
(** ** The runtime *)
(* --------------------------------------------------------------------- *)

Section Runtime.
Import RuntimeMethods.
Implicit Types (rt : ClaudeCodeRuntime.t).

(** *** The spawner of a runtime *)

Lemma transition_restart sid t st st' task :
  SpawnerLifecycle.restart sid t st = Ok (st', task) → transition st st'.
Proof.
  unfold SpawnerLifecycle.restart.
  destruct (ClaudeCodeProcessSpawner.getSession sid st); [| done].
  intros [= <- _].
  eapply transition_trans; [apply transition_logger | apply transition_stop].
Qed.

Lemma transition_stops t keys : ∀ st,
  transition st
    (foldl (λ st' sid, ClaudeCodeProcessSpawner.stop sid true t st') st keys).
Proof.
  induction keys as [|k keys IH]; intros st; [apply transition_refl |].
  cbn [foldl]. eapply transition_trans; [apply transition_stop | apply IH].
Qed.

Lemma transition_cleanup keys t st :
  transition st (SpawnerLifecycle.cleanup keys t st).
Proof.
  unfold SpawnerLifecycle.cleanup.
  eapply transition_trans; [| apply transition_stops].
  apply transition_logger.
Qed.

Lemma transition_with_write w rt rt' :
  (∀ st st', w st = Ok st' → transition st st') →
  with_write w rt = Ok rt' →
  transition (ClaudeCodeRuntime.spawner rt) (ClaudeCodeRuntime.spawner rt').
Proof.
  intros Hw. unfold with_write.
  destruct (ClaudeCodeRuntime.ensureInitialized rt); [| done].
  destruct (w (ClaudeCodeRuntime.spawner rt)) as [sp' |] eqn:Hsp; [| done].
  intros [= <-]. by apply Hw.
Qed.

Lemma startSession_spawner e o rt :
  transition (ClaudeCodeRuntime.spawner rt)
    (ClaudeCodeRuntime.spawner (fst (startSession e o rt))).
Proof.
  unfold startSession.
  destruct (ClaudeCodeRuntime.ensureInitialized rt); [| apply transition_refl].
  pose proof (transition_spawn e o (ClaudeCodeRuntime.spawner rt)) as Ht.
  by destruct (ClaudeCodeProcessSpawner.spawn e o _).
Qed.

Lemma step_spawner rt a :
  transition (ClaudeCodeRuntime.spawner rt)
    (ClaudeCodeRuntime.spawner (step rt a)).
Proof.
  destruct a; cbn [step].
  - apply startSession_spawner.
  - unfold resumeSession.
    destruct (ClaudeCodeRuntime.ensureInitialized rt);
      [apply startSession_spawner | apply transition_refl].
  - unfold continueLastSession.
    destruct (ClaudeCodeRuntime.ensureInitialized rt);
      [apply startSession_spawner | apply transition_refl].
  - unfold restartSession.
    destruct (ClaudeCodeRuntime.ensureInitialized rt); [| apply transition_refl].
    destruct (SpawnerLifecycle.restart _ _ _) as [[sp' task] |] eqn:Hr;
      [| apply transition_refl].
    by apply transition_restart in Hr.
  - unfold restartSession_resume, SpawnerLifecycle.restart_resume.
    pose proof (transition_spawn e (SpawnerLifecycle.restart_options task)
                  (ClaudeCodeRuntime.spawner rt)) as Ht.
    by destruct (ClaudeCodeProcessSpawner.spawn e _ _).
  - unfold stopSession.
    destruct (ClaudeCodeRuntime.ensureInitialized rt); [| apply transition_refl].
    apply transition_stop.
  - apply transition_refl.
  - destruct (sendMessage _ _ _ rt) as [rt' |] eqn:Hs; [| apply transition_refl].
    apply (transition_with_write _ _ _ (transition_write _ _ _) Hs).
  - destruct (sendCommand _ _ _ _ rt) as [rt' |] eqn:Hs;
      [| apply transition_refl].
    apply (transition_with_write _ _ _ (transition_write _ _ _) Hs).
  - destruct (interruptSession _ _ rt) as [rt' |] eqn:Hs;
      [| apply transition_refl].
    apply (transition_with_write _ _ _ (transition_write _ _ _) Hs).
  - unfold waitForCompletion.
    destruct (ClaudeCodeRuntime.ensureInitialized rt); [| apply transition_refl].
    destruct (ClaudeCodeCommunicator.waitForCompletion _ _ _).
    apply transition_refl.
  - apply transition_cleanup.
  - apply transition_refl.
  - apply transition_wake.
  - apply transition_onData.
  - apply transition_onExit.
  - apply transition_refl.
Qed.

Lemma run_spawner actions : ∀ rt,
  transition (ClaudeCodeRuntime.spawner rt)
    (ClaudeCodeRuntime.spawner (run rt actions)).
Proof.
  induction actions as [|a rest IH]; intros rt; [apply transition_refl |].
  eapply transition_trans; [apply (step_spawner rt a) | apply IH].
Qed.

(** X18. In every execution of a runtime, restarts and shutdowns
    included, [getSession] returns under an id only a session object
    that carries this id, belongs to the agent of the runtime (whose id
    is not empty) and is in state [starting] or [running]. *)
Theorem runtime_getSession_live (agent : AgentConfig.t)
    (rt0 : ClaudeCodeRuntime.t) (actions : list Action) (sid : jstring)
    (s : ClaudeCodeSession.t) :
  ClaudeCodeRuntime.new agent = Ok rt0 →
  getSession sid (run rt0 actions) = Ok (Some s) →
  ClaudeCodeSession.sessionId s = sid
  ∧ (ClaudeCodeSession.state s = starting
     ∨ ClaudeCodeSession.state s = running)
  ∧ ClaudeCodeSession.agentId s = AgentConfig.id agent
  ∧ AgentConfig.id agent ≠ []
  ∧ ClaudeCodeSession.error s = None.
Proof.
  intros Hnew Hget.
  assert (Hsp : ClaudeCodeRuntime.spawner rt0
                = ClaudeCodeProcessSpawner.new agent
                ∧ AgentConfig.id agent ≠ []).
  { unfold ClaudeCodeRuntime.new, ClaudeCodeRuntime.validateAgentConfig in Hnew.
    destruct (AgentConfig.id agent); [done |].
    destruct (AgentConfig.workspace agent); [done |].
    destruct (AgentConfig.runtime agent) as [[] |]; try done.
    by injection Hnew as <-. }
  destruct Hsp as [Hsp Hid].
  pose proof (run_spawner actions rt0) as [Ha Hc _ _].
  rewrite Hsp in Ha, Hc. specialize (Hc (coherent_new agent)).
  unfold getSession in Hget.
  destruct (ClaudeCodeRuntime.ensureInitialized _); [| done].
  injection Hget as Hget.
  destruct (getSession_coherent _ _ _ Hc Hget) as (? & ? & Hag & ?).
  rewrite Ha in Hag. done.
Qed.

Lemma runtime_getSession_live_witness :
  ∃ s, getSession one_session_id runtime_with_wait = Ok (Some s)
       ∧ ClaudeCodeSession.sessionId s = one_session_id
       ∧ ClaudeCodeSession.agentId s = js "test-agent".
Proof.
  assert (Hg : ∃ s, getSession one_session_id runtime_with_wait
                    = Ok (Some s)).
  { eexists. vm_compute. reflexivity. }
  destruct Hg as (s & Hg). exists s. split; [exact Hg |].
  destruct (runtime_getSession_live test_agent test_runtime
              [call_continueLastSession None
                 (spawn_env 1700000000000 (js "0.4fzyo82mvyr") 4242);
               call_waitForCompletion one_session_id (Some 50%Z)]
              one_session_id s) as (Hid & _ & Hag & _).
  - vm_compute; reflexivity.
  - exact Hg.
  - split; [exact Hid | exact Hag].
Defined.

(** *** After shutdown *)

Lemma step_uninitialized rt a :
  ClaudeCodeRuntime.isInitialized rt = false →
  ClaudeCodeRuntime.isInitialized (step rt a) = false
  ∧ (guarded_call a → step rt a = rt).
Proof.
  intros Hi.
  destruct a; cbn [step guarded_call];
    unfold startSession, resumeSession, continueLastSession, restartSession,
      restartSession_resume, stopSession, stopSession_resume, sendMessage,
      sendCommand, interruptSession, with_write, waitForCompletion,
      shutdown, shutdown_resume, wake, pty_data, pty_exit, millisecond,
      ClaudeCodeRuntime.ensureInitialized;
    rewrite ?Hi; cbn; try done.
  by destruct (SpawnerLifecycle.restart_resume _ _ _).
Qed.

Lemma run_uninitialized actions : ∀ rt,
  ClaudeCodeRuntime.isInitialized rt = false →
  ClaudeCodeRuntime.isInitialized (run rt actions) = false.
Proof.
  induction actions as [|a rest IH]; intros rt Hi; [done |].
  apply (IH (step rt a)). by apply step_uninitialized.
Qed.

(** X19. Once [shutdown] has run to its end the runtime stays
    uninitialized whatever happens: every later call of one of the
    eleven methods that check the initialization ([startSession],
    [resumeSession], [continueLastSession], [restartSession],
    [stopSession], [sendMessage], [sendCommand], [interruptSession],
    [waitForCompletion], [getSession], [getAllSessions]) fails with the
    not-initialized error (the promise is rejected, or the call
    throws), and changes nothing, neither in the spawner nor in the
    communicator. *)
Theorem shutdown_is_final (rt : ClaudeCodeRuntime.t)
    (actions : list Action) :
  let rt' := run (shutdown_resume rt) actions in
  let rejected :=
    (rt', ClaudeCodeProcessSpawner.spawn_rejected
            ClaudeCodeRuntime.not_initialized) in
  ClaudeCodeRuntime.isInitialized rt' = false
  ∧ (∀ a, guarded_call a → step rt' a = rt')
  ∧ (∀ e o, startSession e o rt' = rejected)
  ∧ (∀ sid task e, resumeSession sid task e rt' = rejected)
  ∧ (∀ task e, continueLastSession task e rt' = rejected)
  ∧ (∀ sid t, restartSession sid t rt'
              = Throw ClaudeCodeRuntime.not_initialized)
  ∧ (∀ sid force t, stopSession sid force t rt'
                    = Throw ClaudeCodeRuntime.not_initialized)
  ∧ (∀ sid m t, sendMessage sid m t rt'
                = Throw ClaudeCodeRuntime.not_initialized)
  ∧ (∀ sid c args t, sendCommand sid c args t rt'
                     = Throw ClaudeCodeRuntime.not_initialized)
  ∧ (∀ sid t, interruptSession sid t rt'
              = Throw ClaudeCodeRuntime.not_initialized)
  ∧ (∀ sid ms, waitForCompletion sid ms rt'
               = Throw ClaudeCodeRuntime.not_initialized)
  ∧ (∀ sid, getSession sid rt' = Throw ClaudeCodeRuntime.not_initialized)
  ∧ (∀ keys, getAllSessions keys rt'
             = Throw ClaudeCodeRuntime.not_initialized).
Proof.
  cbv zeta.
  assert (Hi : ClaudeCodeRuntime.isInitialized
                 (run (shutdown_resume rt) actions) = false)
    by (by apply run_uninitialized).
  split; [done |]. split.
  { intros a. by apply step_uninitialized. }
  unfold startSession, resumeSession, continueLastSession, restartSession,
    stopSession, sendMessage, sendCommand, interruptSession, with_write,
    waitForCompletion, getSession, getAllSessions,
    ClaudeCodeRuntime.ensureInitialized.
  rewrite Hi. done.
Qed.

Lemma shutdown_is_final_witness :
  let rt' := run (shutdown_resume test_runtime)
               [call_startSession
                  (spawn_env 1700000000000 (js "0.4fzyo82mvyr") 4242)
                  (task_only (js "fix the build"))] in
  rt' = shutdown_resume test_runtime
  ∧ step rt' (call_sendMessage one_session_id (js "hello") 1700000000500)
    = rt'
  ∧ snd (resumeSession one_session_id None
           (spawn_env 1700000000000 (js "0.4fzyo82mvyr") 4242) rt')
    = ClaudeCodeProcessSpawner.spawn_rejected
        ClaudeCodeRuntime.not_initialized.
Proof.
  intros rt'.
  destruct (shutdown_is_final test_runtime []) as (_ & Hstep & _).
  split.
  - apply (Hstep (call_startSession
                    (spawn_env 1700000000000 (js "0.4fzyo82mvyr") 4242)
                    (task_only (js "fix the build")))). exact I.
  - destruct (shutdown_is_final test_runtime
                [call_startSession
                   (spawn_env 1700000000000 (js "0.4fzyo82mvyr") 4242)
                   (task_only (js "fix the build"))])
      as (_ & Hstep' & _ & Hresume & _).
    split.
    + apply (Hstep' (call_sendMessage one_session_id (js "hello")
                       1700000000500)). exact I.
    + fold rt' in Hresume. by rewrite Hresume.
Defined.

(** *** The communicator of a runtime *)

Lemma deliver_run (evs : list ClaudeCodeEvent) :
  ∀ c : ClaudeCodeCommunicator.t DefaultOutputParser.t,
  foldl (λ c ev, ClaudeCodeCommunicator.on_spawner_event ev c) c evs
  = ClaudeCodeCommunicator.run c (ClaudeCodeCommunicator.spawner_emits <$> evs).
Proof. induction evs as [|ev evs IH]; intros c; [done |]. cbn. apply IH. Qed.

Lemma new_events_same st : new_events st st = [].
Proof. unfold new_events. by rewrite drop_all. Qed.

Lemma new_events_app st st' evs :
  ClaudeCodeProcessSpawner.emitted st'
  = ClaudeCodeProcessSpawner.emitted st ++ evs →
  new_events st st' = evs.
Proof. intros H. unfold new_events. rewrite H. apply drop_app_length. Qed.

Lemma after_spawner_communicator sp' rt :
  ClaudeCodeRuntime.communicator (after_spawner sp' rt)
  = ClaudeCodeCommunicator.run (ClaudeCodeRuntime.communicator rt)
      (ClaudeCodeCommunicator.spawner_emits
         <$> new_events (ClaudeCodeRuntime.spawner rt) sp').
Proof. apply deliver_run. Qed.

Lemma step_communicator rt a :
  ClaudeCodeRuntime.communicator (step rt a)
  = ClaudeCodeCommunicator.run (ClaudeCodeRuntime.communicator rt)
      (communicator_actions rt a).
Proof.
  assert (Hsame : ∀ rt', ClaudeCodeRuntime.spawner rt'
                         = ClaudeCodeRuntime.spawner rt →
            ClaudeCodeRuntime.communicator rt
            = ClaudeCodeCommunicator.run (ClaudeCodeRuntime.communicator rt)
                (ClaudeCodeCommunicator.spawner_emits
                   <$> new_events (ClaudeCodeRuntime.spawner rt)
                         (ClaudeCodeRuntime.spawner rt'))).
  { intros rt' ->. by rewrite new_events_same. }
  unfold communicator_actions.
  destruct a; cbn [step];
    try (apply after_spawner_communicator).
  - unfold startSession.
    destruct (ClaudeCodeRuntime.ensureInitialized rt); [| by apply Hsame].
    destruct (ClaudeCodeProcessSpawner.spawn _ _ _).
    apply after_spawner_communicator.
  - unfold resumeSession, startSession.
    destruct (ClaudeCodeRuntime.ensureInitialized rt); [| by apply Hsame].
    destruct (ClaudeCodeProcessSpawner.spawn _ _ _).
    apply after_spawner_communicator.
  - unfold continueLastSession, startSession.
    destruct (ClaudeCodeRuntime.ensureInitialized rt); [| by apply Hsame].
    destruct (ClaudeCodeProcessSpawner.spawn _ _ _).
    apply after_spawner_communicator.
  - unfold restartSession.
    destruct (ClaudeCodeRuntime.ensureInitialized rt); [| by apply Hsame].
    destruct (SpawnerLifecycle.restart _ _ _) as [[sp' task] |];
      [| by apply Hsame].
    apply after_spawner_communicator.
  - unfold restartSession_resume.
    destruct (SpawnerLifecycle.restart_resume _ _ _).
    apply after_spawner_communicator.
  - unfold stopSession.
    destruct (ClaudeCodeRuntime.ensureInitialized rt); [| by apply Hsame].
    apply after_spawner_communicator.
  - done.
  - unfold sendMessage, with_write.
    destruct (ClaudeCodeRuntime.ensureInitialized rt); [| by apply Hsame].
    destruct (CommunicatorOutbound.sendMessage _ _ _ _); [| by apply Hsame].
    apply after_spawner_communicator.
  - unfold sendCommand, with_write.
    destruct (ClaudeCodeRuntime.ensureInitialized rt); [| by apply Hsame].
    destruct (CommunicatorOutbound.sendCommand _ _ _ _ _); [| by apply Hsame].
    apply after_spawner_communicator.
  - unfold interruptSession, with_write.
    destruct (ClaudeCodeRuntime.ensureInitialized rt); [| by apply Hsame].
    destruct (CommunicatorOutbound.interrupt _ _ _); [| by apply Hsame].
    apply after_spawner_communicator.
  - unfold waitForCompletion, ClaudeCodeRuntime.ensureInitialized.
    destruct (ClaudeCodeRuntime.isInitialized rt); done.
  - done.
  - done.
Qed.

Lemma run_communicator actions : ∀ rt,
  ClaudeCodeRuntime.communicator (run rt actions)
  = ClaudeCodeCommunicator.run (ClaudeCodeRuntime.communicator rt)
      (communicator_trace rt actions).
Proof.
  induction actions as [|a rest IH]; intros rt; [done |].
  cbn [run foldl communicator_trace]. fold (run (step rt a) rest).
  rewrite IH, step_communicator.
  unfold ClaudeCodeCommunicator.run. by rewrite foldl_app.
Qed.

Lemma elapsed_app actions1 actions2 :
  elapsed (actions1 ++ actions2) = (elapsed actions1 + elapsed actions2)%Z.
Proof.
  induction actions1 as [|a rest IH]; [done |].
  rewrite <- app_comm_cons, !elapsed_cons, IH. lia.
Qed.

Lemma elapsed_events (evs : list ClaudeCodeEvent) :
  elapsed (ClaudeCodeCommunicator.spawner_emits <$> evs) = 0%Z.
Proof. induction evs as [|ev evs IH]; [done |]. by rewrite fmap_cons, elapsed_cons, IH. Qed.

Lemma elapsed_trace actions : ∀ rt,
  elapsed (communicator_trace rt actions) = milliseconds actions.
Proof.
  induction actions as [|a rest IH]; intros rt; [done |].
  cbn [communicator_trace]. rewrite elapsed_app, IH.
  destruct a; cbn [communicator_actions milliseconds];
    rewrite ?elapsed_events; try done.
  by destruct (ClaudeCodeRuntime.isInitialized rt).
Qed.

(** Events the communicator does not listen to. *)
Lemma deliver_stopped (evs : list ClaudeCodeEvent)
    (c : ClaudeCodeCommunicator.t DefaultOutputParser.t) :
  Forall (λ ev, ∃ sid code, ev = stopped_event sid code) evs →
  foldl (λ c ev, ClaudeCodeCommunicator.on_spawner_event ev c) c evs = c.
Proof.
  induction 1 as [|ev evs (sid & code & ->) _ IH]; [done |]. cbn. apply IH.
Qed.

Lemma stop_events sid force t st :
  Forall (λ ev, ∃ sid code, ev = stopped_event sid code)
    (new_events st (ClaudeCodeProcessSpawner.stop sid force t st)).
Proof.
  unfold ClaudeCodeProcessSpawner.stop.
  destruct (ClaudeCodeProcessSpawner.activeSessions st !! sid) as [r |].
  - destruct force.
    + rewrite (new_events_app _ _ [stopped_event sid None]) by done.
      constructor; [by eexists _, _ | constructor].
    + rewrite (new_events_app _ _ []) by (cbn; by rewrite app_nil_r).
      constructor.
  - rewrite (new_events_app _ _ []) by (cbn; by rewrite app_nil_r).
    constructor.
Qed.

Lemma stopSession_communicator sid force t rt rt1 :
  stopSession sid force t rt = Ok rt1 →
  ClaudeCodeRuntime.communicator rt1 = ClaudeCodeRuntime.communicator rt.
Proof.
  unfold stopSession.
  destruct (ClaudeCodeRuntime.ensureInitialized rt); [| done].
  intros [= <-]. cbn [after_spawner ClaudeCodeRuntime.communicator].
  apply deliver_stopped, stop_events.
Qed.

(** The communicator of a runtime is the one the constructor made,
    after the events and calls of the execution. *)
Lemma new_communicator agent rt0 :
  ClaudeCodeRuntime.new agent = Ok rt0 →
  ClaudeCodeRuntime.communicator rt0
  = ClaudeCodeCommunicator.new DefaultOutputParser.new.
Proof.
  unfold ClaudeCodeRuntime.new.
  destruct (ClaudeCodeRuntime.validateAgentConfig agent); [| done].
  by intros [= <-].
Qed.

Lemma runtime_tables_sound agent rt0 actions :
  ClaudeCodeRuntime.new agent = Ok rt0 →
  tables_sound (ClaudeCodeRuntime.communicator (run rt0 actions)).
Proof.
  intros Hnew. rewrite run_communicator, (new_communicator _ _ Hnew).
  apply tables_sound_run, tables_sound_new.
Qed.

Lemma cleanup_events keys t st :
  SpawnerLifecycle.enumerates keys st →
  Forall (λ ev, ∃ sid code, ev = stopped_event sid code)
    (new_events st (SpawnerLifecycle.cleanup keys t st)).
Proof.
  intros Henum.
  destruct (cleanup_tables st keys t Henum) as (_ & _ & Hem & _).
  rewrite (new_events_app _ _ _ Hem).
  apply Forall_fmap, Forall_forall. intros sid _. by eexists _, _.
Qed.

(** X20. A stop or a shutdown does not settle a pending
    [waitForCompletion].  Take any state a runtime reaches and any
    wait pending in it, that is, any [waitForCompletion] whose timer is
    still in the table of the communicator (there may be other waits
    for the same session): the timer is not due and the promise has
    received nothing.  The first part of [stopSession] for the session
    of the wait, and the first part of [shutdown], leave the whole
    communicator as it is; the removal of the handler after the stop,
    and likewise the clean-up of the communicator at the end of
    [shutdown], leave the timer of the wait running: whatever happens
    afterwards, the promise receives nothing before the deadline and is
    rejected with the timeout error once the deadline has passed. *)
Theorem stopped_session_wait_times_out (agent : AgentConfig.t)
    (rt0 : ClaudeCodeRuntime.t) (history : list Action) (k : nat)
    (tm : ClaudeCodeCommunicator.Timer) :
  ClaudeCodeRuntime.new agent = Ok rt0 →
  let rt := run rt0 history in
  let c := ClaudeCodeRuntime.communicator rt in
  let sid := ClaudeCodeCommunicator.timer_session tm in
  let D := ClaudeCodeCommunicator.deadline tm in
  let now := ClaudeCodeCommunicator.clock c in
  ClaudeCodeCommunicator.timers c !! k = Some tm →
  (now < D)%Z ∧ ClaudeCodeCommunicator.settlements c k = []
  ∧ (∀ force t rt1, stopSession sid force t rt = Ok rt1 →
       ClaudeCodeRuntime.communicator rt1 = c)
  ∧ (∀ keys t,
       SpawnerLifecycle.enumerates keys (ClaudeCodeRuntime.spawner rt) →
       ClaudeCodeRuntime.communicator (shutdown keys t rt) = c)
  ∧ (∀ a post, a = stopSession_resumes sid ∨ a = shutdown_resumes →
       let c' := ClaudeCodeRuntime.communicator (run (step rt a) post) in
       ((now + milliseconds post < D)%Z →
          ClaudeCodeCommunicator.settlements c' k = []
          ∧ ClaudeCodeCommunicator.timers c' !! k = Some tm)
       ∧ ((D ≤ now + milliseconds post)%Z →
            ClaudeCodeCommunicator.settlements c' k
            = [ClaudeCodeCommunicator.reject
                 (ClaudeCodeCommunicator.timeout_error sid)])).
Proof.
  intros Hnew. cbv zeta. intros Hk.
  pose proof (runtime_tables_sound agent rt0 history Hnew) as Hs.
  set (rt := run rt0 history) in *.
  set (c := ClaudeCodeRuntime.communicator rt) in *.
  split; [exact (ts_future c Hs _ _ Hk) |].
  split.
  { unfold ClaudeCodeCommunicator.settlements.
    by rewrite (ts_promise c Hs _ _ Hk). }
  split.
  { intros force t rt1 Hstop. apply (stopSession_communicator _ _ _ _ _ Hstop). }
  split.
  { intros keys t Henum. unfold shutdown.
    cbn [after_spawner ClaudeCodeRuntime.communicator].
    by apply deliver_stopped, cleanup_events. }
  intros a post Ha.
  assert (Hc1 : ∃ ca, displaces (ClaudeCodeCommunicator.timer_session tm) ca
                      ∧ ClaudeCodeRuntime.communicator (step rt a)
                        = ClaudeCodeCommunicator.step c ca).
  { destruct Ha as [-> | ->].
    - by exists (ClaudeCodeCommunicator.call_offOutput
                   (ClaudeCodeCommunicator.timer_session tm)).
    - by exists ClaudeCodeCommunicator.call_cleanup. }
  destruct Hc1 as (ca & Hdis & Hc1).
  rewrite run_communicator, Hc1.
  pose proof (elapsed_trace post (step rt a)) as Hel.
  destruct (displaced_wait_run k tm c ca
              (communicator_trace (step rt a) post) Hs Hk Hdis)
    as (_ & _ & Hbefore & Hafter).
  rewrite Hel in Hbefore, Hafter. split; done.
Qed.

Lemma stopped_session_wait_times_out_witness :
  let rt := run test_runtime two_waits in
  let post := pty_emits 0 (js "Task completed") 1700000002000
              :: replicate 80 one_millisecond in
  let c' := ClaudeCodeRuntime.communicator
              (run (step rt (stopSession_resumes one_session_id)) post) in
  ClaudeCodeCommunicator.settlements c' 0
  = [ClaudeCodeCommunicator.reject
       (ClaudeCodeCommunicator.timeout_error one_session_id)]
  ∧ ClaudeCodeCommunicator.settlements c' 1
    = [ClaudeCodeCommunicator.reject
         (ClaudeCodeCommunicator.timeout_error one_session_id)].
Proof.
  intros rt post c'. split.
  - destruct (stopped_session_wait_times_out test_agent test_runtime
                two_waits 0
                {| ClaudeCodeCommunicator.deadline := 50;
                   ClaudeCodeCommunicator.timer_session := one_session_id |})
      as (_ & _ & _ & _ & H); [vm_compute; reflexivity.. |].
    destruct (H (stopSession_resumes one_session_id) post) as (_ & Hafter);
      [by left |].
    apply Hafter. vm_compute. discriminate.
  - destruct (stopped_session_wait_times_out test_agent test_runtime
                two_waits 1
                {| ClaudeCodeCommunicator.deadline := 81;
                   ClaudeCodeCommunicator.timer_session := one_session_id |})
      as (_ & _ & _ & _ & H); [vm_compute; reflexivity.. |].
    destruct (H (stopSession_resumes one_session_id) post) as (_ & Hafter);
      [by left |].
    apply Hafter. vm_compute. discriminate.
Defined.

(** X21. The two parts of [shutdown], run one after the other on a
    runtime whose registry has the keys [keys]: every registered
    process receives [SIGKILL], the registry and the table of output
    handlers are empty and the runtime is no longer initialized.  The
    timers are left alone: those of pending waits (whose promises
    receive nothing from the shutdown) and those of suspended calls of
    the spawner. *)
Theorem shutdown_stops_everything (rt : ClaudeCodeRuntime.t)
    (keys : list jstring) (t : Z) :
  SpawnerLifecycle.enumerates keys (ClaudeCodeRuntime.spawner rt) →
  let rt' := shutdown_resume (shutdown keys t rt) in
  let sp := ClaudeCodeRuntime.spawner rt in
  let sp' := ClaudeCodeRuntime.spawner rt' in
  let c := ClaudeCodeRuntime.communicator rt in
  let c' := ClaudeCodeRuntime.communicator rt' in
  ClaudeCodeRuntime.isInitialized rt' = false
  ∧ ClaudeCodeProcessSpawner.activeSessions sp' = ∅
  ∧ ClaudeCodeProcessSpawner.pty_ops sp'
    = ClaudeCodeProcessSpawner.pty_ops sp
      ++ ((λ r, (r, ClaudeCodeProcessSpawner.pty_kill (js "SIGKILL")))
            <$> refs_of keys sp)
  ∧ ClaudeCodeProcessSpawner.sleepers sp'
    = ClaudeCodeProcessSpawner.sleepers sp
  ∧ ClaudeCodeCommunicator.outputHandlers c' = ∅
  ∧ ClaudeCodeCommunicator.timers c' = ClaudeCodeCommunicator.timers c
  ∧ ClaudeCodeCommunicator.promises c' = ClaudeCodeCommunicator.promises c
  ∧ ClaudeCodeCommunicator.emitted c' = ClaudeCodeCommunicator.emitted c.
Proof.
  intros Henum. cbv zeta.
  destruct (cleanup_tables (ClaudeCodeRuntime.spawner rt) keys t Henum)
    as (Hreg & Hops & Hem & _ & Hsl & _).
  assert (Hc : ClaudeCodeRuntime.communicator (shutdown keys t rt)
               = ClaudeCodeRuntime.communicator rt).
  { unfold shutdown. cbn [after_spawner ClaudeCodeRuntime.communicator].
    by apply deliver_stopped, cleanup_events. }
  cbn [shutdown_resume set_isInitialized set_communicator
         ClaudeCodeRuntime.isInitialized ClaudeCodeRuntime.spawner
         ClaudeCodeRuntime.communicator].
  rewrite Hc. cbn [shutdown after_spawner ClaudeCodeRuntime.spawner].
  repeat split; done.
Qed.

Lemma shutdown_stops_everything_witness :
  let rt' := shutdown_resume
               (shutdown [one_session_id] 1700000009000 runtime_with_wait) in
  ClaudeCodeRuntime.isInitialized rt' = false
  ∧ ClaudeCodeProcessSpawner.activeSessions (ClaudeCodeRuntime.spawner rt') = ∅
  ∧ ClaudeCodeCommunicator.outputHandlers (ClaudeCodeRuntime.communicator rt')
    = ∅
  ∧ ClaudeCodeCommunicator.settlements (ClaudeCodeRuntime.communicator rt') 0
    = [].
Proof.
  intros rt'.
  assert (Hreg : ClaudeCodeProcessSpawner.activeSessions
                   (ClaudeCodeRuntime.spawner runtime_with_wait)
                 = <[one_session_id := 0%nat]> ∅).
  { vm_compute. reflexivity. }
  assert (Henum : SpawnerLifecycle.enumerates [one_session_id]
                    (ClaudeCodeRuntime.spawner runtime_with_wait)).
  { split; [apply NoDup_singleton |]. intros sid. rewrite Hreg. split.
    - intros ->%list_elem_of_singleton. by rewrite lookup_insert_eq.
    - intros [r Hr]. apply lookup_insert_Some in Hr as [[<- _] | [_ Hr]];
        [by left | by rewrite lookup_empty in Hr]. }
  destruct (shutdown_stops_everything runtime_with_wait [one_session_id]
              1700000009000 Henum)
    as (Hi & Hr & _ & _ & Hh & _ & Hp & _).
  split; [exact Hi |]. split; [exact Hr |]. split; [exact Hh |].
  unfold ClaudeCodeCommunicator.settlements. subst rt'. rewrite Hp.
  vm_compute. reflexivity.
Defined.

(** X22. Output of a process reaches a pending wait through the three
    components.  Take any state a runtime reaches, a session object of
    its spawner and the wait whose handler is registered for the id of
    that session (the last [waitForCompletion] for the id, when nothing
    has removed or replaced its handler since; there may be older waits
    for the id, with their timers still pending).  The handler was made
    for that id and its promise has received nothing.  When the
    pseudo-terminal of the session delivers a chunk that the parser
    classifies as terminal, the promise of the wait is settled at once,
    by that output, its handler and its timer are removed, no other
    promise receives anything, and the chunk is in the output buffer of
    the session.  With a completion marker in the accumulated text the
    promise is resolved with the whole text.  The session need not be
    registered any more. *)
Theorem process_output_settles_wait (agent : AgentConfig.t)
    (rt0 : ClaudeCodeRuntime.t) (history : list Action) (r : nat)
    (s : ClaudeCodeSession.t) (k : nat) (sid' : jstring) (data : jstring)
    (t : Z) :
  ClaudeCodeRuntime.new agent = Ok rt0 →
  let rt := run rt0 history in
  let sp := ClaudeCodeRuntime.spawner rt in
  let c := ClaudeCodeRuntime.communicator rt in
  let sid := ClaudeCodeSession.sessionId s in
  let o := snd (DefaultOutputParser.parse (ClaudeCodeCommunicator.parser c)
                  data) in
  let rt' := pty_data r data t rt in
  let c' := ClaudeCodeRuntime.communicator rt' in
  ClaudeCodeProcessSpawner.sessions sp !! r = Some s →
  ClaudeCodeCommunicator.outputHandlers c !! sid
  = Some (ClaudeCodeCommunicator.wait_handler k sid') →
  ClaudeCodeCommunicator.terminal o = true →
  sid' = sid
  ∧ ClaudeCodeCommunicator.settlements c k = []
  ∧ ClaudeCodeCommunicator.settlements c' k = [settlement_of o]
  ∧ ClaudeCodeCommunicator.outputHandlers c' !! sid = None
  ∧ ClaudeCodeCommunicator.timers c' !! k = None
  ∧ (∀ k', k' ≠ k →
       ClaudeCodeCommunicator.settlements c' k'
       = ClaudeCodeCommunicator.settlements c k')
  ∧ (completion_marker
       (DefaultOutputParser.buffer (ClaudeCodeCommunicator.parser c) ++ data)
     = true →
     settlement_of o = ClaudeCodeCommunicator.resolve o
     ∧ content o
       = JStr (DefaultOutputParser.buffer (ClaudeCodeCommunicator.parser c)
               ++ data))
  ∧ (∃ s', ClaudeCodeProcessSpawner.sessions (ClaudeCodeRuntime.spawner rt')
             !! r = Some s'
           ∧ last (ClaudeCodeSession.outputBuffer s') = Some data).
Proof.
  intros Hnew. cbv zeta. intros Hs Hl Hterm.
  pose proof (runtime_tables_sound agent rt0 history Hnew) as Hsound.
  set (rt := run rt0 history) in *.
  assert (Hc' : ClaudeCodeRuntime.communicator (pty_data r data t rt)
                = ClaudeCodeCommunicator.step (ClaudeCodeRuntime.communicator rt)
                    (ClaudeCodeCommunicator.spawner_emits
                       (output_event (ClaudeCodeSession.sessionId s) data))).
  { unfold pty_data. rewrite after_spawner_communicator.
    rewrite (new_events_app _ _
               [output_event (ClaudeCodeSession.sessionId s) data]); [done |].
    unfold ClaudeCodeProcessSpawner.onData. by rewrite Hs. }
  rewrite Hc'.
  pose proof (registered_wait_settles (ClaudeCodeRuntime.communicator rt)
                (ClaudeCodeSession.sessionId s) k sid' data Hsound Hl)
    as Hsettle.
  change (@parse _ DefaultOutputParser_parser)
    with DefaultOutputParser.parse in Hsettle.
  destruct (Hsettle Hterm) as (Hsid & Hp0 & Hp & Hh & Htimer & Hothers).
  split; [done |]. split; [done |]. split; [done |]. split; [done |].
  split; [done |]. split; [done |]. split.
  - intros Hmark.
    destruct (parse_precedence (ClaudeCodeCommunicator.parser
                                  (ClaudeCodeRuntime.communicator rt)) data)
      as (Hres & _).
    destruct (Hres Hmark) as (Hty & _ & Hcontent).
    split; [| done]. unfold settlement_of.
    rewrite bool_decide_eq_false_2; [done |]. by rewrite Hty.
  - unfold pty_data. cbn [after_spawner ClaudeCodeRuntime.spawner].
    destruct (onData_buffer _ r s data t Hs) as (s' & Hs' & Hbuf).
    exists s'. split; [done |]. rewrite Hbuf.
    unfold ClaudeCodeProcessSpawner.push_bounded.
    destruct (decide _) as [Hlen |]; [| by rewrite last_snoc].
    destruct (ClaudeCodeSession.outputBuffer s) as [|b buf];
      [cbn in Hlen; lia |].
    cbn. apply last_snoc.
Qed.

Lemma process_output_settles_wait_witness :
  let rt := run test_runtime two_waits in
  let rt' := pty_data 0 (js "All tests pass. Task completed")
               1700000002000 rt in
  ClaudeCodeCommunicator.timers (ClaudeCodeRuntime.communicator rt) !! 0%nat
  = Some {| ClaudeCodeCommunicator.deadline := 50;
            ClaudeCodeCommunicator.timer_session := one_session_id |}
  ∧ ClaudeCodeCommunicator.settlements (ClaudeCodeRuntime.communicator rt') 0
    = []
  ∧ ∃ o, ClaudeCodeCommunicator.settlements
           (ClaudeCodeRuntime.communicator rt') 1
         = [ClaudeCodeCommunicator.resolve o]
         ∧ content o = JStr (js "All tests pass. Task completed").
Proof.
  intros rt rt'.
  assert (Hs : ∃ s, ClaudeCodeProcessSpawner.sessions
                      (ClaudeCodeRuntime.spawner rt) !! 0%nat
                    = Some s
                    ∧ ClaudeCodeSession.sessionId s = one_session_id).
  { eexists. split; vm_compute; reflexivity. }
  destruct Hs as (s & Hs & Hid).
  destruct (process_output_settles_wait test_agent test_runtime two_waits 0
              s 1 one_session_id (js "All tests pass. Task completed")
              1700000002000)
    as (_ & _ & Hset & _ & _ & Hothers & Hres & _).
  { vm_compute; reflexivity. }
  { exact Hs. }
  { rewrite Hid. vm_compute; reflexivity. }
  { vm_compute. reflexivity. }
  destruct Hres as (Hsettle & Hcontent); [vm_compute; reflexivity |].
  split; [vm_compute; reflexivity |].
  split.
  { subst rt' rt. rewrite (Hothers 0%nat) by done. vm_compute; reflexivity. }
  eexists. split.
  - subst rt' rt. rewrite Hset, Hsettle. reflexivity.
  - rewrite Hcontent. vm_compute. reflexivity.
Defined.

End Runtime.

(* --------------------------------------------------------------------- *)
(** ** What settles a wait, and the list of sessions *)
(* --------------------------------------------------------------------- *)

Section Terminal_outputs.
Import ClaudeCodeCommunicator.

Lemma terminal_spec (o : ParsedOutput) :
  terminal o = true ↔ isComplete o = Some true ∨ type o = Error.
Proof.
  unfold terminal. rewrite orb_true_iff, bool_decide_eq_true.
  destruct (isComplete o) as [[] |]; cbn; intuition discriminate.
Qed.

(** X23. With either parser, the outputs on which the handler of
    [waitForCompletion] acts are exactly those of kind result or error,
    and [isComplete] is set exactly on the results: a prompt, a status
    or raw output never settles a wait, which then stays pending until
    a later output or its timeout. *)
Theorem wait_settles_on_result_or_error :
  (∀ (p : DefaultOutputParser.t) (output : jstring),
     let o := snd (DefaultOutputParser.parse p output) in
     (terminal o = true ↔ type o = Result ∨ type o = Error)
     ∧ (isComplete o = Some true ↔ type o = Result))
  ∧ (∀ (JSON_parse : jstring → option JsVal)
       (JSON_stringify : JsVal → jstring)
       (p : JsonOutputParser.t) (output : jstring),
       let o := snd (JsonOutputParser.parse JSON_parse JSON_stringify p
                       output) in
       (terminal o = true ↔ type o = Result ∨ type o = Error)
       ∧ (isComplete o = Some true ↔ type o = Result)).
Proof.
  split.
  - intros p output. cbv zeta. rewrite terminal_spec.
    unfold DefaultOutputParser.parse.
    repeat match goal with
           | |- context [if ?b then _ else _] => destruct b
           end; cbn [snd type isComplete]; intuition discriminate.
  - intros JSON_parse JSON_stringify p output. cbv zeta.
    rewrite terminal_spec.
    unfold JsonOutputParser.parse, JsonOutputParser.try_block.
    destruct (JSON_parse output) as [d |]; cbn [mbind option_bind];
      [| cbn [snd type isComplete]; intuition discriminate].
    destruct (get_prop d (js "type")) as [ty |]; cbn [mbind option_bind];
      [| cbn [snd type isComplete]; intuition discriminate].
    destruct (strict_eq_str ty (js "completion")).
    { destruct (get_prop d (js "result")); cbn [mbind option_bind];
        cbn [snd type isComplete]; intuition discriminate. }
    destruct (strict_eq_str ty (js "error")).
    { destruct (get_prop d (js "message")); cbn [mbind option_bind];
        cbn [snd type isComplete]; intuition discriminate. }
    cbn [snd type isComplete]. intuition discriminate.
Qed.

Lemma wait_settles_on_result_or_error_witness :
  let o := snd (DefaultOutputParser.parse DefaultOutputParser.new
                  (js "Build Failed")) in
  (type o = Result ∨ type o = Error) ∧ isComplete o ≠ Some true.
Proof.
  intros o.
  destruct wait_settles_on_result_or_error as [H _].
  destruct (H DefaultOutputParser.new (js "Build Failed")) as [Hterm Hcomp].
  split.
  - apply Hterm. vm_compute. reflexivity.
  - intros Hc. apply Hcomp in Hc. revert Hc. vm_compute. discriminate.
Defined.

End Terminal_outputs.

Section Session_list.
Import ClaudeCodeProcessSpawner.
Import SpawnerLifecycle.

(** X24. In a coherent state, [getAllSessions] returns one session
    object for each key of the registry, in the order of the keys: the
    ids of the objects are the keys, and every object is in state
    [starting] or [running]. *)
Theorem getAllSessions_lists_registry (st : ClaudeCodeProcessSpawner.t)
    (keys : list jstring) :
  coherent st → enumerates keys st →
  ClaudeCodeSession.sessionId <$> getAllSessions keys st = keys
  ∧ Forall live (getAllSessions keys st)
  ∧ (∀ s, s ∈ getAllSessions keys st ↔ ∃ sid, getSession sid st = Some s).
Proof.
  intros Hco [_ Hkeys].
  assert (Hget : ∀ sid, sid ∈ keys →
            ∃ s, getSession sid st = Some s
                 ∧ ClaudeCodeSession.sessionId s = sid ∧ live s).
  { intros sid [r Hr]%Hkeys. destruct Hco as [Hreg _ _].
    destruct (Hreg _ _ Hr) as (s & Hs & Hid & Hlive).
    exists s. unfold getSession. rewrite Hr. cbn. by rewrite Hs. }
  split; [| split].
  - unfold getAllSessions. clear Hkeys.
    induction keys as [|k keys IH]; [done |].
    destruct (Hget k) as (s & Hs & Hid & _); [by left |].
    cbn. rewrite Hs. cbn. rewrite Hid. f_equal.
    apply IH. intros sid Hin. apply Hget. by right.
  - apply Forall_forall. intros s Hin.
    apply list_elem_of_omap in Hin as (sid & Hin & Hs).
    destruct (Hget sid Hin) as (s' & Hs' & _ & Hlive). congruence.
  - intros s. unfold getAllSessions. rewrite list_elem_of_omap. split.
    + intros (sid & _ & Hs). by exists sid.
    + intros (sid & Hs). exists sid. split; [| done].
      apply Hkeys. unfold getSession in Hs.
      by destruct (activeSessions st !! sid).
Qed.

Lemma getAllSessions_lists_registry_witness :
  ClaudeCodeSession.sessionId <$> getAllSessions [one_session_id] one_session
  = [one_session_id].
Proof.
  assert (Hco : coherent one_session).
  { apply (transition_spawn _ _ (new test_agent)), coherent_new. }
  assert (Hreg : activeSessions one_session = <[one_session_id := 0%nat]> ∅).
  { vm_compute. reflexivity. }
  assert (Henum : enumerates [one_session_id] one_session).
  { split; [apply NoDup_singleton |]. intros sid. rewrite Hreg. split.
    - intros ->%list_elem_of_singleton. by rewrite lookup_insert_eq.
    - intros [r Hr]. apply lookup_insert_Some in Hr as [[<- _] | [_ Hr]];
        [by left | by rewrite lookup_empty in Hr]. }
  apply (getAllSessions_lists_registry one_session [one_session_id] Hco Henum).
Defined.

End Session_list.

(* --------------------------------------------------------------------- *)
(** ** From starting to running *)
(* --------------------------------------------------------------------- *)

Section Session_state.
Import ClaudeCodeProcessSpawner.

Lemma onData_session_state t data s :
  ClaudeCodeSession.state (onData_session t data s)
  = state_after_output (ClaudeCodeSession.state s) [(data, t)].
Proof.
  destruct s as [sid ag pid wd task t0 state la err buf].
  unfold onData_session, state_after_output, banner_seen, banner.
  cbn [existsb fst orb]. rewrite orb_false_r.
  generalize (includes data (js "Claude Code")). intros b. cbn.
  by destruct state, b.
Qed.

Lemma state_after_output_cons state d chunks :
  state_after_output state (d :: chunks)
  = state_after_output (state_after_output state [d]) chunks.
Proof.
  unfold state_after_output, banner_seen. cbn [existsb].
  rewrite orb_false_r.
  destruct state; try done.
  destruct (includes d.1 banner); cbn [orb]; [done |].
  done.
Qed.

(** X25. A session leaves the state [starting] for [running] exactly
    when one single chunk of its output contains the text
    [Claude Code]: after any sequence of output callbacks a session
    that was starting is running if one of the chunks contains the
    banner and still starting otherwise, also when the banner arrived
    split over two chunks; a session in another state keeps it. *)
Theorem running_needs_banner_in_one_chunk (st : ClaudeCodeProcessSpawner.t)
    (r : ref) (s : ClaudeCodeSession.t) (chunks : list (jstring * Z)) :
  sessions st !! r = Some s →
  ∃ s', sessions (run st (output_callbacks r chunks)) !! r = Some s'
        ∧ ClaudeCodeSession.state s'
          = state_after_output (ClaudeCodeSession.state s) chunks.
Proof.
  revert st s. induction chunks as [|[data t] chunks IH]; intros st s Hs.
  - exists s. split; [done |]. unfold state_after_output.
    by destruct (ClaudeCodeSession.state s).
  - cbn [output_callbacks fmap list_fmap run foldl step fst snd].
    assert (Hs1 : sessions (onData r data t st) !! r
                  = Some (onData_session t data s)).
    { unfold onData. rewrite Hs. cbn. by rewrite lookup_alter_eq, Hs. }
    destruct (IH _ _ Hs1) as (s' & Hs' & Hst).
    exists s'. split; [exact Hs' |].
    rewrite Hst, onData_session_state. symmetry.
    apply state_after_output_cons.
Qed.

Lemma running_needs_banner_in_one_chunk_witness :
  (∃ s', sessions (run one_session
                     (output_callbacks 0
                        [(js "Welcome to Claude ", 1700000000100%Z);
                         (js "Code v2", 1700000000200%Z)])) !! 0%nat
         = Some s'
         ∧ ClaudeCodeSession.state s' = starting)
  ∧ (∃ s', sessions (run one_session
                       (output_callbacks 0
                          [(js "Welcome to Claude Code v2",
                            1700000000100%Z)])) !! 0%nat
           = Some s'
           ∧ ClaudeCodeSession.state s' = running).
Proof.
  assert (Hs : ∃ s, sessions one_session !! 0%nat = Some s
                    ∧ ClaudeCodeSession.state s = starting).
  { eexists. split; vm_compute; reflexivity. }
  destruct Hs as (s & Hs & Hst). split.
  - destruct (running_needs_banner_in_one_chunk one_session 0 s
                [(js "Welcome to Claude ", 1700000000100%Z);
                 (js "Code v2", 1700000000200%Z)] Hs) as (s' & Hs' & Hst').
    exists s'. split; [exact Hs' |]. rewrite Hst', Hst.
    vm_compute. reflexivity.
  - destruct (running_needs_banner_in_one_chunk one_session 0 s
                [(js "Welcome to Claude Code v2", 1700000000100%Z)] Hs)
      as (s' & Hs' & Hst').
    exists s'. split; [exact Hs' |]. rewrite Hst', Hst.
    vm_compute. reflexivity.
Defined.

End Session_state.
